(** * The diff engine of real-tools: computeDiff, computeInlineDiff, getDiffStats

    A shallow embedding of the three exported functions of the text-diff
    utility, and the properties of its specification.

    - A JavaScript string is a sequence of UTF-16 code units.  The code only
      compares code units for equality, so a code unit is an [N] and a string
      a [list N]; [text.length] is [length], [s.slice(i)] is [skipn i s].
    - A JavaScript array is a [list]; [segments.push(x)] is [segments ++ [x]].
    - Cursors and lengths are [nat]; the result of [indexOf] can be [-1], so
      it is a [Z].
    - A [while] loop is the iteration of its body on the loop state, with
      fuel: [None] means that the fuel ran out.
    - A JavaScript number is an IEEE 754 double.  Counts and lengths are
      integers, which doubles hold exactly below 2^53: they are [Z].  The
      similarity is computed with the division and the multiplication of
      doubles: it is a [spec_float], with the operations of [SpecFloat] at
      precision 53. *)

From Stdlib Require Import Ascii String.
From Stdlib Require Import List ZArith NArith Arith Bool Lia.
From Stdlib Require Import SpecFloat Reals Lra.
From Stdlib Require Import Sorted.
From Stdlib Require PrimFloat FloatOps.
Import ListNotations.

Set Implicit Arguments.

(** ** Strings and arrays *)

Definition JSString := list N.

(** A string literal, one code unit per character. *)
Fixpoint lit (s : string) : JSString :=
  match s with
  | EmptyString => []
  | String c r => N_of_ascii c :: lit r
  end.
Arguments lit s%_string.

(** The code unit of ['\n']. *)
Definition LF : N := 10%N.

(** [a === b] on strings. *)
Fixpoint str_eqb (a b : JSString) : bool :=
  match a, b with
  | [], [] => true
  | x :: a', y :: b' => N.eqb x y && str_eqb a' b'
  | _, _ => false
  end.

(** [text.split(sep)] for a separator of one code unit: the pieces between
    the separators; the empty string gives one empty piece. *)
Fixpoint split (text : JSString) (sep : N) : list JSString :=
  match text with
  | [] => [[]]
  | c :: rest =>
      if N.eqb c sep then [] :: split rest sep
      else match split rest sep with
           | piece :: pieces => (c :: piece) :: pieces
           | [] => [[c]]
           end
  end.

(** [lines.join(sep)]. *)
Fixpoint join (lines : list JSString) (sep : JSString) : JSString :=
  match lines with
  | [] => []
  | [l] => l
  | l :: rest => l ++ sep ++ join rest sep
  end.

(** [arr.indexOf(x)]: the index of the first element equal to [x], or -1. *)
Fixpoint indexOf {A : Type} (eqb : A -> A -> bool) (arr : list A) (x : A) : Z :=
  match arr with
  | [] => (-1)%Z
  | y :: rest =>
      if eqb y x then 0%Z
      else let k := indexOf eqb rest x in
           if (k <? 0)%Z then (-1)%Z else (k + 1)%Z
  end.

(** [text.indexOf(c, position)] for a search string of one code unit [c]:
    the first index at or after [position] holding [c], or -1. *)
Definition String_indexOf (text : JSString) (c : N) (position : nat) : Z :=
  let k := indexOf N.eqb (skipn position text) c in
  if (k <? 0)%Z then (-1)%Z else (Z.of_nat position + k)%Z.

(** [text.slice(a, b)] for [0 <= a <= b]. *)
Definition slice (text : JSString) (a b : nat) : JSString :=
  firstn (b - a) (skipn a text).

(** ** Loops *)

Inductive ctl (S : Type) : Type :=
| Next (s : S)
| Break (s : S).
Arguments Next {S} s.
Arguments Break {S} s.

(** [while (cond) body]: [body] gives the state after one iteration and
    says whether it left through [break]; [None] is a body that does not
    return. *)
Fixpoint while {S : Type} (fuel : nat) (cond : S -> bool)
    (body : S -> option (ctl S)) (s : S) : option S :=
  if cond s then
    match fuel with
    | O => None
    | Datatypes.S fuel' =>
        match body s with
        | Some (Next s') => while fuel' cond body s'
        | Some (Break s') => Some s'
        | None => None
        end
    end
  else Some s.

(** ** Segments *)

Inductive SegmentType : Type := added | removed | unchanged.

Record DiffSegment : Type := mkSegment { type : SegmentType; text : JSString }.

Definition SegmentType_eqb (a b : SegmentType) : bool :=
  match a, b with
  | added, added | removed, removed | unchanged, unchanged => true
  | _, _ => false
  end.

(** The state of both diff loops: the cursors [i], [j] and [segments]. *)
Definition state : Type := (nat * nat * list DiffSegment)%type.

(** ** computeDiff *)

(** The outcome of the three-way test on a pair of different lines. *)
Inductive resolution : Type := Deletion | Insertion | Substitution.

(** The test of computeDiff on [nextMatchInText1] and [nextMatchInText2]. *)
Definition resolve (nextMatchInText1 nextMatchInText2 : Z) : resolution :=
  if (0 <=? nextMatchInText1)%Z
     && ((nextMatchInText2 <? 0)%Z || (nextMatchInText1 <? nextMatchInText2)%Z)
  then Deletion
  else if (0 <=? nextMatchInText2)%Z
          && ((nextMatchInText1 <? 0)%Z || (nextMatchInText2 <? nextMatchInText1)%Z)
  then Insertion
  else Substitution.

(** The two searches of computeDiff at cursors [i], [j]. *)
Definition nextMatchInText1 (lines1 lines2 : list JSString) (i j : nat) : Z :=
  indexOf str_eqb (skipn (i + 1) lines1) (nth j lines2 []).

Definition nextMatchInText2 (lines1 lines2 : list JSString) (i j : nat) : Z :=
  indexOf str_eqb (skipn (j + 1) lines2) (nth i lines1 []).

(** The loop condition of computeDiff. *)
Definition computeDiff_cond (lines1 lines2 : list JSString) (st : state) : bool :=
  let '(i, j, _) := st in
  (i <? length lines1) || (j <? length lines2).

(** One iteration of the loop of computeDiff.  The reads [lines1[i]] and
    [lines2[j]] happen only below the lengths, where [nth] is the element. *)
Definition computeDiff_body (lines1 lines2 : list JSString) (st : state) : state :=
  let '(i, j, segments) := st in
  if length lines1 <=? i then
    (i, j + 1, segments ++ [mkSegment added (nth j lines2 [])])
  else if length lines2 <=? j then
    (i + 1, j, segments ++ [mkSegment removed (nth i lines1 [])])
  else if str_eqb (nth i lines1 []) (nth j lines2 []) then
    (i + 1, j + 1, segments ++ [mkSegment unchanged (nth i lines1 [])])
  else
    match resolve (nextMatchInText1 lines1 lines2 i j)
                  (nextMatchInText2 lines1 lines2 i j) with
    | Deletion =>
        (i + 1, j, segments ++ [mkSegment removed (nth i lines1 [])])
    | Insertion =>
        (i, j + 1, segments ++ [mkSegment added (nth j lines2 [])])
    | Substitution =>
        (i + 1, j + 1,
         (segments ++ [mkSegment removed (nth i lines1 [])])
           ++ [mkSegment added (nth j lines2 [])])
    end.

(** The loop of computeDiff on two arrays of lines.  Every iteration moves a
    cursor forward, so the two lengths together are enough fuel. *)
Definition diffLines (lines1 lines2 : list JSString) : option (list DiffSegment) :=
  match while (length lines1 + length lines2)
              (computeDiff_cond lines1 lines2)
              (fun st => Some (Next (computeDiff_body lines1 lines2 st)))
              (0, 0, []) with
  | Some (_, _, segments) => Some segments
  | None => None
  end.

Definition computeDiff (text1 text2 : JSString) : option (list DiffSegment) :=
  diffLines (split text1 LF) (split text2 LF).

(** ** computeInlineDiff *)

Definition computeInlineDiff_cond (text1 text2 : JSString) (st : state) : bool :=
  let '(i, j, _) := st in
  (i <? length text1) || (j <? length text2).

(** The inner loop: the length of the common run from [i] and [j]. *)
Definition commonRun (text1 text2 : JSString) (i j : nat) : option nat :=
  while (length text1)
        (fun commonLen =>
           (i + commonLen <? length text1)
           && (j + commonLen <? length text2)
           && N.eqb (nth (i + commonLen) text1 0%N) (nth (j + commonLen) text2 0%N))
        (fun commonLen => Some (Next (commonLen + 1)))
        0.

(** The test of computeInlineDiff: the same as [resolve], on the distances
    from the cursors of the absolute positions that [indexOf] returns. *)
Definition resolveInline (nextMatchInText1 nextMatchInText2 : Z) (i j : nat)
  : resolution :=
  if (0 <=? nextMatchInText1)%Z
     && ((nextMatchInText2 <? 0)%Z
         || (nextMatchInText1 - Z.of_nat i <? nextMatchInText2 - Z.of_nat j)%Z)
  then Deletion
  else if (0 <=? nextMatchInText2)%Z
          && ((nextMatchInText1 <? 0)%Z
              || (nextMatchInText2 - Z.of_nat j <? nextMatchInText1 - Z.of_nat i)%Z)
  then Insertion
  else Substitution.

(** One iteration of the loop of computeInlineDiff. *)
Definition computeInlineDiff_body (text1 text2 : JSString) (st : state)
  : option (ctl state) :=
  let '(i, j, segments) := st in
  if length text1 <=? i then
    Some (Break (i, j, segments ++ [mkSegment added (skipn j text2)]))
  else if length text2 <=? j then
    Some (Break (i, j, segments ++ [mkSegment removed (skipn i text1)]))
  else if N.eqb (nth i text1 0%N) (nth j text2 0%N) then
    match commonRun text1 text2 i j with
    | None => None
    | Some commonLen =>
        if 0 <? commonLen then
          Some (Next (i + commonLen, j + commonLen,
                      segments ++ [mkSegment unchanged (slice text1 i (i + commonLen))]))
        else Some (Next (i, j, segments))
    end
  else
    match resolveInline (String_indexOf text1 (nth j text2 0%N) (i + 1))
                        (String_indexOf text2 (nth i text1 0%N) (j + 1)) i j with
    | Deletion =>
        Some (Next (i + 1, j, segments ++ [mkSegment removed [nth i text1 0%N]]))
    | Insertion =>
        Some (Next (i, j + 1, segments ++ [mkSegment added [nth j text2 0%N]]))
    | Substitution =>
        Some (Next (i + 1, j + 1,
                    (segments ++ [mkSegment removed [nth i text1 0%N]])
                      ++ [mkSegment added [nth j text2 0%N]]))
    end.

Definition computeInlineDiff (text1 text2 : JSString) : option (list DiffSegment) :=
  match while (length text1 + length text2)
              (computeInlineDiff_cond text1 text2)
              (computeInlineDiff_body text1 text2)
              (0, 0, []) with
  | Some (_, _, segments) => Some segments
  | None => None
  end.

(** The text of the segments that belong to the first input, and of those
    that belong to the second. *)
Definition inFirst (s : DiffSegment) : bool :=
  match type s with added => false | _ => true end.

Definition inSecond (s : DiffSegment) : bool :=
  match type s with removed => false | _ => true end.

Definition firstSide (segments : list DiffSegment) : list JSString :=
  map text (filter inFirst segments).

Definition secondSide (segments : list DiffSegment) : list JSString :=
  map text (filter inSecond segments).

(** ** Numbers *)

Definition prec : Z := 53.
Definition emax : Z := 1024.

(** The double of an integer: the pair of the mantissa [z] and the exponent
    0 stands for [z], exactly.  [SpecFloat]'s division and multiplication
    measure the mantissas they are given and round the exact result. *)
Definition Number_of_Z (z : Z) : spec_float :=
  match z with
  | Z0 => S754_zero false
  | Zpos p => S754_finite false p 0
  | Zneg p => S754_finite true p 0
  end.

Definition Number_div (x y : spec_float) : spec_float := SFdiv prec emax x y.
Definition Number_mul (x y : spec_float) : spec_float := SFmul prec emax x y.

(** [Math.round(x)]: the integer nearest to [x], the greater one at a tie;
    a zero, an infinity and NaN are returned as they are, and a result that
    rounds to zero keeps the sign of [x]. *)
Definition Math_round (x : spec_float) : spec_float :=
  match x with
  | S754_finite s m e =>
      let v := cond_Zopp s (Zpos m) in
      let n := if (0 <=? e)%Z then (v * 2 ^ e)%Z
               else ((2 * v + 2 ^ (- e)) / 2 ^ (1 - e))%Z in
      if (n =? 0)%Z then S754_zero s else Number_of_Z n
  | _ => x
  end.

(** ** getDiffStats *)

Record DiffStats : Type := mkDiffStats {
  linesAdded : Z;
  linesRemoved : Z;
  linesUnchanged : Z;
  charactersAdded : Z;
  charactersRemoved : Z;
  similarity : spec_float
}.

(** The five counters of getDiffStats, in the order of their declaration. *)
Definition counters : Type := (Z * Z * Z * Z * Z)%type.

(** The callback of [diff.forEach]. *)
Definition countSegment (c : counters) (segment : DiffSegment) : counters :=
  let '(linesAdded, linesRemoved, linesUnchanged, charactersAdded, charactersRemoved) := c in
  match type segment with
  | added =>
      (linesAdded + 1, linesRemoved, linesUnchanged,
       charactersAdded + Z.of_nat (length (text segment)), charactersRemoved)%Z
  | removed =>
      (linesAdded, linesRemoved + 1, linesUnchanged,
       charactersAdded, charactersRemoved + Z.of_nat (length (text segment)))%Z
  | unchanged =>
      (linesAdded, linesRemoved, linesUnchanged + 1,
       charactersAdded, charactersRemoved)%Z
  end.

(** [Math.round(similarity * 100) / 100]. *)
Definition round2 (similarity : spec_float) : spec_float :=
  Number_div (Math_round (Number_mul similarity (Number_of_Z 100))) (Number_of_Z 100).

Definition getDiffStats (text1 text2 : JSString) : option DiffStats :=
  match computeDiff text1 text2 with
  | None => None
  | Some diff =>
      let '(linesAdded, linesRemoved, linesUnchanged, charactersAdded, charactersRemoved) :=
        fold_left countSegment diff (0, 0, 0, 0, 0)%Z in
      let totalChars := (Z.of_nat (length text1) + Z.of_nat (length text2))%Z in
      let unchangedChars :=
        fold_left (fun sum s => (sum + Z.of_nat (length (text s)))%Z)
                  (filter (fun s => SegmentType_eqb (type s) unchanged) diff) 0%Z in
      let similarity :=
        if (0 <? totalChars)%Z
        then Number_div (Number_of_Z (unchangedChars * 2)) (Number_of_Z totalChars)
        else Number_of_Z 1 in
      Some (mkDiffStats linesAdded linesRemoved linesUnchanged
                        charactersAdded charactersRemoved (round2 similarity))
  end.

(** ** What the specification says of the statistics *)

(** The number of segments of a kind, and the summed length of their
    texts. *)
Definition ofKind (ty : SegmentType) (s : DiffSegment) : bool :=
  SegmentType_eqb (type s) ty.

Definition countKind (ty : SegmentType) (diff : list DiffSegment) : Z :=
  Z.of_nat (length (filter (ofKind ty) diff)).

Definition charsKind (ty : SegmentType) (diff : list DiffSegment) : Z :=
  Z.of_nat (length (concat (map text (filter (ofKind ty) diff)))).

(** The ratio [p / q] rounded to hundredths, half up, in exact arithmetic:
    the number of hundredths. *)
Definition hundredthsHalfUp (p q : Z) : Z := ((200 * p + q) / (2 * q))%Z.

(** The real number that a double stands for (0 if it is not finite). *)
Definition Number_value (x : spec_float) : R :=
  match x with
  | S754_finite s m e => (IZR (cond_Zopp s (Zpos m)) * powerRZ 2 e)%R
  | _ => 0%R
  end.

Definition Number_finite (x : spec_float) : bool :=
  match x with
  | S754_finite _ _ _ | S754_zero _ => true
  | _ => false
  end.

(** The value of a mantissa at an exponent. *)
Definition F2R (m e : Z) : R := (IZR m * powerRZ 2 e)%R.

(** What the rounding of [SpecFloat] keeps of the exact value [x] while it
    shifts a mantissa to the right: the truncated mantissa is not above
    [x], and it is strictly below when a round or sticky bit is set. *)
Definition below (x : R) (mrs : shr_record) (e : Z) : Prop :=
  (0 <= shr_m mrs)%Z
  /\ (F2R (shr_m mrs) e <= x)%R
  /\ (shr_r mrs || shr_s mrs = true -> (F2R (shr_m mrs) e < x)%R).

(** The value of a double that is zero or positive and not above 1. *)
Definition unitNumber (x : spec_float) : Prop :=
  x = S754_zero false
  \/ exists m e, x = S754_finite false m e /\ (F2R (Zpos m) e <= 1)%R /\ (e <= 0)%Z.

(** ** The character diff that the specification describes

    These definitions follow the words of the specification, to be compared
    with [computeInlineDiff]: the algorithm of computeDiff on the individual
    characters, and the merge of the runs of unchanged characters. *)

(** The characters of a text, each a string of one code unit. *)
Definition chars (text : JSString) : list JSString :=
  map (fun c => [c]) text.

(** The uncoalesced diff: the loop of computeDiff, one line per character. *)
Definition uncoalesced (text1 text2 : JSString) : option (list DiffSegment) :=
  diffLines (chars text1) (chars text2).

(** Every maximal run of adjacent unchanged segments becomes one segment. *)
Fixpoint merge_unchanged (segments : list DiffSegment) : list DiffSegment :=
  match segments with
  | [] => []
  | s :: rest =>
      match type s, merge_unchanged rest with
      | unchanged, mkSegment unchanged t :: rest' =>
          mkSegment unchanged (text s ++ t) :: rest'
      | _, merged => s :: merged
      end
  end.

(** Both inputs have lines left. *)
Definition bothLeft (lines1 lines2 : list JSString) (st : state) : bool :=
  let '(i, j, _) := st in
  (i <? length lines1) && (j <? length lines2).

(** The uncoalesced diff, stopped as soon as one input is exhausted: the
    cursors reached and the segments pushed until then. *)
Definition uncoalescedWhileBoth (text1 text2 : JSString) : option state :=
  while (length text1 + length text2)
        (bothLeft (chars text1) (chars text2))
        (fun st => Some (Next (computeDiff_body (chars text1) (chars text2) st)))
        (0, 0, []).

(** What is left of an input, as one segment; nothing if nothing is left. *)
Definition remainder (ty : SegmentType) (rest : JSString) : list DiffSegment :=
  match rest with
  | [] => []
  | _ :: _ => [mkSegment ty rest]
  end.

(** What is left of an input, one segment for each character. *)
Definition singles (ty : SegmentType) (rest : JSString) : list DiffSegment :=
  map (fun c => mkSegment ty [c]) rest.

(** A sequence of segments that does not begin with an unchanged one. *)
Definition startsChanged (segments : list DiffSegment) : Prop :=
  match segments with
  | [] => True
  | s :: _ => type s <> unchanged
  end.

(** The segments and the cursor moves of one iteration at a mismatch. *)
Definition resolutionSegments (r : resolution) (a b : JSString) : list DiffSegment :=
  match r with
  | Deletion => [mkSegment removed a]
  | Insertion => [mkSegment added b]
  | Substitution => [mkSegment removed a; mkSegment added b]
  end.

Definition resolutionCursors (r : resolution) (i j : nat) : nat * nat :=
  match r with
  | Deletion => (i + 1, j)
  | Insertion => (i, j + 1)
  | Substitution => (i + 1, j + 1)
  end.

(** The outcome of the three-way test on the characters at [i] and [j]. *)
Definition charResolution (text1 text2 : JSString) (i j : nat) : resolution :=
  resolve (indexOf N.eqb (skipn (i + 1) text1) (nth j text2 0%N))
          (indexOf N.eqb (skipn (j + 1) text2) (nth i text1 0%N)).

(** ** Loop invariants and measures *)

(** The length of the longest common prefix of two strings: what the inner
    loop of computeInlineDiff counts. *)
Fixpoint commonPrefix (a b : JSString) : nat :=
  match a, b with
  | x :: a', y :: b' => if N.eqb x y then S (commonPrefix a' b') else 0
  | _, _ => 0
  end.

(** The fuel that the loop needs from a state. *)
Definition remaining (lines1 lines2 : list JSString) (st : state) : nat :=
  let '(i, j, _) := st in (length lines1 - i) + (length lines2 - j).

(** The segments pushed so far are the lines before the cursors. *)
Definition sides_inv (lines1 lines2 : list JSString) (st : state) : Prop :=
  let '(i, j, segments) := st in
  i <= length lines1 /\ j <= length lines2 /\
  firstSide segments = firstn i lines1 /\
  secondSide segments = firstn j lines2.

Definition remainingInline (text1 text2 : JSString) (st : state) : nat :=
  let '(i, j, _) := st in (length text1 - i) + (length text2 - j).

(** The segments pushed so far spell the two texts before the cursors. *)
Definition spell_inv (text1 text2 : JSString) (st : state) : Prop :=
  let '(i, j, segments) := st in
  i <= length text1 /\ j <= length text2 /\
  concat (firstSide segments) = firstn i text1 /\
  concat (secondSide segments) = firstn j text2.

Definition spell_post (text1 text2 : JSString) (st : state) : Prop :=
  let '(_, _, segments) := st in
  concat (firstSide segments) = text1 /\ concat (secondSide segments) = text2.

(** [x] occurs in [l] and its first occurrence is at offset [d]. *)
Definition firstAt {A : Type} (x : A) (l : list A) (d : nat) : Prop :=
  nth_error l d = Some x /\ forall k, k < d -> nth_error l k <> Some x.

(** * The rest of the code: Roman numerals, the options of a field, the
    page selection, the fields of the form builder

    - The numbers that this code computes with are whole numbers: the number
      to convert, page numbers, positions and sizes in pixels.  They are [Z],
      on which the arithmetic of doubles is exact below 2^53.
    - A call that can throw returns an [outcome]; a [throw] inside a loop
      leaves the loop with the message in the loop state.
    - [toUpperCase] is the method of the platform: the functions that call it
      take it as an argument.
    - The state of a component is passed to its handlers, which return the
      state that they set. *)

(** ** The diff functions: further notions *)

(** The texts of the unchanged segments. *)
Definition unchangedTexts (segments : list DiffSegment) : list JSString :=
  map text (filter (ofKind unchanged) segments).

(** No two unchanged segments are next to each other. *)
Fixpoint noAdjacentUnchanged (segments : list DiffSegment) : Prop :=
  match segments with
  | s1 :: rest =>
      match rest with
      | s2 :: _ => ~ (type s1 = unchanged /\ type s2 = unchanged)
      | [] => True
      end /\ noAdjacentUnchanged rest
  | [] => True
  end.

(** The last segment is an unchanged one. *)
Definition endsUnchanged (segments : list DiffSegment) : Prop :=
  exists front t, segments = front ++ [mkSegment unchanged t].

(** The invariant of the loop of computeInlineDiff for the shape of the
    segments. *)
Definition shape_inv (text1 text2 : JSString) (st : state) : Prop :=
  let '(i, j, segments) := st in
  i <= length text1 /\ j <= length text2
  /\ Forall (fun s => text s <> []) segments
  /\ noAdjacentUnchanged segments
  /\ (endsUnchanged segments ->
      ~ (i < length text1 /\ j < length text2
         /\ N.eqb (nth i text1 0%N) (nth j text2 0%N) = true)).

Definition shape_post (st : state) : Prop :=
  let '(_, _, segments) := st in
  Forall (fun s => text s <> []) segments /\ noAdjacentUnchanged segments.

(** ** Roman numerals *)

(** How a call ends: with a value, with a thrown error, or not at all. *)
Inductive outcome (A : Type) : Type :=
| Returned (a : A)
| Thrown (message : string)
| Unfinished.
Arguments Returned {A} a.
Arguments Thrown {A} message.
Arguments Unfinished {A}.

Definition romanValues : list (Z * JSString) :=
  [(1000, lit "M"); (900, lit "CM"); (500, lit "D"); (400, lit "CD");
   (100, lit "C"); (90, lit "XC"); (50, lit "L"); (40, lit "XL");
   (10, lit "X"); (9, lit "IX"); (5, lit "V"); (4, lit "IV"); (1, lit "I")]%Z.

(** The inner loop of toRoman for one entry of the table, on the state
    [(num, result)]. *)
Definition toRoman_entry (st : Z * JSString) (entry : Z * JSString)
  : option (Z * JSString) :=
  let '(value, symbol) := entry in
  while (Z.to_nat (fst st))
        (fun st => (value <=? fst st)%Z)
        (fun st => Some (Next ((fst st - value)%Z, snd st ++ symbol)))
        st.

Definition toRoman (num : Z) : outcome JSString :=
  if (num <=? 0)%Z || (3999 <? num)%Z
  then Thrown "Number must be between 1 and 3999"
  else
    match fold_left (fun acc entry =>
                       match acc with
                       | Some st => toRoman_entry st entry
                       | None => None
                       end)
                    romanValues (Some (num, [])) with
    | Some (_, result) => Returned result
    | None => Unfinished
    end.

(** [romanValues.find(([_, sym]) => sym === text)]. *)
Definition findSymbol (text : JSString) : option (Z * JSString) :=
  find (fun entry => str_eqb (snd entry) text) romanValues.

(** The state of the loop of fromRoman: [result], [i], and the error thrown
    if the loop was left by [throw]. *)
Definition fromRoman_state : Type := (Z * nat * option string)%type.

Definition fromRoman_body (upper : JSString) (st : fromRoman_state)
  : option (ctl fromRoman_state) :=
  let '(result, i, thrown) := st in
  let twoChar := firstn 2 (skipn i upper) in
  match findSymbol twoChar with
  | Some found => Some (Next ((result + fst found)%Z, i + 2, thrown))
  | None =>
      let oneChar := [nth i upper 0%N] in
      match findSymbol oneChar with
      | Some found => Some (Next ((result + fst found)%Z, i + 1, thrown))
      | None => Some (Break (result, i, Some "Invalid Roman numeral"%string))
      end
  end.

(** fromRoman after [roman.toUpperCase()]. *)
Definition fromRoman_upper (upper : JSString) : outcome Z :=
  match while (length upper)
              (fun st : fromRoman_state => let '(_, i, _) := st in i <? length upper)
              (fromRoman_body upper)
              (0%Z, 0, None) with
  | Some (result, _, None) => Returned result
  | Some (_, _, Some message) => Thrown message
  | None => Unfinished
  end.

(** [toUpperCase] is the method of the platform, taken as it is. *)
Definition fromRoman (toUpperCase : JSString -> JSString) (roman : JSString)
  : outcome Z :=
  fromRoman_upper (toUpperCase roman).

(** One of the seven letters of the table. *)
Definition isRomanLetter (c : N) : bool :=
  existsb (N.eqb c) (lit "IVXLCDM").

(** No letter four times in a row. *)
Fixpoint noFourInARow (s : JSString) : bool :=
  match s with
  | a :: rest =>
      match rest with
      | b :: c :: d :: _ => negb (N.eqb a b && N.eqb b c && N.eqb c d)
      | _ => true
      end && noFourInARow rest
  | [] => true
  end.

(** The upper case of the letters a to z, every other code unit kept: the
    platform's [toUpperCase] on the strings of these letters. *)
Definition upperASCII (s : JSString) : JSString :=
  map (fun c => if (97 <=? c)%N && (c <=? 122)%N then (c - 32)%N else c) s.

(** What toRoman does on a number in range, as a test. *)
Definition toRoman_ok (num : Z) : bool :=
  match toRoman num with
  | Returned s =>
      match fromRoman_upper s with
      | Returned n => (n =? num)%Z
      | _ => false
      end
      && negb (str_eqb s []) && forallb isRomanLetter s
      && (length s <=? 15) && noFourInARow s
  | _ => false
  end.

(** The invariant and the postcondition of the loop of fromRoman. *)
Definition fromRoman_inv (upper : JSString) (st : fromRoman_state) : Prop :=
  let '(result, i, thrown) := st in
  thrown = None /\ (0 <= result)%Z
  /\ Forall (fun c => isRomanLetter c = true) (firstn i upper).

Definition fromRoman_post (upper : JSString) (st : fromRoman_state) : Prop :=
  let '(result, i, thrown) := st in
  match thrown with
  | None => (0 <= result)%Z /\ Forall (fun c => isRomanLetter c = true) upper
  | Some message =>
      message = "Invalid Roman numeral"%string
      /\ Exists (fun c => isRomanLetter c = false) upper
  end.

(** ** The options of a dropdown or of a list, edited as text *)

(** The white space and the line terminators of ECMAScript, which [trim]
    strips: TAB, LF, VT, FF, CR, SP, NBSP, U+1680, U+2000 to U+200A, LS, PS,
    U+202F, U+205F, U+3000 and U+FEFF. *)
Definition isWhiteSpace (c : N) : bool :=
  existsb (N.eqb c)
    [9; 10; 11; 12; 13; 32; 160; 5760;
     8192; 8193; 8194; 8195; 8196; 8197; 8198; 8199; 8200; 8201; 8202;
     8232; 8233; 8239; 8287; 12288; 65279]%N.

Fixpoint trimStart (s : JSString) : JSString :=
  match s with
  | c :: rest => if isWhiteSpace c then trimStart rest else s
  | [] => []
  end.

(** [s.trim()]. *)
Definition trim (s : JSString) : JSString :=
  rev (trimStart (rev (trimStart s))).

(** [value.split('\n').filter(line => line.trim() !== '')], and the
    fallback when no line is left. *)
Definition optionsFromText (value : JSString) (fallback : list JSString)
  : list JSString :=
  let lines := filter (fun line => negb (str_eqb (trim line) [])) (split value LF) in
  if 0 <? length lines then lines else fallback.

(** The [onBlur] handler of the editor of a dropdown, and of a list. *)
Definition dropdownOptionsOnBlur (value : JSString) : list JSString :=
  optionsFromText value [lit "Option 1"; lit "Option 2"].

Definition listItemsOnBlur (value : JSString) : list JSString :=
  optionsFromText value [lit "Item 1"; lit "Item 2"].

(** [field.options?.join('\n') || '']: the text that the editor opens
    with. *)
Definition optionsDefaultValue (options : option (list JSString)) : JSString :=
  match options with
  | Some o => join o [LF]
  | None => []
  end.

(** An option that can stand on a line of its own: no line feed in it, and
    not blank. *)
Definition isOptionLine (o : JSString) : Prop :=
  ~ In LF o /\ exists c, In c o /\ isWhiteSpace c = false.

(** ** The page selection of the PDF editor *)

(** [arr.sort(compare)] on numbers: the sort is stable, and with a
    consistent [compare] its result is the stable insertion of the elements
    from left to right. *)
Fixpoint insertSorted (compare : Z -> Z -> Z) (x : Z) (sorted : list Z) : list Z :=
  match sorted with
  | [] => [x]
  | y :: rest =>
      if (compare x y <? 0)%Z then x :: sorted
      else y :: insertSorted compare x rest
  end.

Definition Array_sort (compare : Z -> Z -> Z) (arr : list Z) : list Z :=
  fold_left (fun sorted x => insertSorted compare x sorted) arr [].

Module PDFEditor.
Section Files.
(** The file object and the text annotations are carried along. *)
Variables File TextAnnotation : Type.

Record PDFFile : Type := mkPDFFile {
  file : File;
  id : JSString;
  pageCount : Z;
  selectedPages : list Z;
  textAnnotations : option (list TextAnnotation)
}.

(** [{ ...f, selectedPages }]. *)
Definition withSelectedPages (f : PDFFile) (pages : list Z) : PDFFile :=
  mkPDFFile (file f) (id f) (pageCount f) pages (textAnnotations f).

(** [arr.includes(pageNum)]. *)
Definition includes (arr : list Z) (pageNum : Z) : bool :=
  existsb (fun p => (p =? pageNum)%Z) arr.

Definition togglePageSelection (pdfFiles : list PDFFile) (fileId : JSString)
    (pageNum : Z) : list PDFFile :=
  map (fun f =>
         if str_eqb (id f) fileId then
           let selected := includes (selectedPages f) pageNum in
           withSelectedPages f
             (if selected
              then filter (fun p => negb (p =? pageNum)%Z) (selectedPages f)
              else Array_sort (fun a b => (a - b)%Z) (selectedPages f ++ [pageNum]))
         else f)
      pdfFiles.

(** [Array.from({ length: pageCount }, (_, i) => i + 1)]. *)
Definition allPages (pageCount : Z) : list Z :=
  map (fun i => (Z.of_nat i + 1)%Z) (seq 0 (Z.to_nat pageCount)).

Definition selectAllPages (pdfFiles : list PDFFile) (fileId : JSString)
  : list PDFFile :=
  map (fun f =>
         if str_eqb (id f) fileId then withSelectedPages f (allPages (pageCount f))
         else f)
      pdfFiles.

Definition clearSelection (pdfFiles : list PDFFile) (fileId : JSString)
  : list PDFFile :=
  map (fun f => if str_eqb (id f) fileId then withSelectedPages f [] else f)
      pdfFiles.

(** The selections are in ascending order, without a page twice. *)
Definition ascending (pages : list Z) : Prop := StronglySorted Z.lt pages.

Definition selectionsAscending (pdfFiles : list PDFFile) : Prop :=
  Forall (fun f => ascending (selectedPages f)) pdfFiles.
End Files.
End PDFEditor.

(** ** The fields of the form builder *)

(** Positions and sizes are whole numbers of pixels, on which the
    arithmetic of JavaScript numbers is exact. *)
Module FormBuilder.

Inductive FieldType : Type :=
  | Text | Checkbox | Textarea | Radio | Dropdown | Signature | Label | Ul | Ol.

Record FormField : Type := mkFormField {
  id : JSString;
  type : FieldType;
  label : JSString;
  x : Z;
  y : Z;
  width : Z;
  height : Z;
  options : option (list JSString)
}.

Definition pageWidth : Z := 595.
Definition pageHeight : Z := 842.
Definition padding : Z := 40.
Definition spacing : Z := 16.
Definition maxAttempts : Z := 50.

(** The width, the height and the label a new field starts with. *)
Definition initialSize (type : FieldType) : Z * Z * JSString :=
  match type with
  | Checkbox => (24, 24, lit "Checkbox")
  | Radio => (24, 24, lit "Radio Button")
  | Textarea => (200, 80, lit "Text Area")
  | Signature => (160, 64, lit "Signature")
  | Dropdown => (200, 30, lit "Dropdown")
  | Label => (150, 32, lit "Double click to edit text")
  | Ul => (200, 100, lit "Bullet List")
  | Ol => (200, 100, lit "Numbered List")
  | Text => (200, 30, lit "New Field")
  end%Z.

Definition initialOptions (type : FieldType) : option (list JSString) :=
  match type with
  | Dropdown | Ul | Ol => Some [lit "Option 1"; lit "Option 2"; lit "Option 3"]
  | _ => None
  end.

(** The [forEach] of [addField]: [(maxBottom, rightmostRight)]. *)
Definition extent (fields : list FormField) : Z * Z :=
  fold_left
    (fun acc field =>
       let '(maxBottom, rightmostRight) := acc in
       let bottom := (y field + height field)%Z in
       let right := (x field + width field)%Z in
       (if (maxBottom <? bottom)%Z then bottom else maxBottom,
        if (rightmostRight <? right)%Z then right else rightmostRight))
    fields (0, 0)%Z.

(** [overlapX && overlapY] of the search. *)
Definition overlaps (newX newY width height : Z) (field : FormField) : bool :=
  let overlapX :=
    negb ((newX + width + spacing <=? x field)%Z
          || (x field + FormBuilder.width field + spacing <=? newX)%Z) in
  let overlapY :=
    negb ((newY + height + spacing <=? y field)%Z
          || (y field + FormBuilder.height field + spacing <=? newY)%Z) in
  overlapX && overlapY.

(** The [for ... of] with its [break]. *)
Definition hasOverlap (fields : list FormField) (width height : Z)
    (position : Z * Z) : bool :=
  existsb (overlaps (fst position) (snd position) width height) fields.

(** The step of the search to the next position: to the right, then to the
    start of the next row, then back to the top. *)
Definition nextPosition (width height : Z) (position : Z * Z) : Z * Z :=
  let '(newX, newY) := position in
  let newX := (newX + (width + spacing))%Z in
  if (pageWidth - padding <? newX + width)%Z then
    let newX := padding in
    let newY := (newY + (height + spacing))%Z in
    if (pageHeight - padding <? newY + height)%Z then (newX, padding)
    else (newX, newY)
  else (newX, newY).

(** The state of the search: [(newX, newY)], [foundPosition], [attempts]. *)
Definition search : Type := ((Z * Z) * bool * Z)%type.

Definition search_cond (st : search) : bool :=
  let '(_, foundPosition, attempts) := st in
  negb foundPosition && (attempts <? maxAttempts)%Z.

Definition search_body (fields : list FormField) (width height : Z) (st : search)
  : option (ctl search) :=
  let '(position, foundPosition, attempts) := st in
  let '(newX, newY) := position in
  if negb (hasOverlap fields width height position)
     && (newX + width <=? pageWidth - padding)%Z
     && (newY + height <=? pageHeight - padding)%Z
  then Some (Next (position, true, (attempts + 1)%Z))
  else Some (Next (nextPosition width height position, foundPosition, (attempts + 1)%Z)).

(** The position [(newX, newY)] of the new field. *)
Definition newPosition (fields : list FormField) (width height : Z) : option (Z * Z) :=
  if (0 <? length fields)%nat then
    let '(maxBottom, rightmostRight) := extent fields in
    let newY := (maxBottom + spacing)%Z in
    if (pageHeight - padding <? newY + height)%Z then
      let newX := (rightmostRight + spacing)%Z in
      let newY := padding in
      if (pageWidth - padding <? newX + width)%Z then
        match while (Z.to_nat maxAttempts) search_cond (search_body fields width height)
                    ((padding, padding), false, 0%Z) with
        | Some (position, _, _) => Some position
        | None => None
        end
      else Some (newX, newY)
    else Some (padding, newY)
  else Some (padding, padding).

(** [fieldId] is the [`field_${Date.now()}`] of the call. *)
Definition addField (fields : list FormField) (type : FieldType) (fieldId : JSString)
  : option (list FormField) :=
  let '(width, height, label) := initialSize type in
  match newPosition fields width height with
  | Some (newX, newY) =>
      Some (fields ++ [mkFormField fieldId type label newX newY width height
                                   (initialOptions type)])
  | None => None
  end.

Definition updateFieldPosition (fields : list FormField) (id : JSString) (x y : Z)
  : list FormField :=
  map (fun f => if str_eqb (FormBuilder.id f) id
                then mkFormField (FormBuilder.id f) (type f) (label f) x y
                                 (width f) (height f) (options f)
                else f) fields.

Definition updateFieldLabel (fields : list FormField) (id : JSString) (label : JSString)
  : list FormField :=
  map (fun f => if str_eqb (FormBuilder.id f) id
                then mkFormField (FormBuilder.id f) (type f) label (x f) (y f)
                                 (width f) (height f) (options f)
                else f) fields.

Definition updateFieldOptions (fields : list FormField) (id : JSString)
    (options : list JSString) : list FormField :=
  map (fun f => if str_eqb (FormBuilder.id f) id
                then mkFormField (FormBuilder.id f) (type f) (label f) (x f) (y f)
                                 (width f) (height f) (Some options)
                else f) fields.

Definition removeField (fields : list FormField) (id : JSString) : list FormField :=
  filter (fun f => negb (str_eqb (FormBuilder.id f) id)) fields.

(** The [onResize] of the field items. *)
Definition onResize (fields : list FormField) (id : JSString) (width height : Z)
  : list FormField :=
  map (fun f => if str_eqb (FormBuilder.id f) id
                then mkFormField (FormBuilder.id f) (type f) (label f) (x f) (y f)
                                 width height (options f)
                else f) fields.

(** [handleMouseMove] of a resize that started at the field's size:
    the pair handed to [onResize]. *)
Definition resized (field : FormField) (deltaX deltaY : Z) : Z * Z :=
  let newWidth := Z.max 20 (width field + deltaX) in
  let newHeight := Z.max 20 (height field + deltaY) in
  match type field with
  | Checkbox | Radio =>
      let maxDim := Z.max newWidth newHeight in (maxDim, maxDim)
  | _ => (newWidth, newHeight)
  end.

Definition handleMouseMove (fields : list FormField) (field : FormField)
    (deltaX deltaY : Z) : list FormField :=
  let '(newWidth, newHeight) := resized field deltaX deltaY in
  onResize fields (id field) newWidth newHeight.

(** The [k]th position the search looks at. *)
Definition scanned (width height : Z) (k : nat) : Z * Z :=
  Nat.iter k (nextPosition width height) (padding, padding).

(** A field of this size at this position lies within the right and the
    bottom margin of the page. *)
Definition withinMargins (width height : Z) (position : Z * Z) : Prop :=
  (fst position + width <= pageWidth - padding)%Z /\
  (snd position + height <= pageHeight - padding)%Z.

(** The first [k] positions of the search are taken. *)
Definition takenBefore (fields : list FormField) (width height : Z) (k : nat) : Prop :=
  forall j, (j < k)%nat -> hasOverlap fields width height (scanned width height j) = true.

Definition search_inv (fields : list FormField) (width height : Z) (st : search) : Prop :=
  let '(position, foundPosition, attempts) := st in
  (0 <= attempts <= maxAttempts)%Z /\
  (padding <= fst position)%Z /\ (padding <= snd position)%Z /\
  withinMargins width height position /\
  if foundPosition
  then exists k, (Z.of_nat k + 1 = attempts)%Z /\ position = scanned width height k /\
                 hasOverlap fields width height position = false /\
                 takenBefore fields width height k
  else position = scanned width height (Z.to_nat attempts) /\
       takenBefore fields width height (Z.to_nat attempts).

Definition search_post (fields : list FormField) (width height : Z) (st : search) : Prop :=
  let '(position, foundPosition, attempts) := st in
  (padding <= fst position)%Z /\ (padding <= snd position)%Z /\
  withinMargins width height position /\
  exists k, (k <= Z.to_nat maxAttempts)%nat /\ position = scanned width height k /\
            takenBefore fields width height k /\
            ((k < Z.to_nat maxAttempts)%nat ->
             hasOverlap fields width height position = false).

End FormBuilder.

(** * Strings and arrays: basic facts *)

Lemma str_eqb_eq (a b : JSString) : str_eqb a b = true <-> a = b.
Proof.
  revert b; induction a as [|x a IH]; intros [|y b]; simpl; try easy.
  rewrite andb_true_iff, N.eqb_eq, IH. split.
  - intros [-> ->]; reflexivity.
  - intros H; injection H; auto.
Qed.

Lemma str_eqb_refl (a : JSString) : str_eqb a a = true.
Proof. apply str_eqb_eq; reflexivity. Qed.

Lemma str_eqb_neq (a b : JSString) : str_eqb a b = false <-> a <> b.
Proof.
  rewrite <- str_eqb_eq. destruct (str_eqb a b); split; congruence.
Qed.

Lemma split_nonempty (text : JSString) (sep : N) : split text sep <> [].
Proof.
  destruct text as [|c rest]; simpl; [discriminate|].
  destruct (N.eqb c sep); [discriminate|].
  destruct (split rest sep); discriminate.
Qed.

Lemma length_split_pos (text : JSString) (sep : N) : 1 <= length (split text sep).
Proof.
  pose proof (split_nonempty text sep) as H.
  destruct (split text sep); [congruence | simpl; lia].
Qed.

Lemma join_cons_cons (l : JSString) (c : N) (rest : list JSString) (sep : JSString) :
  rest <> [] -> join ((c :: l) :: rest) sep = c :: join (l :: rest) sep.
Proof. destruct rest; [congruence | reflexivity]. Qed.

Lemma join_split (text : JSString) (sep : N) : join (split text sep) [sep] = text.
Proof.
  induction text as [|c rest IH]; simpl; [reflexivity|].
  destruct (N.eqb c sep) eqn:E.
  - apply N.eqb_eq in E; subst c.
    pose proof (split_nonempty rest sep) as Hne.
    destruct (split rest sep) as [|p ps] eqn:Es; [congruence|].
    simpl in *. now rewrite IH.
  - pose proof (split_nonempty rest sep) as Hne.
    destruct (split rest sep) as [|p ps] eqn:Es; [congruence|].
    destruct ps as [|q qs]; simpl in *; now rewrite IH.
Qed.

Lemma firstn_succ_nth {A : Type} (l : list A) (i : nat) (d : A) :
  i < length l -> firstn (i + 1) l = firstn i l ++ [nth i l d].
Proof.
  revert i; induction l as [|x l IH]; intros i H; simpl in H; [lia|].
  destruct i as [|i]; simpl; [reflexivity|].
  rewrite IH by lia. reflexivity.
Qed.

Lemma skipn_nth_cons {A : Type} (l : list A) (i : nat) (d : A) :
  i < length l -> skipn i l = nth i l d :: skipn (i + 1) l.
Proof.
  revert i; induction l as [|x l IH]; intros i H; simpl in H; [lia|].
  destruct i as [|i]; simpl; [reflexivity|].
  apply IH; lia.
Qed.

(** [indexOf] returns -1 exactly when the element does not occur, and
    otherwise the position of its first occurrence. *)
Section IndexOf.
Context {A : Type} (eqb : A -> A -> bool).
Hypothesis eqb_eq : forall a b, eqb a b = true <-> a = b.

Lemma indexOf_range (arr : list A) (x : A) :
  (indexOf eqb arr x = -1 \/ 0 <= indexOf eqb arr x < Z.of_nat (length arr))%Z.
Proof.
  induction arr as [|y rest IH]; simpl; [left; reflexivity|].
  destruct (eqb y x); [right; lia|].
  destruct (indexOf eqb rest x <? 0)%Z eqn:E; [left; reflexivity|].
  apply Z.ltb_ge in E. right. lia.
Qed.

Lemma indexOf_absent (arr : list A) (x : A) :
  (indexOf eqb arr x < 0)%Z <-> ~ In x arr.
Proof.
  induction arr as [|y rest IH]; simpl.
  - split; [tauto | lia].
  - destruct (eqb y x) eqn:E.
    + apply eqb_eq in E. split; [lia | tauto].
    + assert (y <> x) by (intros ->; rewrite (proj2 (eqb_eq x x) eq_refl) in E; discriminate).
      destruct (indexOf eqb rest x <? 0)%Z eqn:E'.
      * apply Z.ltb_lt in E'. split; [|lia]. intros _. rewrite IH in E'. tauto.
      * apply Z.ltb_ge in E'. split; [lia|]. intros Hn. exfalso.
        assert (~ In x rest) as Hr by tauto. apply IH in Hr. lia.
Qed.

Lemma indexOf_first (arr : list A) (x : A) (d : nat) :
  indexOf eqb arr x = Z.of_nat d <->
  nth_error arr d = Some x /\ forall k, k < d -> nth_error arr k <> Some x.
Proof.
  revert d; induction arr as [|y rest IH]; intros d; simpl.
  - split; [lia|]. intros [H _]. destruct d; discriminate.
  - destruct (eqb y x) eqn:E.
    + apply eqb_eq in E; subst y. split.
      * intros H. assert (d = 0) by lia. subst d. split; [reflexivity | intros; lia].
      * intros [H1 H2]. destruct d as [|d]; [reflexivity|].
        exfalso. apply (H2 0); [lia | reflexivity].
    + assert (y <> x) as Hne
          by (intros ->; rewrite (proj2 (eqb_eq x x) eq_refl) in E; discriminate).
      destruct (indexOf eqb rest x <? 0)%Z eqn:E'.
      * apply Z.ltb_lt in E'. split; [lia|]. intros [H1 H2].
        destruct d as [|d]; simpl in H1; [congruence|].
        apply indexOf_absent in E'. apply nth_error_In in H1. tauto.
      * apply Z.ltb_ge in E'. destruct d as [|d].
        -- split; [lia|]. simpl. intros [H1 _]. congruence.
        -- simpl nth_error. split.
           ++ intros H. assert (indexOf eqb rest x = Z.of_nat d)%Z as Hd by lia.
              apply IH in Hd. destruct Hd as [H1 H2]. split; [assumption|].
              intros [|k] Hk; simpl; [congruence | apply H2; lia].
           ++ intros [H1 H2].
              assert (indexOf eqb rest x = Z.of_nat d)%Z as Hd.
              { apply IH. split; [assumption|]. intros k Hk.
                apply (H2 (S k)). lia. }
              lia.
Qed.
End IndexOf.

(** * Loops: fuel and the invariant rule *)

(** Case analysis on a test [a <=? b], as a fact of [nat]. *)
Tactic Notation "leb_cases" constr(a) constr(b) ident(H) :=
  destruct (a <=? b) eqn:H; [apply Nat.leb_le in H | apply Nat.leb_gt in H].

Section WhileRules.
Context {S : Type} (cond : S -> bool) (body : S -> option (ctl S)).

(** More fuel does not change a result. *)
Lemma while_fuel_mono (fuel : nat) :
  forall s r, while fuel cond body s = Some r ->
  forall fuel', fuel <= fuel' -> while fuel' cond body s = Some r.
Proof.
  induction fuel as [|fuel IH]; intros s r H fuel' Hle.
  - simpl in H. destruct (cond s) eqn:Ec; [discriminate|].
    destruct fuel'; simpl; rewrite Ec; assumption.
  - destruct fuel' as [|fuel']; [lia|].
    simpl in *. destruct (cond s); [|assumption].
    destruct (body s) as [[s'|s']|]; try assumption.
    apply IH; [assumption | lia].
Qed.

(** Total correctness: an invariant kept by the iterations that go on, a
    measure that they decrease, and a postcondition that holds when the
    condition fails or the body breaks. *)
Section Total.
Variables (Inv Post : S -> Prop) (mu : S -> nat).
Hypothesis Hexit : forall s, Inv s -> cond s = false -> Post s.
Hypothesis Hstep : forall s, Inv s -> cond s = true ->
  match body s with
  | Some (Next s') => Inv s' /\ mu s' < mu s
  | Some (Break s') => Post s' /\ 0 < mu s
  | None => False
  end.

Lemma while_total (fuel : nat) :
  forall s, Inv s -> mu s <= fuel ->
  exists r, while fuel cond body s = Some r /\ Post r.
Proof.
  induction fuel as [|fuel IH]; intros s Hi Hm.
  - simpl. destruct (cond s) eqn:Ec.
    + specialize (Hstep Hi Ec). destruct (body s) as [[s'|s']|]; try tauto; lia.
    + eauto.
  - simpl. destruct (cond s) eqn:Ec; [|eauto].
    specialize (Hstep Hi Ec). destruct (body s) as [[s'|s']|]; try tauto.
    + destruct Hstep as [Hi' Hm']. apply IH; [assumption | lia].
    + destruct Hstep; eauto.
Qed.
End Total.
End WhileRules.

Lemma while_cond_false {S : Type} (cond : S -> bool) (body : S -> option (ctl S))
    (fuel : nat) (s : S) :
  cond s = false -> while fuel cond body s = Some s.
Proof. intros H. destruct fuel; simpl; now rewrite H. Qed.

Lemma while_S {S : Type} (cond : S -> bool) (body : S -> option (ctl S))
    (fuel : nat) (s : S) :
  while (Datatypes.S fuel) cond body s
  = if cond s then
      match body s with
      | Some (Next s') => while fuel cond body s'
      | Some (Break s') => Some s'
      | None => None
      end
    else Some s.
Proof. reflexivity. Qed.

Lemma while_step {S : Type} (cond : S -> bool) (f : S -> S) (fuel : nat) (s : S) :
  cond s = true ->
  while (Datatypes.S fuel) cond (fun s => Some (Next (f s))) s
  = while fuel cond (fun s => Some (Next (f s))) (f s).
Proof. intros H. simpl. now rewrite H. Qed.

(** * computeDiff *)

Lemma firstSide_app (a b : list DiffSegment) :
  firstSide (a ++ b) = firstSide a ++ firstSide b.
Proof. unfold firstSide. now rewrite filter_app, map_app. Qed.

Lemma secondSide_app (a b : list DiffSegment) :
  secondSide (a ++ b) = secondSide a ++ secondSide b.
Proof. unfold secondSide. now rewrite filter_app, map_app. Qed.

Section ComputeDiffLoop.
Variables lines1 lines2 : list JSString.

Let cond := computeDiff_cond lines1 lines2.
Let body := fun st : state => Some (Next (computeDiff_body lines1 lines2 st)).

Lemma computeDiff_body_sides (st : state) :
  sides_inv lines1 lines2 st -> cond st = true ->
  sides_inv lines1 lines2 (computeDiff_body lines1 lines2 st)
  /\ remaining lines1 lines2 (computeDiff_body lines1 lines2 st)
     < remaining lines1 lines2 st.
Proof.
  destruct st as [[i j] segments]. unfold cond, computeDiff_cond, sides_inv, remaining.
  intros (Hi & Hj & H1 & H2) Hc. unfold computeDiff_body.
  leb_cases (length lines1) i E1.
  { assert (j < length lines2) as Hj'.
    { apply orb_true_iff in Hc. destruct Hc as [Hc|Hc]; apply Nat.ltb_lt in Hc; lia. }
    rewrite firstSide_app, secondSide_app, H1, H2.
    rewrite (firstn_succ_nth lines2 [] Hj'). simpl.
    rewrite app_nil_r. repeat split; try lia; reflexivity. }
  leb_cases (length lines2) j E2.
  { rewrite firstSide_app, secondSide_app, H1, H2.
    rewrite (firstn_succ_nth lines1 [] E1). simpl.
    rewrite app_nil_r. repeat split; try lia; reflexivity. }
  destruct (str_eqb (nth i lines1 []) (nth j lines2 [])) eqn:E3.
  { apply str_eqb_eq in E3.
    rewrite firstSide_app, secondSide_app, H1, H2.
    rewrite (firstn_succ_nth lines1 [] E1), (firstn_succ_nth lines2 [] E2).
    simpl. rewrite E3. repeat split; try lia; reflexivity. }
  destruct (resolve _ _);
    rewrite ?firstSide_app, ?secondSide_app, H1, H2;
    rewrite ?(firstn_succ_nth lines1 [] E1), ?(firstn_succ_nth lines2 [] E2);
    simpl; rewrite ?app_nil_r; repeat split; try lia; reflexivity.
Qed.

Lemma computeDiff_loop_sides :
  exists segments,
    while (length lines1 + length lines2) cond body (0, 0, [])
    = Some (length lines1, length lines2, segments)
    /\ firstSide segments = lines1 /\ secondSide segments = lines2.
Proof.
  destruct (while_total cond body (sides_inv lines1 lines2)
              (fun st => sides_inv lines1 lines2 st /\ cond st = false)
              (remaining lines1 lines2))
    with (fuel := length lines1 + length lines2) (s := ((0, 0, []) : state))
    as (r & Hr & Hinv & Hc).
  - auto.
  - intros s Hi Hc. unfold body. now apply computeDiff_body_sides.
  - unfold sides_inv. simpl. repeat split; lia.
  - simpl. lia.
  - destruct r as [[i j] segments]. unfold cond, computeDiff_cond in Hc.
    apply orb_false_iff in Hc. destruct Hc as [Hc1 Hc2].
    apply Nat.ltb_ge in Hc1, Hc2. destruct Hinv as (Hi & Hj & H1 & H2).
    assert (i = length lines1) by lia. assert (j = length lines2) by lia. subst i j.
    exists segments. rewrite firstn_all in H1, H2. auto.
Qed.
End ComputeDiffLoop.

Lemma diffLines_sides (lines1 lines2 : list JSString) :
  exists segments,
    diffLines lines1 lines2 = Some segments
    /\ firstSide segments = lines1 /\ secondSide segments = lines2.
Proof.
  destruct (computeDiff_loop_sides lines1 lines2) as (segments & Hw & H1 & H2).
  exists segments. unfold diffLines. rewrite Hw. auto.
Qed.

(** * computeInlineDiff *)

Lemma commonPrefix_le_l (a b : JSString) : commonPrefix a b <= length a.
Proof.
  revert b; induction a as [|x a IH]; intros [|y b]; simpl; try lia.
  destruct (N.eqb x y); [specialize (IH b)|]; lia.
Qed.

Lemma commonPrefix_le_r (a b : JSString) : commonPrefix a b <= length b.
Proof.
  revert b; induction a as [|x a IH]; intros [|y b]; simpl; try lia.
  destruct (N.eqb x y); [specialize (IH b)|]; lia.
Qed.

Lemma commonPrefix_firstn (a b : JSString) :
  firstn (commonPrefix a b) a = firstn (commonPrefix a b) b.
Proof.
  revert b; induction a as [|x a IH]; intros [|y b]; simpl; try reflexivity.
  destruct (N.eqb x y) eqn:E; [|reflexivity].
  apply N.eqb_eq in E. subst y. simpl. now rewrite IH.
Qed.

Lemma firstn_plus {A : Type} (l : list A) (i k : nat) :
  firstn (i + k) l = firstn i l ++ firstn k (skipn i l).
Proof.
  revert l; induction i as [|i IH]; intros l; simpl; [reflexivity|].
  destruct l as [|x l]; simpl; [now rewrite firstn_nil | now rewrite IH].
Qed.

Lemma skipn_plus {A : Type} (l : list A) (i k : nat) :
  skipn (i + k) l = skipn k (skipn i l).
Proof.
  revert l; induction i as [|i IH]; intros l; simpl; [reflexivity|].
  destruct l as [|x l]; simpl; [now rewrite skipn_nil | now rewrite IH].
Qed.

Section InlineLoop.
Variables text1 text2 : JSString.

Lemma commonRun_from (i j fuel : nat) :
  forall commonLen, length text1 - (i + commonLen) <= fuel ->
  while fuel
    (fun commonLen =>
       (i + commonLen <? length text1)
       && (j + commonLen <? length text2)
       && N.eqb (nth (i + commonLen) text1 0%N) (nth (j + commonLen) text2 0%N))
    (fun commonLen => Some (Next (commonLen + 1)))
    commonLen
  = Some (commonLen
          + commonPrefix (skipn (i + commonLen) text1) (skipn (j + commonLen) text2)).
Proof.
  induction fuel as [|fuel IH]; intros c Hf.
  - simpl. assert (length text1 <= i + c) as Hle by lia.
    rewrite (proj2 (Nat.ltb_ge _ _) Hle). simpl.
    rewrite (skipn_all2 text1 Hle). simpl. f_equal. lia.
  - simpl.
    destruct (i + c <? length text1) eqn:E1;
      [apply Nat.ltb_lt in E1 | apply Nat.ltb_ge in E1]; simpl.
    2:{ rewrite (skipn_all2 text1 E1). simpl. f_equal. lia. }
    destruct (j + c <? length text2) eqn:E2;
      [apply Nat.ltb_lt in E2 | apply Nat.ltb_ge in E2]; simpl.
    2:{ rewrite (skipn_all2 text2 E2).
        destruct (skipn (i + c) text1); simpl; f_equal; lia. }
    rewrite (skipn_nth_cons text1 0%N E1), (skipn_nth_cons text2 0%N E2). simpl.
    destruct (N.eqb (nth (i + c) text1 0%N) (nth (j + c) text2 0%N)).
    + rewrite IH by lia.
      replace (i + (c + 1)) with (i + c + 1) by lia.
      replace (j + (c + 1)) with (j + c + 1) by lia.
      f_equal. lia.
    + f_equal. lia.
Qed.

Lemma commonRun_spec (i j : nat) :
  commonRun text1 text2 i j
  = Some (commonPrefix (skipn i text1) (skipn j text2)).
Proof.
  unfold commonRun. rewrite (commonRun_from i j (fuel := length text1) 0) by lia.
  now rewrite !Nat.add_0_r.
Qed.

Let cond := computeInlineDiff_cond text1 text2.
Let body := computeInlineDiff_body text1 text2.

Lemma commonPrefix_pos (i j : nat) :
  i < length text1 -> j < length text2 ->
  N.eqb (nth i text1 0%N) (nth j text2 0%N) = true ->
  0 < commonPrefix (skipn i text1) (skipn j text2).
Proof.
  intros Hi Hj E.
  rewrite (skipn_nth_cons text1 0%N Hi), (skipn_nth_cons text2 0%N Hj).
  simpl. rewrite E. lia.
Qed.

Lemma computeInlineDiff_body_spell (st : state) :
  spell_inv text1 text2 st -> cond st = true ->
  match body st with
  | Some (Next st') =>
      spell_inv text1 text2 st'
      /\ remainingInline text1 text2 st' < remainingInline text1 text2 st
  | Some (Break st') => spell_post text1 text2 st' /\ 0 < remainingInline text1 text2 st
  | None => False
  end.
Proof.
  destruct st as [[i j] segments].
  unfold cond, body, computeInlineDiff_cond, spell_inv, spell_post, remainingInline.
  intros (Hi & Hj & H1 & H2) Hc. unfold computeInlineDiff_body.
  leb_cases (length text1) i E1.
  { assert (j < length text2) as Hj'.
    { apply orb_true_iff in Hc. destruct Hc as [Hc|Hc]; apply Nat.ltb_lt in Hc; lia. }
    rewrite firstSide_app, secondSide_app, !concat_app, H1, H2. simpl.
    rewrite !app_nil_r, firstn_skipn, firstn_all2 by lia. repeat split; lia. }
  leb_cases (length text2) j E2.
  { rewrite firstSide_app, secondSide_app, !concat_app, H1, H2. simpl.
    rewrite !app_nil_r, firstn_skipn, firstn_all2 by lia. repeat split; lia. }
  destruct (N.eqb (nth i text1 0%N) (nth j text2 0%N)) eqn:E3.
  { rewrite commonRun_spec.
    pose proof (commonPrefix_pos E1 E2 E3) as Hpos.
    pose proof (commonPrefix_le_l (skipn i text1) (skipn j text2)) as Hl.
    pose proof (commonPrefix_le_r (skipn i text1) (skipn j text2)) as Hr.
    pose proof (commonPrefix_firstn (skipn i text1) (skipn j text2)) as Hf.
    rewrite length_skipn in Hl, Hr.
    set (k := commonPrefix (skipn i text1) (skipn j text2)) in *.
    rewrite (proj2 (Nat.ltb_lt 0 k)) by lia.
    rewrite firstSide_app, secondSide_app, !concat_app, H1, H2. simpl.
    unfold slice. replace (i + k - i) with k by lia.
    rewrite !app_nil_r, !firstn_plus, Hf. repeat split; lia. }
  destruct (resolveInline _ _ _ _);
    rewrite ?firstSide_app, ?secondSide_app, ?concat_app, H1, H2; simpl;
    rewrite ?app_nil_r;
    rewrite ?(firstn_succ_nth text1 0%N E1), ?(firstn_succ_nth text2 0%N E2);
    repeat split; lia.
Qed.

Lemma computeInlineDiff_loop_spell :
  exists st,
    while (length text1 + length text2) cond body (0, 0, []) = Some st
    /\ spell_post text1 text2 st.
Proof.
  apply (while_total cond body (spell_inv text1 text2) (spell_post text1 text2)
           (remainingInline text1 text2)).
  - intros [[i j] segments] (Hi & Hj & H1 & H2) Hc.
    unfold cond, computeInlineDiff_cond in Hc.
    apply orb_false_iff in Hc. destruct Hc as [Hc1 Hc2].
    apply Nat.ltb_ge in Hc1, Hc2. unfold spell_post.
    rewrite firstn_all2 in H1, H2 by lia. auto.
  - apply computeInlineDiff_body_spell.
  - unfold spell_inv. simpl. repeat split; lia.
  - simpl. lia.
Qed.
End InlineLoop.

Lemma computeInlineDiff_spell (text1 text2 : JSString) :
  exists segments,
    computeInlineDiff text1 text2 = Some segments
    /\ concat (firstSide segments) = text1 /\ concat (secondSide segments) = text2.
Proof.
  destruct (computeInlineDiff_loop_spell text1 text2) as ([[i j] segments] & Hw & H1 & H2).
  exists segments. unfold computeInlineDiff. rewrite Hw. auto.
Qed.

(** Equal arrays of lines: every iteration takes the branch of identical
    lines. *)
Lemma diffLines_same (lines : list JSString) :
  diffLines lines lines = Some (map (mkSegment unchanged) lines).
Proof.
  destruct (while_total (computeDiff_cond lines lines)
              (fun st => Some (Next (computeDiff_body lines lines st)))
              (fun st : state => let '(i, j, segments) := st in
                 i = j /\ i <= length lines
                 /\ segments = map (mkSegment unchanged) (firstn i lines))
              (fun st : state => let '(i, j, segments) := st in
                 segments = map (mkSegment unchanged) lines)
              (remaining lines lines))
    with (fuel := length lines + length lines) (s := ((0, 0, []) : state))
    as ([[i j] segments] & Hw & Hp).
  - intros [[i j] segments] (-> & Hi & ->) Hc. unfold computeDiff_cond in Hc.
    apply orb_false_iff in Hc. destruct Hc as [Hc _]. apply Nat.ltb_ge in Hc.
    now rewrite firstn_all2 by lia.
  - intros [[i j] segments] (-> & Hi & ->) Hc. unfold computeDiff_cond in Hc.
    apply orb_true_iff in Hc.
    assert (j < length lines) as Hj by (destruct Hc as [Hc|Hc]; now apply Nat.ltb_lt in Hc).
    unfold computeDiff_body, remaining.
    rewrite (proj2 (Nat.leb_gt _ _) Hj), str_eqb_refl.
    rewrite (firstn_succ_nth lines [] Hj), map_app. simpl.
    repeat split; lia.
  - simpl. repeat split; lia.
  - simpl. lia.
  - unfold diffLines. now rewrite Hw, Hp.
Qed.

(** ** The three-way test at a pair of different lines *)

Lemma firstAt_In {A : Type} (x : A) (l : list A) (d : nat) : firstAt x l d -> In x l.
Proof. intros [H _]. eapply nth_error_In; eauto. Qed.

Lemma firstAt_unique {A : Type} (x : A) (l : list A) (d d' : nat) :
  firstAt x l d -> firstAt x l d' -> d = d'.
Proof.
  intros [H1 H2] [H1' H2'].
  destruct (Nat.lt_trichotomy d d') as [H|[H|H]]; [|assumption|].
  - exfalso. now apply (H2' d).
  - exfalso. now apply (H2 d').
Qed.

Lemma indexOf_lines_cases (arr : list JSString) (x : JSString) :
  (indexOf str_eqb arr x = -1 /\ ~ In x arr)%Z
  \/ exists d, indexOf str_eqb arr x = Z.of_nat d /\ firstAt x arr d.
Proof.
  destruct (indexOf_range str_eqb arr x) as [H|H].
  - left. split; [assumption|]. apply (indexOf_absent str_eqb str_eqb_eq). lia.
  - right. exists (Z.to_nat (indexOf str_eqb arr x)).
    assert (indexOf str_eqb arr x = Z.of_nat (Z.to_nat (indexOf str_eqb arr x))) as E by lia.
    split; [exact E|]. now apply (indexOf_first str_eqb str_eqb_eq).
Qed.

Lemma resolve_Deletion (n1 n2 : Z) :
  resolve n1 n2 = Deletion <-> (0 <= n1 /\ (n2 < 0 \/ n1 < n2))%Z.
Proof.
  unfold resolve.
  destruct (0 <=? n1)%Z eqn:A1; destruct (n2 <? 0)%Z eqn:A2;
    destruct (n1 <? n2)%Z eqn:A3; destruct (0 <=? n2)%Z eqn:A4;
    destruct (n1 <? 0)%Z eqn:A5; destruct (n2 <? n1)%Z eqn:A6; simpl;
    rewrite ?Z.leb_le, ?Z.leb_gt, ?Z.ltb_lt, ?Z.ltb_ge in *;
    split; intros; try discriminate; try reflexivity; lia.
Qed.

Lemma resolve_Insertion (n1 n2 : Z) :
  resolve n1 n2 = Insertion <-> (0 <= n2 /\ (n1 < 0 \/ n2 < n1))%Z.
Proof.
  unfold resolve.
  destruct (0 <=? n1)%Z eqn:A1; destruct (n2 <? 0)%Z eqn:A2;
    destruct (n1 <? n2)%Z eqn:A3; destruct (0 <=? n2)%Z eqn:A4;
    destruct (n1 <? 0)%Z eqn:A5; destruct (n2 <? n1)%Z eqn:A6; simpl;
    rewrite ?Z.leb_le, ?Z.leb_gt, ?Z.ltb_lt, ?Z.ltb_ge in *;
    split; intros; try discriminate; try reflexivity; lia.
Qed.

Lemma resolve_Substitution (n1 n2 : Z) :
  resolve n1 n2 = Substitution <-> ((n1 < 0 /\ n2 < 0) \/ (0 <= n1 /\ n1 = n2))%Z.
Proof.
  unfold resolve.
  destruct (0 <=? n1)%Z eqn:A1; destruct (n2 <? 0)%Z eqn:A2;
    destruct (n1 <? n2)%Z eqn:A3; destruct (0 <=? n2)%Z eqn:A4;
    destruct (n1 <? 0)%Z eqn:A5; destruct (n2 <? n1)%Z eqn:A6; simpl;
    rewrite ?Z.leb_le, ?Z.leb_gt, ?Z.ltb_lt, ?Z.ltb_ge in *;
    split; intros; try discriminate; try reflexivity; lia.
Qed.

(** At a pair of different lines the body does what [resolve] says. *)
Lemma computeDiff_body_mismatch (lines1 lines2 : list JSString) (i j : nat)
    (segments : list DiffSegment) :
  i < length lines1 -> j < length lines2 ->
  nth i lines1 [] <> nth j lines2 [] ->
  computeDiff_body lines1 lines2 (i, j, segments)
  = match resolve (nextMatchInText1 lines1 lines2 i j)
                  (nextMatchInText2 lines1 lines2 i j) with
    | Deletion => (i + 1, j, segments ++ [mkSegment removed (nth i lines1 [])])
    | Insertion => (i, j + 1, segments ++ [mkSegment added (nth j lines2 [])])
    | Substitution =>
        (i + 1, j + 1,
         segments ++ [mkSegment removed (nth i lines1 []);
                      mkSegment added (nth j lines2 [])])
    end.
Proof.
  intros Hi Hj Hne. unfold computeDiff_body.
  rewrite (proj2 (Nat.leb_gt _ _) Hi), (proj2 (Nat.leb_gt _ _) Hj).
  rewrite (proj2 (str_eqb_neq _ _) Hne).
  destruct (resolve _ _); try reflexivity.
  now rewrite <- app_assoc.
Qed.

(** * computeInlineDiff against the uncoalesced diff *)

Lemma length_chars (text : JSString) : length (chars text) = length text.
Proof. apply length_map. Qed.

Lemma nth_chars (text : JSString) (i : nat) :
  i < length text -> nth i (chars text) [] = [nth i text 0%N].
Proof.
  intros H. unfold chars.
  rewrite (nth_indep _ [] [0%N]) by (rewrite length_map; exact H).
  apply (map_nth (fun c => [c])).
Qed.

Lemma skipn_chars (text : JSString) (k : nat) :
  skipn k (chars text) = chars (skipn k text).
Proof. apply skipn_map. Qed.

Lemma indexOf_chars (text : JSString) (c : N) :
  indexOf str_eqb (chars text) [c] = indexOf N.eqb text c.
Proof.
  induction text as [|y rest IH]; simpl; [reflexivity|].
  rewrite andb_true_r, IH. reflexivity.
Qed.

(** The test of computeInlineDiff on absolute positions is the test of
    computeDiff on offsets. *)
Lemma resolveInline_resolve (n1 n2 : Z) (i j : nat) :
  (n1 = -1 \/ 0 <= n1)%Z -> (n2 = -1 \/ 0 <= n2)%Z ->
  resolveInline (if (n1 <? 0)%Z then (-1)%Z else (Z.of_nat (i + 1) + n1)%Z)
                (if (n2 <? 0)%Z then (-1)%Z else (Z.of_nat (j + 1) + n2)%Z) i j
  = resolve n1 n2.
Proof.
  intros H1 H2. unfold resolveInline, resolve.
  destruct (Z.ltb_spec n1 0); destruct (Z.ltb_spec n2 0);
    repeat match goal with
      | |- context [(?a <=? ?b)%Z] => destruct (Z.leb_spec a b)
      | |- context [(?a <? ?b)%Z] => destruct (Z.ltb_spec a b)
      end; simpl; try reflexivity; lia.
Qed.

Lemma merge_unchanged_changed (s : DiffSegment) (rest : list DiffSegment) :
  type s <> unchanged -> merge_unchanged (s :: rest) = s :: merge_unchanged rest.
Proof. intros H. simpl. destruct (type s); congruence. Qed.

Lemma merge_unchanged_resolution (r : resolution) (a b : JSString)
    (rest : list DiffSegment) :
  merge_unchanged (resolutionSegments r a b ++ rest)
  = resolutionSegments r a b ++ merge_unchanged rest.
Proof. destruct r; reflexivity. Qed.

Lemma startsChanged_merge (segments : list DiffSegment) :
  startsChanged segments -> startsChanged (merge_unchanged segments).
Proof.
  destruct segments as [|s rest]; simpl; [trivial|].
  intros H. destruct (type s) eqn:E; simpl; congruence.
Qed.

Lemma merge_unchanged_run (x : N) (run : JSString) (rest : list DiffSegment) :
  startsChanged rest ->
  merge_unchanged (singles unchanged (x :: run) ++ rest)
  = mkSegment unchanged (x :: run) :: merge_unchanged rest.
Proof.
  intros H. revert x. induction run as [|y run IH]; intros x.
  - simpl. pose proof (startsChanged_merge rest H) as Hm.
    destruct (merge_unchanged rest) as [|[ty t] rest']; [reflexivity|].
    simpl in Hm. destruct ty; congruence.
  - change (singles unchanged (x :: y :: run) ++ rest)
      with (mkSegment unchanged [x] :: (singles unchanged (y :: run) ++ rest)).
    cbn [merge_unchanged type text]. rewrite IH. reflexivity.
Qed.

Lemma commonPrefix_maximal (a b : JSString) :
  let k := commonPrefix a b in
  k < length a -> k < length b -> nth k a 0%N <> nth k b 0%N.
Proof.
  revert b; induction a as [|x a IH]; intros [|y b]; simpl; try lia.
  destruct (N.eqb x y) eqn:E.
  - intros Ha Hb. apply IH; lia.
  - intros _ _. now apply N.eqb_neq.
Qed.

Section Refinement.
Variables text1 text2 : JSString.

Let L1 := chars text1.
Let L2 := chars text2.
Let bodyU := fun st : state => Some (Next (computeDiff_body L1 L2 st)).
Let condI := computeInlineDiff_cond text1 text2.
Let bodyI := computeInlineDiff_body text1 text2.

(** One iteration of the uncoalesced loop on equal characters. *)
Lemma uncoalesced_body_equal (i j : nat) (acc : list DiffSegment) :
  i < length text1 -> j < length text2 ->
  N.eqb (nth i text1 0%N) (nth j text2 0%N) = true ->
  computeDiff_body L1 L2 (i, j, acc)
  = (i + 1, j + 1, acc ++ [mkSegment unchanged [nth i text1 0%N]]).
Proof.
  intros Hi Hj E. unfold computeDiff_body, L1, L2.
  rewrite !length_chars, !nth_chars by assumption.
  rewrite (proj2 (Nat.leb_gt _ _) Hi), (proj2 (Nat.leb_gt _ _) Hj).
  simpl. rewrite E. reflexivity.
Qed.

(** One iteration of the uncoalesced loop on different characters. *)
Lemma uncoalesced_body_differ (i j : nat) (acc : list DiffSegment) :
  i < length text1 -> j < length text2 ->
  N.eqb (nth i text1 0%N) (nth j text2 0%N) = false ->
  computeDiff_body L1 L2 (i, j, acc)
  = (fst (resolutionCursors (charResolution text1 text2 i j) i j),
     snd (resolutionCursors (charResolution text1 text2 i j) i j),
     acc ++ resolutionSegments (charResolution text1 text2 i j)
              [nth i text1 0%N] [nth j text2 0%N]).
Proof.
  intros Hi Hj E. unfold computeDiff_body, L1, L2.
  unfold nextMatchInText1, nextMatchInText2.
  rewrite !length_chars, !nth_chars by assumption.
  rewrite (proj2 (Nat.leb_gt _ _) Hi), (proj2 (Nat.leb_gt _ _) Hj).
  rewrite !skipn_chars, !indexOf_chars.
  simpl str_eqb. rewrite E. simpl andb. cbv iota.
  unfold charResolution. destruct (resolve _ _); simpl; try reflexivity.
  now rewrite <- app_assoc.
Qed.

(** One iteration of computeInlineDiff on different characters. *)
Lemma inline_body_differ (i j : nat) (acc : list DiffSegment) :
  i < length text1 -> j < length text2 ->
  N.eqb (nth i text1 0%N) (nth j text2 0%N) = false ->
  bodyI (i, j, acc)
  = Some (Next (fst (resolutionCursors (charResolution text1 text2 i j) i j),
                snd (resolutionCursors (charResolution text1 text2 i j) i j),
                acc ++ resolutionSegments (charResolution text1 text2 i j)
                         [nth i text1 0%N] [nth j text2 0%N])).
Proof.
  intros Hi Hj E. unfold bodyI, computeInlineDiff_body.
  rewrite (proj2 (Nat.leb_gt _ _) Hi), (proj2 (Nat.leb_gt _ _) Hj), E.
  unfold String_indexOf.
  rewrite resolveInline_resolve.
  - unfold charResolution. destruct (resolve _ _); simpl; try reflexivity.
    now rewrite <- app_assoc.
  - destruct (indexOf_range N.eqb (skipn (i + 1) text1) (nth j text2 0%N)); lia.
  - destruct (indexOf_range N.eqb (skipn (j + 1) text2) (nth i text1 0%N)); lia.
Qed.

(** One iteration of computeInlineDiff on equal characters takes the whole
    common run. *)
Lemma inline_body_equal (i j : nat) (acc : list DiffSegment) :
  i < length text1 -> j < length text2 ->
  N.eqb (nth i text1 0%N) (nth j text2 0%N) = true ->
  let k := commonPrefix (skipn i text1) (skipn j text2) in
  bodyI (i, j, acc)
  = Some (Next (i + k, j + k,
                acc ++ [mkSegment unchanged (firstn k (skipn i text1))])).
Proof.
  intros Hi Hj E k. unfold bodyI, computeInlineDiff_body.
  rewrite (proj2 (Nat.leb_gt _ _) Hi), (proj2 (Nat.leb_gt _ _) Hj), E.
  rewrite commonRun_spec. fold k.
  pose proof (commonPrefix_pos text1 text2 Hi Hj E) as Hpos. fold k in Hpos.
  rewrite (proj2 (Nat.ltb_lt 0 k) Hpos). unfold slice.
  replace (i + k - i) with k by lia. reflexivity.
Qed.

Section Cond.
(** A loop condition that holds at least while both inputs have
    characters left. *)
Variable cond : state -> bool.
Hypothesis cond_both : forall i j acc,
  i < length text1 -> j < length text2 -> cond (i, j, acc) = true.

(** The uncoalesced loop walks a common run one character at a time. *)
Lemma uncoalesced_run (k : nat) :
  forall i j acc fuel,
  k <= commonPrefix (skipn i text1) (skipn j text2) ->
  while (k + fuel) cond bodyU (i, j, acc)
  = while fuel cond bodyU
      (i + k, j + k, acc ++ singles unchanged (firstn k (skipn i text1))).
Proof.
  induction k as [|k IH]; intros i j acc fuel Hk.
  - simpl. now rewrite !Nat.add_0_r, app_nil_r.
  - destruct (le_lt_dec (length text1) i) as [Hi|Hi].
    { rewrite (skipn_all2 text1 Hi) in Hk. simpl in Hk. lia. }
    destruct (le_lt_dec (length text2) j) as [Hj|Hj].
    { rewrite (skipn_all2 text2 Hj) in Hk.
      destruct (skipn i text1); simpl in Hk; lia. }
    rewrite (skipn_nth_cons text1 0%N Hi), (skipn_nth_cons text2 0%N Hj) in Hk.
    simpl in Hk.
    destruct (N.eqb (nth i text1 0%N) (nth j text2 0%N)) eqn:E; [|lia].
    change (S k + fuel) with (S (k + fuel)). unfold bodyU.
    rewrite while_step by (apply cond_both; assumption).
    rewrite uncoalesced_body_equal by assumption.
    fold bodyU. rewrite IH by lia.
    rewrite (skipn_nth_cons text1 0%N Hi). simpl.
    rewrite <- app_assoc. simpl.
    replace (i + 1 + k) with (i + S k) by lia.
    replace (j + 1 + k) with (j + S k) by lia.
    reflexivity.
Qed.
End Cond.

(** Once the first input is exhausted, the uncoalesced loop adds the
    characters left in the second, one segment each. *)
Lemma uncoalesced_tail_added (fuel : nat) :
  forall j acc, length text2 - j <= fuel -> j <= length text2 ->
  while fuel (computeDiff_cond L1 L2) bodyU (length text1, j, acc)
  = Some (length text1, length text2, acc ++ singles added (skipn j text2)).
Proof.
  induction fuel as [|fuel IH]; intros j acc Hf Hj.
  - assert (j = length text2) by lia. subst j.
    rewrite while_cond_false.
    + rewrite skipn_all. simpl. now rewrite app_nil_r.
    + unfold computeDiff_cond, L1, L2. rewrite !length_chars.
      rewrite !Nat.ltb_irrefl. reflexivity.
  - destruct (Nat.eq_dec j (length text2)) as [->|Hne].
    + rewrite while_cond_false.
      * rewrite skipn_all. simpl. now rewrite app_nil_r.
      * unfold computeDiff_cond, L1, L2. rewrite !length_chars.
        rewrite !Nat.ltb_irrefl. reflexivity.
    + assert (j < length text2) as Hlt by lia.
      unfold bodyU. rewrite while_step.
      2:{ unfold computeDiff_cond, L1, L2. rewrite !length_chars.
          rewrite (proj2 (Nat.ltb_lt _ _) Hlt). apply orb_true_r. }
      fold bodyU.
      assert (computeDiff_body L1 L2 (length text1, j, acc)
              = (length text1, j + 1, acc ++ [mkSegment added [nth j text2 0%N]])) as ->.
      { unfold computeDiff_body, L1, L2. rewrite !length_chars, Nat.leb_refl.
        now rewrite nth_chars by assumption. }
      rewrite IH by lia. rewrite (skipn_nth_cons text2 0%N Hlt). simpl.
      now rewrite <- app_assoc.
Qed.

(** Once the second input is exhausted and the first is not, the uncoalesced
    loop removes the characters left in the first, one segment each. *)
Lemma uncoalesced_tail_removed (fuel : nat) :
  forall i acc, length text1 - i <= fuel -> i <= length text1 ->
  while fuel (computeDiff_cond L1 L2) bodyU (i, length text2, acc)
  = Some (length text1, length text2, acc ++ singles removed (skipn i text1)).
Proof.
  induction fuel as [|fuel IH]; intros i acc Hf Hi.
  - assert (i = length text1) by lia. subst i.
    rewrite while_cond_false.
    + rewrite skipn_all. simpl. now rewrite app_nil_r.
    + unfold computeDiff_cond, L1, L2. rewrite !length_chars.
      rewrite !Nat.ltb_irrefl. reflexivity.
  - destruct (Nat.eq_dec i (length text1)) as [->|Hne].
    + rewrite while_cond_false.
      * rewrite skipn_all. simpl. now rewrite app_nil_r.
      * unfold computeDiff_cond, L1, L2. rewrite !length_chars.
        rewrite !Nat.ltb_irrefl. reflexivity.
    + assert (i < length text1) as Hlt by lia.
      unfold bodyU. rewrite while_step.
      2:{ unfold computeDiff_cond, L1, L2. rewrite !length_chars.
          now rewrite (proj2 (Nat.ltb_lt _ _) Hlt). }
      fold bodyU.
      assert (computeDiff_body L1 L2 (i, length text2, acc)
              = (i + 1, length text2, acc ++ [mkSegment removed [nth i text1 0%N]])) as ->.
      { unfold computeDiff_body, L1, L2. rewrite !length_chars.
        rewrite (proj2 (Nat.leb_gt _ _) Hlt), Nat.leb_refl.
        now rewrite nth_chars by assumption. }
      rewrite IH by lia. rewrite (skipn_nth_cons text1 0%N Hlt). simpl.
      now rewrite <- app_assoc.
Qed.
Lemma bothLeft_both (i j : nat) (acc : list DiffSegment) :
  i < length text1 -> j < length text2 -> bothLeft L1 L2 (i, j, acc) = true.
Proof.
  intros Hi Hj. unfold bothLeft, L1, L2. rewrite !length_chars.
  now rewrite (proj2 (Nat.ltb_lt _ _) Hi), (proj2 (Nat.ltb_lt _ _) Hj).
Qed.

Lemma computeDiff_cond_both (i j : nat) (acc : list DiffSegment) :
  i < length text1 -> j < length text2 -> computeDiff_cond L1 L2 (i, j, acc) = true.
Proof.
  intros Hi Hj. unfold computeDiff_cond, L1, L2. rewrite !length_chars.
  now rewrite (proj2 (Nat.ltb_lt _ _) Hi).
Qed.

Lemma condI_both (i j : nat) (acc : list DiffSegment) :
  i < length text1 \/ j < length text2 -> condI (i, j, acc) = true.
Proof.
  intros H. unfold condI, computeInlineDiff_cond. apply orb_true_iff.
  destruct H as [H|H]; [left | right]; now apply Nat.ltb_lt.
Qed.

(** From every pair of cursors, the three loops agree: the uncoalesced loop
    stopped at exhaustion pushes [segsU] and reaches [(i', j')]; the whole
    uncoalesced loop goes on with one segment for each character left; and
    computeInlineDiff pushes [segsU] with its unchanged runs merged, and
    then what is left as one segment. *)
Lemma loops_agree (n : nat) :
  forall i j, i <= length text1 -> j <= length text2 ->
  (length text1 - i) + (length text2 - j) <= n ->
  exists i' j' segsU,
    (i' = length text1 \/ j' = length text2)
    /\ i' <= length text1 /\ j' <= length text2
    /\ (forall acc fuel, n <= fuel ->
        while fuel (bothLeft L1 L2) bodyU (i, j, acc) = Some (i', j', acc ++ segsU))
    /\ (forall acc fuel, n <= fuel ->
        while fuel (computeDiff_cond L1 L2) bodyU (i, j, acc)
        = Some (length text1, length text2,
                acc ++ segsU ++ singles removed (skipn i' text1)
                    ++ singles added (skipn j' text2)))
    /\ (forall acc fuel, n <= fuel ->
        exists i'' j'',
          while fuel condI bodyI (i, j, acc)
          = Some (i'', j'',
                  acc ++ merge_unchanged segsU
                      ++ remainder removed (skipn i' text1)
                      ++ remainder added (skipn j' text2)))
    /\ (~ (i < length text1 /\ j < length text2
           /\ N.eqb (nth i text1 0%N) (nth j text2 0%N) = true)
        -> startsChanged segsU).
Proof.
  induction n as [n IH] using lt_wf_ind. intros i j Hi Hj Hm.
  destruct (le_lt_dec (length text1) i) as [Hi1|Hi1].
  { (* the first input is exhausted *)
    assert (i = length text1) by lia. subst i.
    exists (length text1), j, []. repeat split; try lia; auto.
    - intros acc fuel Hf. rewrite while_cond_false; [now rewrite app_nil_r|].
      unfold bothLeft, L1. rewrite length_chars, Nat.ltb_irrefl. reflexivity.
    - intros acc fuel Hf. rewrite uncoalesced_tail_added by lia.
      rewrite skipn_all. reflexivity.
    - intros acc fuel Hf. rewrite skipn_all. simpl.
      destruct (Nat.eq_dec j (length text2)) as [->|Hne].
      + exists (length text1), (length text2). rewrite while_cond_false.
        * rewrite skipn_all. simpl. now rewrite app_nil_r.
        * unfold condI, computeInlineDiff_cond. now rewrite !Nat.ltb_irrefl.
      + assert (j < length text2) as Hlt by lia.
        exists (length text1), j.
        destruct fuel as [|fuel]; [lia|].
        rewrite while_S, condI_both by (right; assumption).
        unfold bodyI, computeInlineDiff_body. rewrite Nat.leb_refl.
        rewrite (skipn_nth_cons text2 0%N Hlt). reflexivity. }
  destruct (le_lt_dec (length text2) j) as [Hj1|Hj1].
  { (* the second input is exhausted, the first is not *)
    assert (j = length text2) by lia. subst j.
    exists i, (length text2), []. repeat split; try lia; auto.
    - intros acc fuel Hf. rewrite while_cond_false; [now rewrite app_nil_r|].
      unfold bothLeft, L2. rewrite length_chars, Nat.ltb_irrefl. apply andb_false_r.
    - intros acc fuel Hf. rewrite uncoalesced_tail_removed by lia.
      rewrite skipn_all. simpl. now rewrite app_nil_r.
    - intros acc fuel Hf. rewrite skipn_all. simpl.
      exists i, (length text2).
      destruct fuel as [|fuel]; [lia|].
      rewrite while_S, condI_both by (left; assumption).
      unfold bodyI, computeInlineDiff_body.
      rewrite (proj2 (Nat.leb_gt _ _) Hi1), Nat.leb_refl.
      rewrite (skipn_nth_cons text1 0%N Hi1). reflexivity. }
  destruct (N.eqb (nth i text1 0%N) (nth j text2 0%N)) eqn:E.
  { (* a common run *)
    pose proof (commonPrefix_pos text1 text2 Hi1 Hj1 E) as Hpos.
    pose proof (commonPrefix_le_l (skipn i text1) (skipn j text2)) as Hl.
    pose proof (commonPrefix_le_r (skipn i text1) (skipn j text2)) as Hr.
    pose proof (commonPrefix_maximal (skipn i text1) (skipn j text2)) as Hmax.
    cbv zeta in Hmax. rewrite !length_skipn in Hl, Hr, Hmax.
    set (k := commonPrefix (skipn i text1) (skipn j text2)) in *.
    destruct (IH (n - 2 * k)) with (i := i + k) (j := j + k)
      as (i' & j' & segsU & Hend & Hi' & Hj' & HA & HE & HC & HD); try lia.
    assert (startsChanged segsU) as Hsc.
    { apply HD. intros (H1 & H2 & H3). apply N.eqb_eq in H3.
      apply Hmax; rewrite ?length_skipn, ?nth_skipn; [lia | lia | exact H3]. }
    assert (firstn k (skipn i text1) <> []) as Hrun.
    { rewrite (skipn_nth_cons text1 0%N Hi1).
      destruct k; [lia | discriminate]. }
    exists i', j', (singles unchanged (firstn k (skipn i text1)) ++ segsU).
    repeat split; try assumption.
    - intros acc fuel Hf. replace fuel with (k + (fuel - k)) by lia.
      rewrite (uncoalesced_run (bothLeft L1 L2) bothLeft_both) by lia.
      rewrite HA by lia. now rewrite <- app_assoc.
    - intros acc fuel Hf. replace fuel with (k + (fuel - k)) by lia.
      rewrite (uncoalesced_run (computeDiff_cond L1 L2) computeDiff_cond_both) by lia.
      rewrite HE by lia. now rewrite <- !app_assoc.
    - intros acc fuel Hf. destruct fuel as [|fuel]; [lia|].
      rewrite while_S, condI_both by (left; assumption).
      rewrite (inline_body_equal acc Hi1 Hj1 E). fold k.
      destruct (HC (acc ++ [mkSegment unchanged (firstn k (skipn i text1))]) fuel)
        as (i'' & j'' & Hw); [lia|].
      exists i'', j''. rewrite Hw. f_equal. f_equal.
      rewrite <- app_assoc. f_equal.
      destruct (firstn k (skipn i text1)) as [|x run]; [congruence|].
      rewrite merge_unchanged_run by assumption. reflexivity.
    - intros Hn. exfalso. apply Hn. auto. }
  (* different characters *)
  pose proof (uncoalesced_body_differ) as HbU.
  pose proof (inline_body_differ) as HbI.
  set (r := charResolution text1 text2 i j) in *.
  assert (r = charResolution text1 text2 i j) as Hr by reflexivity.
  destruct (IH (n - 1)) with (i := fst (resolutionCursors r i j))
                                (j := snd (resolutionCursors r i j))
    as (i' & j' & segsU & Hend & Hi' & Hj' & HA & HE & HC & HD);
    try (destruct r; simpl; lia).
  exists i', j',
    (resolutionSegments r [nth i text1 0%N] [nth j text2 0%N] ++ segsU).
  repeat split; try assumption.
  - intros acc fuel Hf. destruct fuel as [|fuel]; [lia|].
    unfold bodyU. rewrite while_step by (apply bothLeft_both; assumption).
    fold bodyU. rewrite (HbU i j acc Hi1 Hj1 E). fold r.
    rewrite HA by lia. now rewrite <- app_assoc.
  - intros acc fuel Hf. destruct fuel as [|fuel]; [lia|].
    unfold bodyU. rewrite while_step by (apply computeDiff_cond_both; assumption).
    fold bodyU. rewrite (HbU i j acc Hi1 Hj1 E). fold r.
    rewrite HE by lia. now rewrite <- !app_assoc.
  - intros acc fuel Hf. destruct fuel as [|fuel]; [lia|].
    rewrite while_S, condI_both by (left; assumption).
    rewrite (HbI i j acc Hi1 Hj1 E). fold r.
    destruct (HC (acc ++ resolutionSegments r [nth i text1 0%N] [nth j text2 0%N]) fuel)
      as (i'' & j'' & Hw); [lia|].
    exists i'', j''. rewrite Hw. f_equal. f_equal.
    rewrite merge_unchanged_resolution. now rewrite <- !app_assoc.
  - intros _. destruct r; simpl; discriminate.
Qed.
End Refinement.

Lemma merge_unchanged_app (a b : list DiffSegment) :
  startsChanged b ->
  merge_unchanged (a ++ b) = merge_unchanged a ++ merge_unchanged b.
Proof.
  intros Hb. induction a as [|s a IH]; [reflexivity|].
  simpl. rewrite IH. pose proof (startsChanged_merge b Hb) as Hm.
  destruct (type s); try reflexivity.
  destruct (merge_unchanged a) as [|[ty t] rest]; simpl.
  - destruct (merge_unchanged b) as [|[ty t] rest]; [reflexivity|].
    simpl in Hm. destruct ty; congruence.
  - destruct ty; reflexivity.
Qed.

Lemma merge_unchanged_singles (ty : SegmentType) (rest : JSString) :
  ty <> unchanged -> merge_unchanged (singles ty rest) = singles ty rest.
Proof.
  intros H. induction rest as [|c rest IH]; [reflexivity|].
  change (singles ty (c :: rest)) with (mkSegment ty [c] :: singles ty rest).
  rewrite merge_unchanged_changed by exact H. now rewrite IH.
Qed.

Lemma startsChanged_singles (ty : SegmentType) (rest : JSString) :
  ty <> unchanged -> startsChanged (singles ty rest).
Proof. intros H. destruct rest; simpl; auto. Qed.

Lemma startsChanged_app (a b : list DiffSegment) :
  startsChanged a -> startsChanged b -> startsChanged (a ++ b).
Proof. destruct a; simpl; auto. Qed.

(** * Numbers: the similarity stays between 0 and 1 *)

Lemma bpow_pos (e : Z) : (0 < powerRZ 2 e)%R.
Proof. apply powerRZ_lt. lra. Qed.

Lemma bpow_add (a b : Z) : powerRZ 2 (a + b) = (powerRZ 2 a * powerRZ 2 b)%R.
Proof. apply powerRZ_add. lra. Qed.

Lemma bpow_succ (e : Z) : powerRZ 2 (e + 1) = (2 * powerRZ 2 e)%R.
Proof. rewrite bpow_add. simpl. lra. Qed.

Lemma bpow_IZR (n : Z) : (0 <= n)%Z -> powerRZ 2 n = IZR (2 ^ n).
Proof.
  intros H. rewrite <- (Z2Nat.id n H) at 1.
  rewrite <- pow_powerRZ, pow_IZR. now rewrite Z2Nat.id.
Qed.

Lemma bpow_ge_1 (n : Z) : (0 <= n)%Z -> (1 <= powerRZ 2 n)%R.
Proof.
  intros H. rewrite bpow_IZR by assumption. apply IZR_le.
  pose proof (Z.pow_pos_nonneg 2 n). lia.
Qed.

Lemma bpow_le (a b : Z) : (a <= b)%Z -> (powerRZ 2 a <= powerRZ 2 b)%R.
Proof.
  intros H. replace b with (a + (b - a))%Z by lia. rewrite bpow_add.
  pose proof (bpow_pos a). pose proof (@bpow_ge_1 (b - a) ltac:(lia)). nra.
Qed.

Lemma bpow_lt (a b : Z) : (a < b)%Z -> (powerRZ 2 a < powerRZ 2 b)%R.
Proof.
  intros H. replace b with (a + 1 + (b - a - 1))%Z by lia.
  rewrite bpow_add, bpow_succ.
  pose proof (bpow_pos a). pose proof (@bpow_ge_1 (b - a - 1) ltac:(lia)). nra.
Qed.

Lemma bpow_le_inv (a b : Z) : (powerRZ 2 a <= powerRZ 2 b)%R -> (a <= b)%Z.
Proof.
  intros H. destruct (Z_le_gt_dec a b) as [|Hgt]; [assumption|].
  pose proof (@bpow_lt b a ltac:(lia)). lra.
Qed.

(** The number of binary digits of a positive mantissa. *)
Lemma digits2_pos_bounds (p : positive) :
  (2 ^ (Zpos (digits2_pos p) - 1) <= Zpos p < 2 ^ Zpos (digits2_pos p))%Z.
Proof.
  induction p as [p IH|p IH|]; simpl digits2_pos.
  - rewrite Pos2Z.inj_succ.
    replace (Z.succ (Zpos (digits2_pos p)) - 1)%Z with (Zpos (digits2_pos p) - 1 + 1)%Z by lia.
    rewrite Z.pow_succ_r by lia. rewrite Z.pow_add_r by lia. lia.
  - rewrite Pos2Z.inj_succ.
    replace (Z.succ (Zpos (digits2_pos p)) - 1)%Z with (Zpos (digits2_pos p) - 1 + 1)%Z by lia.
    rewrite Z.pow_succ_r by lia. rewrite Z.pow_add_r by lia. lia.
  - simpl. lia.
Qed.

Lemma F2R_mul_pow (m e k : Z) : (0 <= k)%Z -> F2R (m * 2 ^ k) e = F2R m (e + k).
Proof.
  intros H. unfold F2R. rewrite mult_IZR, <- bpow_IZR by assumption.
  rewrite bpow_add. ring.
Qed.

(** A mantissa of [d] digits at exponent [e] is at least [2^(d - 1 + e)]. *)
Lemma digits_le_of_value (m : Z) (e K : Z) :
  (0 < m)%Z -> (F2R m e <= powerRZ 2 K)%R -> (Zdigits2 m + e <= K + 1)%Z.
Proof.
  intros Hm H. destruct m as [|p|p]; try lia. simpl Zdigits2.
  pose proof (digits2_pos_bounds p) as [Hd _].
  assert (powerRZ 2 (Zpos (digits2_pos p) - 1 + e) <= powerRZ 2 K)%R as Hle.
  { rewrite bpow_add. rewrite bpow_IZR by lia.
    apply IZR_le in Hd. unfold F2R in H. pose proof (bpow_pos e). nra. }
  apply bpow_le_inv in Hle. lia.
Qed.

Lemma shr_1_below (x : R) (mrs : shr_record) (e : Z) :
  below x mrs e -> below x (shr_1 mrs) (e + 1).
Proof.
  destruct mrs as [m r s]. unfold below, F2R. simpl shr_m. simpl shr_r. simpl shr_s.
  intros (Hm & Hle & Hlt). pose proof (bpow_pos e) as Hp.
  destruct m as [|[p|p|]|p]; try lia; simpl shr_m; simpl shr_r; simpl shr_s;
    rewrite bpow_succ.
  - repeat split; try lia; [nra|].
    intros H. rewrite orb_false_l in H. specialize (Hlt H). nra.
  - rewrite Pos2Z.inj_xI, plus_IZR, mult_IZR in Hle, Hlt.
    repeat split; try lia; intros; nra.
  - rewrite Pos2Z.inj_xO, mult_IZR in Hle, Hlt.
    repeat split; try lia; [nra|].
    intros H. rewrite orb_false_l in H. specialize (Hlt H). nra.
  - repeat split; try lia; intros; nra.
Qed.

Lemma iter_pos_shr_1_below (n : positive) :
  forall (x : R) (mrs : shr_record) (e : Z),
  below x mrs e -> below x (SpecFloat.iter_pos shr_1 n mrs) (e + Zpos n).
Proof.
  induction n as [n IH|n IH|]; intros x mrs e H; simpl SpecFloat.iter_pos.
  - replace (e + Zpos n~1)%Z with (e + 1 + Zpos n + Zpos n)%Z by lia.
    apply IH, IH, shr_1_below, H.
  - replace (e + Zpos n~0)%Z with (e + Zpos n + Zpos n)%Z by lia.
    apply IH, IH, H.
  - apply shr_1_below, H.
Qed.

Lemma shr_fexp_below (x : R) (m e : Z) (l : location) :
  below x (shr_record_of_loc m l) e ->
  below x (fst (shr_fexp prec emax m e l)) (snd (shr_fexp prec emax m e l))
  /\ snd (shr_fexp prec emax m e l) = Z.max e (fexp prec emax (Zdigits2 m + e)).
Proof.
  intros H. unfold shr_fexp, shr.
  destruct (fexp prec emax (Zdigits2 m + e) - e)%Z as [|p|p] eqn:E; simpl fst; simpl snd.
  - split; [assumption | lia].
  - split; [now apply iter_pos_shr_1_below | lia].
  - split; [assumption | lia].
Qed.

Lemma shr_m_of_loc (m : Z) (l : location) : shr_m (shr_record_of_loc m l) = m.
Proof. destruct l as [|[| |]]; reflexivity. Qed.

Lemma round_nearest_even_cases (mrs : shr_record) :
  round_nearest_even (shr_m mrs) (loc_of_shr_record mrs) = shr_m mrs
  \/ (round_nearest_even (shr_m mrs) (loc_of_shr_record mrs) = (shr_m mrs + 1)%Z
      /\ shr_r mrs = true).
Proof.
  destruct mrs as [m [|] [|]]; simpl; auto.
  destruct (Z.even m); auto.
Qed.

Lemma fexp_le (t be : Z) :
  (t - 53 <= be)%Z -> (-1074 <= be)%Z -> (fexp prec emax t <= be)%Z.
Proof. unfold fexp, emin, prec, emax. lia. Qed.

(** The exponent that [shr_fexp] chooses for a mantissa whose value is at
    most [2^K]. *)
Lemma fexp_digits_le (m e K be : Z) :
  (0 <= m)%Z -> (F2R m e <= powerRZ 2 K)%R ->
  (e <= be)%Z -> (K - 52 <= be)%Z -> (-1074 <= be)%Z ->
  (fexp prec emax (Zdigits2 m + e) <= be)%Z.
Proof.
  intros Hm H He HK Hb. apply fexp_le; [|assumption].
  destruct (Z.eq_dec m 0) as [->|Hne]; [simpl; lia|].
  pose proof (@digits_le_of_value m e K ltac:(lia) H). lia.
Qed.

(** Rounding does not go above a bound that the format holds: if the exact
    value [x] is at most [bm * 2^be], so is the double that
    [binary_round_aux] returns, and its exponent is at most [be]. *)
Lemma binary_round_aux_le (mx ex : Z) (lx : location) (x : R) (bm be K : Z) :
  below x (shr_record_of_loc mx lx) ex ->
  (x <= F2R bm be)%R -> (F2R bm be <= powerRZ 2 K)%R ->
  (ex <= be)%Z -> (K - 52 <= be)%Z -> (-1074 <= be)%Z -> (be <= 971)%Z ->
  binary_round_aux prec emax false mx ex lx = S754_zero false
  \/ exists m e,
       binary_round_aux prec emax false mx ex lx = S754_finite false m e
       /\ (F2R (Zpos m) e <= F2R bm be)%R /\ (e <= be)%Z.
Proof.
  intros Hb Hx HK Hex HKb Hmin Hmax. unfold binary_round_aux.
  destruct (@shr_fexp_below _ _ _ _ Hb) as [Hb' He'].
  destruct (shr_fexp prec emax mx ex lx) as [mrs' e']. simpl fst in *. simpl snd in *.
  assert (e' <= be)%Z as He'b.
  { rewrite He'. apply Z.max_lub; [assumption|].
    destruct Hb as (H0 & H1 & _). rewrite shr_m_of_loc in H0, H1.
    apply (@fexp_digits_le mx ex K be); try assumption. lra. }
  set (mr := round_nearest_even (shr_m mrs') (loc_of_shr_record mrs')).
  assert ((0 <= mr)%Z /\ (F2R mr e' <= F2R bm be)%R) as [Hmr0 Hmr].
  { destruct Hb' as (H0 & H1 & H2).
    destruct (round_nearest_even_cases mrs') as [E|[E Hr]]; fold mr in E; rewrite E.
    - split; [assumption | lra].
    - split; [lia|]. rewrite Hr in H2. specialize (H2 eq_refl).
      replace be with (e' + (be - e'))%Z in Hx |- * by lia.
      rewrite <- F2R_mul_pow in Hx |- * by lia.
      unfold F2R in *. pose proof (bpow_pos e') as Hp.
      assert (IZR (shr_m mrs') < IZR (bm * 2 ^ (be - e')))%R as Hlt by nra.
      apply lt_IZR in Hlt.
      assert (IZR (shr_m mrs' + 1) <= IZR (bm * 2 ^ (be - e')))%R as Hle
          by (apply IZR_le; lia).
      nra. }
  assert (below (F2R mr e') (shr_record_of_loc mr loc_Exact) e') as Hb2.
  { unfold below. simpl. repeat split; [assumption | lra | discriminate]. }
  destruct (@shr_fexp_below _ _ _ _ Hb2) as [Hb'' He''].
  destruct (shr_fexp prec emax mr e' loc_Exact) as [mrs'' e''].
  simpl fst in *. simpl snd in *.
  assert (e'' <= be)%Z as He''b.
  { rewrite He''. apply Z.max_lub; [assumption|].
    apply (@fexp_digits_le mr e' K be); try assumption. lra. }
  destruct Hb'' as (H0 & H1 & _).
  destruct (shr_m mrs'') as [|m|m] eqn:Em; [left; reflexivity | right | lia].
  exists m, e''.
  replace (e'' <=? emax - prec)%Z with true
    by (symmetry; apply Z.leb_le; unfold emax, prec; lia).
  repeat split; [lra | assumption].
Qed.

Lemma Rdiv_le_one (a b : R) : (0 < b)%R -> (a <= b)%R -> (a / b <= 1)%R.
Proof.
  intros Hb H. assert (a / b * b = a)%R as E by (field; lra).
  apply (Rmult_le_reg_r b); [assumption|]. lra.
Qed.

Lemma Rle_div_mul (a b c : R) : (0 < c)%R -> (a * c <= b)%R -> (a <= b / c)%R.
Proof.
  intros Hc H. assert (b / c * c = b)%R as E by (field; lra).
  apply (Rmult_le_reg_r c); [assumption|]. lra.
Qed.

Lemma Rlt_div_mul (a b c : R) : (0 < c)%R -> (a * c < b)%R -> (a < b / c)%R.
Proof.
  intros Hc H. assert (b / c * c = b)%R as E by (field; lra).
  apply (Rmult_lt_reg_r c); [assumption|]. lra.
Qed.

Lemma new_location_cases (n k : Z) :
  (k = 0%Z /\ new_location n k = loc_Exact)
  \/ (k <> 0%Z /\ exists c, new_location n k = loc_Inexact c).
Proof.
  unfold new_location.
  destruct (Z.even n); unfold new_location_even, new_location_odd;
    destruct (Z.eqb_spec k 0) as [->|Hk]; eauto.
Qed.

Lemma below_of_loc (x : R) (m e : Z) (l : location) :
  (0 <= m)%Z -> (F2R m e <= x)%R -> (l <> loc_Exact -> (F2R m e < x)%R) ->
  below x (shr_record_of_loc m l) e.
Proof.
  intros H0 H1 H2. unfold below. rewrite shr_m_of_loc.
  repeat split; try assumption.
  destruct l as [|[| |]]; simpl; intros H; try discriminate; apply H2; discriminate.
Qed.

(** The quotient of two positive doubles, the first not above the second,
    is a double not above 1. *)
Lemma Number_div_le_1 (m1 m2 : positive) (e1 e2 : Z) :
  (F2R (Zpos m1) e1 <= F2R (Zpos m2) e2)%R ->
  Number_div (S754_finite false m1 e1) (S754_finite false m2 e2) = S754_zero false
  \/ exists m e,
       Number_div (S754_finite false m1 e1) (S754_finite false m2 e2)
       = S754_finite false m e
       /\ (F2R (Zpos m) e <= 1)%R /\ (e <= 0)%Z.
Proof.
  intros Hle. unfold Number_div, SFdiv, SFdiv_core_binary. simpl xorb.
  set (d1 := Zdigits2 (Zpos m1)). set (d2 := Zdigits2 (Zpos m2)).
  set (e' := Z.min (fexp prec emax (d1 + e1 - (d2 + e2))) (e1 - e2)).
  set (s := (e1 - e2 - e')%Z).
  assert (0 <= s)%Z as Hs by (unfold s, e'; lia).
  set (m' := match s with
             | Zpos _ => Z.shiftl (Zpos m1) s
             | Z0 => Zpos m1
             | Zneg _ => 0%Z
             end).
  assert (m' = Zpos m1 * 2 ^ s)%Z as Hm'.
  { unfold m'. destruct s as [|p|p] eqn:Es; [lia | | lia].
    now rewrite Z.shiftl_mul_pow2 by lia. }
  pose proof (Z_div_mod m' (Zpos m2) ltac:(lia)) as Hdiv.
  destruct (Z.div_eucl m' (Zpos m2)) as [q r]. destruct Hdiv as [Hqr Hr].
  assert (0 <= q)%Z as Hq by nia.
  (* the digits of the operands *)
  assert (d1 + e1 - (d2 + e2) <= 0)%Z as Hd.
  { pose proof (digits2_pos_bounds m1) as [Hd1 _].
    pose proof (digits2_pos_bounds m2) as [_ Hd2].
    apply IZR_le in Hd1. apply IZR_lt in Hd2.
    rewrite <- bpow_IZR in Hd1, Hd2 by lia.
    assert (powerRZ 2 (Zpos (digits2_pos m1) - 1 + e1)
            < powerRZ 2 (Zpos (digits2_pos m2) + e2))%R as Hlt.
    { rewrite !bpow_add. unfold F2R in Hle.
      pose proof (bpow_pos e1). pose proof (bpow_pos e2). nra. }
    assert (Zpos (digits2_pos m1) - 1 + e1 < Zpos (digits2_pos m2) + e2)%Z.
    { destruct (Z_lt_ge_dec (Zpos (digits2_pos m1) - 1 + e1) (Zpos (digits2_pos m2) + e2));
        [assumption|].
      pose proof (@bpow_le (Zpos (digits2_pos m2) + e2) (Zpos (digits2_pos m1) - 1 + e1)
                    ltac:(lia)). lra. }
    unfold d1, d2. simpl Zdigits2. lia. }
  assert (e' <= 0)%Z as He'.
  { unfold e'. pose proof (@fexp_le (d1 + e1 - (d2 + e2)) 0 ltac:(lia) ltac:(lia)). lia. }
  (* the exact quotient, on the grid of [e'] *)
  set (x := (IZR m' * powerRZ 2 e' / IZR (Zpos m2))%R).
  assert (0 < IZR (Zpos m2))%R as Hm2 by (apply IZR_lt; lia).
  pose proof (bpow_pos e') as Hpe'.
  assert (x <= 1)%R as Hx1.
  { unfold x. apply Rdiv_le_one; [assumption|].
    unfold F2R in Hle. replace e1 with (s + e' + e2)%Z in Hle by (unfold s; lia).
    rewrite !bpow_add in Hle. rewrite Hm', mult_IZR, <- bpow_IZR by assumption.
    pose proof (bpow_pos e2). nra. }
  assert (F2R q e' <= x)%R as Hqx.
  { unfold x, F2R. apply Rle_div_mul; [assumption|].
    assert (IZR q * IZR (Zpos m2) <= IZR m')%R.
    { rewrite <- mult_IZR. apply IZR_le. lia. }
    nra. }
  assert (r <> 0%Z -> (F2R q e' < x)%R) as Hqx'.
  { intros Hr0. unfold x, F2R. apply Rlt_div_mul; [assumption|].
    assert (IZR q * IZR (Zpos m2) < IZR m')%R.
    { rewrite <- mult_IZR. apply IZR_lt. lia. }
    nra. }
  destruct (@binary_round_aux_le q e' (new_location (Zpos m2) r) x 1 0 0)
    as [H|(m & e & H & Hv & He)]; try lia.
  - apply below_of_loc; try assumption.
    intros Hl. apply Hqx'.
    destruct (new_location_cases (Zpos m2) r) as [[_ E]|[Hr0 _]]; [congruence | assumption].
  - unfold F2R. simpl. lra.
  - unfold F2R. simpl. lra.
  - left. exact H.
  - right. exists m, e. split; [exact H|]. split; [|assumption].
    unfold F2R in Hv |- *. simpl in Hv. lra.
Qed.

(** A double not above 1, times 100, is a double not above 100. *)
Lemma Number_mul_100_le (m : positive) (e : Z) :
  (F2R (Zpos m) e <= 1)%R -> (e <= 0)%Z ->
  Number_mul (S754_finite false m e) (Number_of_Z 100) = S754_zero false
  \/ exists m' e',
       Number_mul (S754_finite false m e) (Number_of_Z 100)
       = S754_finite false m' e'
       /\ (F2R (Zpos m') e' <= 100)%R /\ (e' <= 0)%Z.
Proof.
  intros Hv He. unfold Number_mul, Number_of_Z, SFmul. simpl xorb.
  assert (F2R (Zpos (m * 100)) (e + 0) = 100 * F2R (Zpos m) e)%R as Ex.
  { unfold F2R. rewrite Z.add_0_r, Pos2Z.inj_mul, mult_IZR. ring. }
  destruct (@binary_round_aux_le (Zpos (m * 100)) (e + 0) loc_Exact
              (F2R (Zpos (m * 100)) (e + 0)) 100 0 7)
    as [H|(m' & e' & H & Hv' & He')]; try lia.
  - apply below_of_loc; [lia | lra | congruence].
  - rewrite Ex. unfold F2R at 2. simpl. lra.
  - unfold F2R. simpl. lra.
  - left. exact H.
  - right. exists m', e'. split; [exact H|]. split; [|assumption].
    unfold F2R at 2 in Hv'. simpl in Hv'. lra.
Qed.

(** [Math.round] of a double between 0 and 100 is an integer between 0 and
    100. *)
Lemma Math_round_le_100 (m : positive) (e : Z) :
  (F2R (Zpos m) e <= 100)%R ->
  Math_round (S754_finite false m e) = S754_zero false
  \/ exists n, Math_round (S754_finite false m e) = S754_finite false n 0
               /\ (Zpos n <= 100)%Z.
Proof.
  intros Hv. unfold Math_round. simpl cond_Zopp.
  set (n := if (0 <=? e)%Z then (Zpos m * 2 ^ e)%Z
            else ((2 * Zpos m + 2 ^ (- e)) / 2 ^ (1 - e))%Z).
  assert (0 <= n <= 100)%Z as Hn.
  { unfold n. destruct (Z.leb_spec 0 e) as [He|He].
    - split; [pose proof (Z.pow_nonneg 2 e); nia|].
      apply le_IZR. unfold F2R in Hv. rewrite mult_IZR, <- bpow_IZR by assumption.
      exact Hv.
    - assert (0 < 2 ^ (- e))%Z as Hp by (apply Z.pow_pos_nonneg; lia).
      assert (2 ^ (1 - e) = 2 * 2 ^ (- e))%Z as Ep.
      { replace (1 - e)%Z with (Z.succ (- e)) by lia. apply Z.pow_succ_r. lia. }
      assert (Zpos m <= 100 * 2 ^ (- e))%Z as Hm.
      { apply le_IZR. rewrite mult_IZR, <- bpow_IZR by lia.
        unfold F2R in Hv. pose proof (bpow_pos e) as Hpe.
        assert (powerRZ 2 e * powerRZ 2 (- e) = 1)%R as E1.
        { rewrite <- bpow_add. replace (e + - e)%Z with 0%Z by lia. reflexivity. }
        pose proof (bpow_pos (- e)). nra. }
      rewrite Ep. split.
      + apply Z.div_pos; lia.
      + apply Z.lt_succ_r. apply Z.div_lt_upper_bound; lia. }
  destruct (Z.eqb_spec n 0) as [E|E]; [left; reflexivity | right].
  destruct n as [|p|p]; try lia. exists p. split; [reflexivity | lia].
Qed.

Lemma unitNumber_bounds (x : spec_float) :
  unitNumber x ->
  Number_finite x = true /\ (0 <= Number_value x <= 1)%R.
Proof.
  intros [->|(m & e & -> & Hv & _)]; simpl.
  - split; [reflexivity | lra].
  - split; [reflexivity|]. unfold F2R in Hv. split; [|exact Hv].
    pose proof (bpow_pos e). assert (0 < IZR (Zpos m))%R by (apply IZR_lt; lia). nra.
Qed.

Lemma Number_div_Z_unit (p q : Z) :
  (0 <= p <= q)%Z -> (0 < q)%Z ->
  unitNumber (Number_div (Number_of_Z p) (Number_of_Z q)).
Proof.
  intros Hp Hq. destruct q as [|q|q]; try lia.
  destruct p as [|p|p]; try lia.
  - left. reflexivity.
  - apply Number_div_le_1. unfold F2R. simpl. apply Rmult_le_compat_r; [lra|].
    apply IZR_le. lia.
Qed.

(** [Math.round(s * 100) / 100] keeps a similarity between 0 and 1. *)
Lemma round2_unit (s : spec_float) : unitNumber s -> unitNumber (round2 s).
Proof.
  intros [->|(m & e & -> & Hv & He)]; unfold round2.
  - left. reflexivity.
  - destruct (Number_mul_100_le Hv He) as [->|(m' & e' & -> & Hv' & He')].
    + left. reflexivity.
    + destruct (Math_round_le_100 Hv') as [->|(n & -> & Hn)].
      * left. reflexivity.
      * apply (@Number_div_Z_unit (Zpos n) 100); lia.
Qed.

(** [Math.round(s * 100) / 100] is a whole number of hundredths. *)
Lemma round2_hundredths (s : spec_float) :
  unitNumber s ->
  exists k, (0 <= k <= 100)%Z
            /\ round2 s = Number_div (Number_of_Z k) (Number_of_Z 100).
Proof.
  intros [->|(m & e & -> & Hv & He)]; unfold round2.
  - exists 0%Z. split; [lia | reflexivity].
  - destruct (Number_mul_100_le Hv He) as [->|(m' & e' & -> & Hv' & He')].
    + exists 0%Z. split; [lia | reflexivity].
    + destruct (Math_round_le_100 Hv') as [->|(n & -> & Hn)].
      * exists 0%Z. split; [lia | reflexivity].
      * exists (Zpos n). split; [lia | reflexivity].
Qed.

(** ** The arithmetic of the model against the doubles of the machine

    On the operands of the statistics below, the division and the
    multiplication of the model return what the primitive doubles return. *)

Module MachineDoubles.
Import PrimFloat FloatOps.

Example Number_div_46_80 :
  Number_div (Number_of_Z 46) (Number_of_Z 80) = Prim2SF (46 / 80)%float.
Proof. vm_compute. reflexivity. Qed.

Example Number_mul_46_80_100 :
  Number_mul (Number_div (Number_of_Z 46) (Number_of_Z 80)) (Number_of_Z 100)
  = Prim2SF (46 / 80 * 100)%float.
Proof. vm_compute. reflexivity. Qed.

Example round2_46_80 :
  round2 (Number_div (Number_of_Z 46) (Number_of_Z 80)) = Prim2SF (57 / 100)%float.
Proof. vm_compute. reflexivity. Qed.

Example Number_div_58_100 :
  Number_div (Number_of_Z 58) (Number_of_Z 100) = Prim2SF (58 / 100)%float.
Proof. vm_compute. reflexivity. Qed.

Example Number_div_1_3 :
  Number_div (Number_of_Z 1) (Number_of_Z 3) = Prim2SF (1 / 3)%float.
Proof. vm_compute. reflexivity. Qed.

Example round2_1 :
  round2 (Number_of_Z 1) = Prim2SF 1%float.
Proof. vm_compute. reflexivity. Qed.

End MachineDoubles.

(** * getDiffStats *)

Lemma countKind_cons (ty : SegmentType) (s : DiffSegment) (diff : list DiffSegment) :
  countKind ty (s :: diff)
  = ((if ofKind ty s then 1 else 0) + countKind ty diff)%Z.
Proof.
  unfold countKind. simpl filter. destruct (ofKind ty s); simpl length; lia.
Qed.

Lemma charsKind_cons (ty : SegmentType) (s : DiffSegment) (diff : list DiffSegment) :
  charsKind ty (s :: diff)
  = ((if ofKind ty s then Z.of_nat (length (text s)) else 0) + charsKind ty diff)%Z.
Proof.
  unfold charsKind. simpl filter. destruct (ofKind ty s); [|lia].
  simpl. rewrite length_app. lia.
Qed.

(** The loop of [forEach] counts the segments and the characters of each
    kind. *)
Lemma fold_countSegment (diff : list DiffSegment) :
  forall la lr lu ca cr : Z,
  fold_left countSegment diff (la, lr, lu, ca, cr)
  = (la + countKind added diff, lr + countKind removed diff,
     lu + countKind unchanged diff,
     ca + charsKind added diff, cr + charsKind removed diff)%Z.
Proof.
  induction diff as [|s diff IH]; intros la lr lu ca cr.
  - unfold countKind, charsKind. simpl. now rewrite !Z.add_0_r.
  - simpl fold_left. rewrite !countKind_cons, !charsKind_cons.
    unfold countSegment, ofKind. destruct (type s); simpl SegmentType_eqb;
      rewrite IH;
      (apply f_equal2; [apply f_equal2; [apply f_equal2; [apply f_equal2|]|]|]); lia.
Qed.

Lemma fold_unchangedChars (l : list DiffSegment) :
  forall sum : Z,
  fold_left (fun sum s => (sum + Z.of_nat (length (text s)))%Z) l sum
  = (sum + Z.of_nat (length (concat (map text l))))%Z.
Proof.
  induction l as [|s l IH]; intros sum; simpl; [lia|].
  rewrite IH, length_app. lia.
Qed.

Lemma length_concat_split (text : JSString) (sep : N) :
  length (concat (split text sep)) <= length text.
Proof.
  induction text as [|c rest IH]; simpl; [lia|].
  destruct (N.eqb c sep); simpl; [lia|].
  destruct (split rest sep) as [|p ps]; simpl in *; lia.
Qed.

Lemma unchanged_le_firstSide (diff : list DiffSegment) :
  length (concat (map text (filter (ofKind unchanged) diff)))
  <= length (concat (firstSide diff)).
Proof.
  unfold firstSide, ofKind, inFirst.
  induction diff as [|s diff IH]; simpl; [lia|].
  destruct (type s); simpl; rewrite ?length_app; lia.
Qed.

Lemma unchanged_le_secondSide (diff : list DiffSegment) :
  length (concat (map text (filter (ofKind unchanged) diff)))
  <= length (concat (secondSide diff)).
Proof.
  unfold secondSide, ofKind, inSecond.
  induction diff as [|s diff IH]; simpl; [lia|].
  destruct (type s); simpl; rewrite ?length_app; lia.
Qed.

(** The unchanged lines are lines of both texts. *)
Lemma unchanged_chars_le (text1 text2 : JSString) (diff : list DiffSegment) :
  computeDiff text1 text2 = Some diff ->
  (0 <= charsKind unchanged diff * 2
   <= Z.of_nat (length text1) + Z.of_nat (length text2))%Z.
Proof.
  intros H. unfold computeDiff in H.
  destruct (diffLines_sides (split text1 LF) (split text2 LF))
    as (segments & Hd & H1 & H2).
  rewrite Hd in H. injection H as ->.
  pose proof (unchanged_le_firstSide diff) as U1.
  pose proof (unchanged_le_secondSide diff) as U2.
  rewrite H1 in U1. rewrite H2 in U2.
  pose proof (length_concat_split text1 LF).
  pose proof (length_concat_split text2 LF).
  unfold charsKind. lia.
Qed.

(** What getDiffStats returns, in terms of the line diff. *)
Lemma getDiffStats_eq (text1 text2 : JSString) (diff : list DiffSegment) :
  computeDiff text1 text2 = Some diff ->
  getDiffStats text1 text2
  = Some (mkDiffStats
            (countKind added diff) (countKind removed diff)
            (countKind unchanged diff)
            (charsKind added diff) (charsKind removed diff)
            (round2
               (if (0 <? Z.of_nat (length text1) + Z.of_nat (length text2))%Z
                then Number_div (Number_of_Z (charsKind unchanged diff * 2))
                                (Number_of_Z (Z.of_nat (length text1)
                                              + Z.of_nat (length text2)))
                else Number_of_Z 1))).
Proof.
  intros H. unfold getDiffStats. rewrite H, fold_countSegment, fold_unchangedChars.
  reflexivity.
Qed.

(** * The claims of the specification *)

(** C1. Reconstruction: of the segments of [computeDiff text1 text2], the
    texts of those that are removed or unchanged, joined with a line feed,
    are [text1], and the texts of those that are added or unchanged are
    [text2]; the same holds of [computeInlineDiff] with plain
    concatenation. *)
Theorem C1_reconstruction (text1 text2 : JSString) :
  (exists segments,
      computeDiff text1 text2 = Some segments
      /\ join (map text (filter inFirst segments)) [LF] = text1
      /\ join (map text (filter inSecond segments)) [LF] = text2)
  /\ (exists segments,
      computeInlineDiff text1 text2 = Some segments
      /\ concat (map text (filter inFirst segments)) = text1
      /\ concat (map text (filter inSecond segments)) = text2).
Proof.
  split.
  - destruct (diffLines_sides (split text1 LF) (split text2 LF))
      as (segments & Hd & H1 & H2).
    exists segments. unfold firstSide, secondSide in *.
    rewrite H1, H2, !join_split. auto.
  - apply computeInlineDiff_spell.
Qed.

(** C2 (as the code has it). On two empty strings [computeDiff] returns one
    unchanged segment with the empty text, since the empty string splits
    into one empty line; [getDiffStats] returns the similarity 1, one
    unchanged line, and 0 for the other four counters. *)
Theorem C2_empty_inputs :
  computeDiff [] [] = Some [mkSegment unchanged []]
  /\ getDiffStats [] []
     = Some (mkDiffStats 0 0 1 0 0 (S754_finite false 4503599627370496 (-52)))
  /\ Number_value (S754_finite false 4503599627370496 (-52)) = 1%R.
Proof.
  split; [reflexivity|]. split; [reflexivity|].
  unfold Number_value. simpl cond_Zopp.
  change (-52)%Z with (- (52))%Z. rewrite powerRZ_neg', bpow_IZR by lia.
  change (2 ^ 52)%Z with 4503599627370496%Z. field.
Qed.

(** C2 as it is stated fails: the sequence is not empty, and the counter of
    unchanged lines is 1. *)
Lemma C2_counterexample :
  computeDiff [] [] <> Some []
  /\ exists stats, getDiffStats [] [] = Some stats /\ linesUnchanged stats = 1%Z
                   /\ linesUnchanged stats <> 0%Z.
Proof.
  split; [discriminate|]. eexists. split; [reflexivity|].
  split; [reflexivity | discriminate].
Qed.

(** C3 (as the code has it). Let the uncoalesced character-by-character
    algorithm run until one input is exhausted, at cursors [i] and [j], and
    let [merged] be what it has pushed, with every maximal run of unchanged
    characters merged into one segment.  The uncoalesced result, merged, is
    [merged] followed by one segment for each character left; the result of
    [computeInlineDiff] is [merged] followed by what is left as a single
    segment. *)
Theorem C3_inline_against_uncoalesced (text1 text2 : JSString) :
  exists i j segments,
    uncoalescedWhileBoth text1 text2 = Some (i, j, segments)
    /\ (i = length text1 \/ j = length text2)
    /\ option_map merge_unchanged (uncoalesced text1 text2)
       = Some (merge_unchanged segments
                 ++ singles removed (skipn i text1)
                 ++ singles added (skipn j text2))
    /\ computeInlineDiff text1 text2
       = Some (merge_unchanged segments
                 ++ remainder removed (skipn i text1)
                 ++ remainder added (skipn j text2)).
Proof.
  destruct (@loops_agree text1 text2 (length text1 + length text2) 0 0)
    as (i & j & segments & Hend & Hi & Hj & HA & HE & HC & _); try lia.
  exists i, j, segments. split; [|split; [exact Hend|split]].
  - unfold uncoalescedWhileBoth. now rewrite (HA [] _ (le_n _)).
  - unfold uncoalesced, diffLines. rewrite !length_chars.
    rewrite (HE [] _ (le_n _)). simpl. f_equal.
    rewrite merge_unchanged_app.
    + f_equal. rewrite merge_unchanged_app.
      * now rewrite !merge_unchanged_singles by discriminate.
      * apply startsChanged_singles. discriminate.
    + apply startsChanged_app; apply startsChanged_singles; discriminate.
  - unfold computeInlineDiff.
    destruct (HC [] _ (le_n _)) as (i'' & j'' & Hw). now rewrite Hw.
Qed.

(** C3 as it is stated fails once an input is exhausted: the code pushes
    what is left of the other input as one segment, the uncoalesced
    algorithm one segment for each character. *)
Lemma C3_counterexample :
  computeInlineDiff [] (lit "ab") = Some [mkSegment added (lit "ab")]
  /\ option_map merge_unchanged (uncoalesced [] (lit "ab"))
     = Some [mkSegment added (lit "a"); mkSegment added (lit "b")]
  /\ computeInlineDiff [] (lit "ab")
     <> option_map merge_unchanged (uncoalesced [] (lit "ab")).
Proof. repeat split; try reflexivity. discriminate. Qed.

(** C4 (as the code has it). At a pair of different lines, the paired
    substitution (removed [lines1[i]], then added [lines2[j]], both cursors
    advanced) happens exactly when neither line occurs again, or both occur
    again at equal distances; the deletion happens exactly when [lines2[j]]
    occurs again in [lines1[i+1..]] and [lines1[i]] does not occur again in
    [lines2[j+1..]] or occurs strictly farther; the insertion is the
    symmetric case. *)
Theorem C4_mismatch_resolution (lines1 lines2 : list JSString) (i j : nat)
    (segments : list DiffSegment) :
  i < length lines1 -> j < length lines2 ->
  nth i lines1 [] <> nth j lines2 [] ->
  let a := nth i lines1 [] in
  let b := nth j lines2 [] in
  let rest1 := skipn (i + 1) lines1 in
  let rest2 := skipn (j + 1) lines2 in
  (computeDiff_body lines1 lines2 (i, j, segments)
   = (i + 1, j + 1, segments ++ [mkSegment removed a; mkSegment added b])
   <-> (~ In b rest1 /\ ~ In a rest2)
       \/ exists d, firstAt b rest1 d /\ firstAt a rest2 d)
  /\ (computeDiff_body lines1 lines2 (i, j, segments)
      = (i + 1, j, segments ++ [mkSegment removed a])
      <-> exists d1, firstAt b rest1 d1
            /\ (~ In a rest2 \/ exists d2, firstAt a rest2 d2 /\ d1 < d2))
  /\ (computeDiff_body lines1 lines2 (i, j, segments)
      = (i, j + 1, segments ++ [mkSegment added b])
      <-> exists d2, firstAt a rest2 d2
            /\ (~ In b rest1 \/ exists d1, firstAt b rest1 d1 /\ d2 < d1)).
Proof.
  intros Hi Hj Hne a b rest1 rest2.
  rewrite computeDiff_body_mismatch by assumption.
  unfold nextMatchInText1, nextMatchInText2. fold a b rest1 rest2.
  set (n1 := indexOf str_eqb rest1 b). set (n2 := indexOf str_eqb rest2 a).
  assert (HA1 : ~ In b rest1 <-> (n1 < 0)%Z)
    by (symmetry; apply (indexOf_absent str_eqb str_eqb_eq)).
  assert (HA2 : ~ In a rest2 <-> (n2 < 0)%Z)
    by (symmetry; apply (indexOf_absent str_eqb str_eqb_eq)).
  assert (HF1 : forall d, firstAt b rest1 d <-> n1 = Z.of_nat d)
    by (intros d; symmetry; apply (indexOf_first str_eqb str_eqb_eq)).
  assert (HF2 : forall d, firstAt a rest2 d <-> n2 = Z.of_nat d)
    by (intros d; symmetry; apply (indexOf_first str_eqb str_eqb_eq)).
  assert (HS : ((~ In b rest1 /\ ~ In a rest2)
                \/ exists d, firstAt b rest1 d /\ firstAt a rest2 d)
               <-> resolve n1 n2 = Substitution).
  { rewrite resolve_Substitution. split.
    - intros [[H1 H2]|(d & H1 & H2)].
      + apply HA1 in H1. apply HA2 in H2. lia.
      + apply HF1 in H1. apply HF2 in H2. lia.
    - intros [[H1 H2]|[H1 H2]].
      + left. split; [apply HA1 | apply HA2]; assumption.
      + right. exists (Z.to_nat n1). split; [apply HF1 | apply HF2]; lia. }
  assert (HD : (exists d1, firstAt b rest1 d1
                 /\ (~ In a rest2 \/ exists d2, firstAt a rest2 d2 /\ d1 < d2))
               <-> resolve n1 n2 = Deletion).
  { rewrite resolve_Deletion. split.
    - intros (d1 & H1 & [H2|(d2 & H2 & Hlt)]); apply HF1 in H1.
      + apply HA2 in H2. lia.
      + apply HF2 in H2. lia.
    - intros [H0 H]. exists (Z.to_nat n1). split; [apply HF1; lia|].
      destruct (Z.ltb_spec n2 0) as [Hn|Hn].
      + left. now apply HA2.
      + right. exists (Z.to_nat n2). split; [apply HF2|]; lia. }
  assert (HI : (exists d2, firstAt a rest2 d2
                 /\ (~ In b rest1 \/ exists d1, firstAt b rest1 d1 /\ d2 < d1))
               <-> resolve n1 n2 = Insertion).
  { rewrite resolve_Insertion. split.
    - intros (d2 & H2 & [H1|(d1 & H1 & Hlt)]); apply HF2 in H2.
      + apply HA1 in H1. lia.
      + apply HF1 in H1. lia.
    - intros [H0 H]. exists (Z.to_nat n2). split; [apply HF2; lia|].
      destruct (Z.ltb_spec n1 0) as [Hn|Hn].
      + left. now apply HA1.
      + right. exists (Z.to_nat n1). split; [apply HF1|]; lia. }
  rewrite HS, HD, HI.
  destruct (resolve n1 n2); repeat split; intros H;
    try reflexivity; try discriminate; exfalso; injection H; intros; lia.
Qed.

(** C4 at the lines [a; b] and [c; a]: [a] occurs again in the second array,
    [c] does not occur in the first, and the code inserts [c]. *)
Lemma C4_mismatch_resolution_witness :
  0 < length [lit "a"; lit "b"]
  /\ 0 < length [lit "c"; lit "a"]
  /\ nth 0 [lit "a"; lit "b"] [] <> nth 0 [lit "c"; lit "a"] []
  /\ (computeDiff_body [lit "a"; lit "b"] [lit "c"; lit "a"] (0, 0, [])
      = (1, 1, [mkSegment removed (lit "a"); mkSegment added (lit "c")])
      <-> (~ In (lit "c") [lit "b"] /\ ~ In (lit "a") [lit "a"])
          \/ exists d, firstAt (lit "c") [lit "b"] d /\ firstAt (lit "a") [lit "a"] d)
  /\ (computeDiff_body [lit "a"; lit "b"] [lit "c"; lit "a"] (0, 0, [])
      = (1, 0, [mkSegment removed (lit "a")])
      <-> exists d1, firstAt (lit "c") [lit "b"] d1
            /\ (~ In (lit "a") [lit "a"]
                \/ exists d2, firstAt (lit "a") [lit "a"] d2 /\ d1 < d2))
  /\ (computeDiff_body [lit "a"; lit "b"] [lit "c"; lit "a"] (0, 0, [])
      = (0, 1, [mkSegment added (lit "c")])
      <-> exists d2, firstAt (lit "a") [lit "a"] d2
            /\ (~ In (lit "c") [lit "b"]
                \/ exists d1, firstAt (lit "c") [lit "b"] d1 /\ d2 < d1)).
Proof.
  assert (H1 : 0 < length [lit "a"; lit "b"]) by (simpl; lia).
  assert (H2 : 0 < length [lit "c"; lit "a"]) by (simpl; lia).
  assert (H3 : nth 0 [lit "a"; lit "b"] [] <> nth 0 [lit "c"; lit "a"] [])
    by (simpl; discriminate).
  split; [exact H1|]. split; [exact H2|]. split; [exact H3|].
  exact (@C4_mismatch_resolution [lit "a"; lit "b"] [lit "c"; lit "a"] 0 0 [] H1 H2 H3).
Defined.

(** C4 as it is stated fails where both lines occur again at equal
    distances: on the lines [a; b] and [b; a] both searches give 0, and the
    code emits the substitution, not the deletion. *)
Lemma C4_counterexample :
  let lines1 := [lit "a"; lit "b"] in
  let lines2 := [lit "b"; lit "a"] in
  nth 0 lines1 [] <> nth 0 lines2 []
  /\ In (nth 0 lines2 []) (skipn 1 lines1)
  /\ In (nth 0 lines1 []) (skipn 1 lines2)
  /\ nextMatchInText1 lines1 lines2 0 0 = 0%Z
  /\ nextMatchInText2 lines1 lines2 0 0 = 0%Z
  /\ computeDiff_body lines1 lines2 (0, 0, [])
     = (1, 1, [mkSegment removed (lit "a"); mkSegment added (lit "b")])
  /\ computeDiff_body lines1 lines2 (0, 0, []) <> (1, 0, [mkSegment removed (lit "a")])
  /\ computeDiff (lit "a" ++ [LF] ++ lit "b") (lit "b" ++ [LF] ++ lit "a")
     = Some [mkSegment removed (lit "a"); mkSegment added (lit "b");
             mkSegment removed (lit "b"); mkSegment added (lit "a")].
Proof.
  cbv zeta. repeat split; try reflexivity; try discriminate; simpl; auto.
Qed.

(** C5 (as the code has it). [getDiffStats] is computed from the line diff:
    the three line counters are the numbers of added, removed and unchanged
    segments, the two character counters are the summed lengths of the texts
    of the added and of the removed segments, and the similarity is
    [Math.round(s * 100) / 100] in the arithmetic of doubles, where [s] is
    the double quotient of twice the summed length of the unchanged texts by
    the sum of the two lengths, or 1 when both inputs are empty; it is the
    double of [k / 100] for a whole number [k] of hundredths from 0 to
    100. *)
Theorem C5_stats_from_line_diff (text1 text2 : JSString) :
  exists diff stats,
    computeDiff text1 text2 = Some diff
    /\ getDiffStats text1 text2 = Some stats
    /\ linesAdded stats = countKind added diff
    /\ linesRemoved stats = countKind removed diff
    /\ linesUnchanged stats = countKind unchanged diff
    /\ charactersAdded stats = charsKind added diff
    /\ charactersRemoved stats = charsKind removed diff
    /\ similarity stats
       = (let totalChars := (Z.of_nat (length text1) + Z.of_nat (length text2))%Z in
          let s := if (0 <? totalChars)%Z
                   then Number_div (Number_of_Z (charsKind unchanged diff * 2))
                                   (Number_of_Z totalChars)
                   else Number_of_Z 1 in
          Number_div (Math_round (Number_mul s (Number_of_Z 100))) (Number_of_Z 100))
    /\ exists k, (0 <= k <= 100)%Z
                 /\ similarity stats = Number_div (Number_of_Z k) (Number_of_Z 100).
Proof.
  destruct (diffLines_sides (split text1 LF) (split text2 LF)) as (diff & Hd & _).
  pose proof (unchanged_chars_le text1 text2 Hd) as Hu.
  exists diff. eexists. split; [exact Hd|].
  split; [apply getDiffStats_eq; exact Hd|].
  do 6 (split; [reflexivity|]).
  simpl similarity. apply round2_hundredths.
  destruct (Z.ltb_spec 0 (Z.of_nat (length text1) + Z.of_nat (length text2))) as [Ht|Ht].
  - apply Number_div_Z_unit; lia.
  - right. exists 1%positive, 0%Z. split; [reflexivity|].
    split; [|lia]. unfold F2R. simpl. lra.
Qed.

(** C5 as it is stated fails in the rounding.  With 23 unchanged characters
    out of 80 the ratio is 46/80 = 0.575, which rounds half up to 0.58; the
    double product is just below 57.5, and the code returns 0.57. *)
Lemma C5_counterexample :
  let text1 := lit "xxxxxxxxxxxxxxxxxxxxxxx" ++ [LF] ++ lit "aaaaaaaaaaaaaaaa" in
  let text2 := lit "xxxxxxxxxxxxxxxxxxxxxxx" ++ [LF] ++ lit "bbbbbbbbbbbbbbbb" in
  exists diff stats,
    computeDiff text1 text2 = Some diff
    /\ getDiffStats text1 text2 = Some stats
    /\ charsKind unchanged diff = 23%Z
    /\ (Z.of_nat (length text1) + Z.of_nat (length text2) = 80)%Z
    /\ hundredthsHalfUp (2 * 23) 80 = 58%Z
    /\ similarity stats = Number_div (Number_of_Z 57) (Number_of_Z 100)
    /\ similarity stats <> Number_div (Number_of_Z 58) (Number_of_Z 100).
Proof.
  cbv zeta. eexists. eexists. split; [reflexivity|]. split; [reflexivity|].
  repeat split; try reflexivity. vm_compute. discriminate.
Qed.

(** C6. Identity: [computeDiff a a] is the lines of [a], one segment for
    each line, all of them unchanged: no segment is removed or added. *)
Theorem C6_identity (a : JSString) :
  computeDiff a a = Some (map (mkSegment unchanged) (split a LF))
  /\ filter (ofKind removed) (map (mkSegment unchanged) (split a LF)) = []
  /\ filter (ofKind added) (map (mkSegment unchanged) (split a LF)) = []
  /\ length (map (mkSegment unchanged) (split a LF)) = length (split a LF).
Proof.
  unfold computeDiff. rewrite diffLines_same. split; [reflexivity|].
  split; [|split; [|apply length_map]].
  - induction (split a LF) as [|l ls IH]; [reflexivity | exact IH].
  - induction (split a LF) as [|l ls IH]; [reflexivity | exact IH].
Qed.

(** C7. The similarity that [getDiffStats] returns is a finite number
    between 0 and 1. *)
Theorem C7_similarity_bounds (a b : JSString) :
  exists stats,
    getDiffStats a b = Some stats
    /\ Number_finite (similarity stats) = true
    /\ (0 <= Number_value (similarity stats) <= 1)%R.
Proof.
  destruct (diffLines_sides (split a LF) (split b LF)) as (diff & Hd & _).
  pose proof (unchanged_chars_le a b Hd) as Hu.
  eexists. split; [apply getDiffStats_eq; exact Hd|].
  simpl similarity. apply unitNumber_bounds, round2_unit.
  destruct (Z.ltb_spec 0 (Z.of_nat (length a) + Z.of_nat (length b))) as [Ht|Ht].
  - apply Number_div_Z_unit; lia.
  - right. exists 1%positive, 0%Z. split; [reflexivity|].
    split; [|lia]. unfold F2R. simpl. lra.
Qed.

(** C8 (as the code has it). The inline diff of "hello" and "hallo" is four
    segments: unchanged "h", removed "e", added "a", unchanged "llo". *)
Theorem C8_hello_hallo :
  computeInlineDiff (lit "hello") (lit "hallo")
  = Some [mkSegment unchanged (lit "h"); mkSegment removed (lit "e");
          mkSegment added (lit "a"); mkSegment unchanged (lit "llo")].
Proof. reflexivity. Qed.

(** C8 as it is stated counts three segments; the removed and the added
    character are two segments, which makes four. *)
Lemma C8_counterexample :
  exists segments,
    computeInlineDiff (lit "hello") (lit "hallo") = Some segments
    /\ length segments = 4 /\ length segments <> 3.
Proof. eexists. split; [reflexivity|]. split; [reflexivity | discriminate]. Qed.

(** C9. Pure insertion: the diff of "a\nb" and "a\nx\nb" is unchanged "a",
    added "x", unchanged "b". *)
Theorem C9_pure_insertion :
  computeDiff (lit "a" ++ [LF] ++ lit "b") (lit "a" ++ [LF] ++ lit "x" ++ [LF] ++ lit "b")
  = Some [mkSegment unchanged (lit "a"); mkSegment added (lit "x");
          mkSegment unchanged (lit "b")].
Proof. reflexivity. Qed.

(** C10. [computeDiff] returns at least one segment on every pair of
    inputs; on two empty strings it returns one unchanged segment with the
    empty text. *)
Theorem C10_at_least_one_segment :
  (forall text1 text2, exists segments,
      computeDiff text1 text2 = Some segments /\ 1 <= length segments)
  /\ split [] LF = [[]]
  /\ computeDiff [] [] = Some [mkSegment unchanged []].
Proof.
  split; [|split; reflexivity].
  intros text1 text2.
  destruct (diffLines_sides (split text1 LF) (split text2 LF))
    as (segments & Hd & H1 & _).
  exists segments. split; [exact Hd|].
  pose proof (length_split_pos text1 LF) as Hl. rewrite <- H1 in Hl.
  unfold firstSide in Hl. rewrite length_map in Hl.
  pose proof (filter_length_le inFirst segments). lia.
Qed.

(** * Further properties of the code *)

(** ** The diff functions *)

Lemma length_filter_inFirst (diff : list DiffSegment) :
  length (filter inFirst diff)
  = length (filter (ofKind removed) diff) + length (filter (ofKind unchanged) diff).
Proof.
  unfold inFirst, ofKind. induction diff as [|s diff IH]; [reflexivity|].
  simpl. destruct (type s); simpl; lia.
Qed.

Lemma length_filter_inSecond (diff : list DiffSegment) :
  length (filter inSecond diff)
  = length (filter (ofKind added) diff) + length (filter (ofKind unchanged) diff).
Proof.
  unfold inSecond, ofKind. induction diff as [|s diff IH]; [reflexivity|].
  simpl. destruct (type s); simpl; lia.
Qed.

Lemma chars_firstSide (diff : list DiffSegment) :
  length (concat (firstSide diff))
  = length (concat (map text (filter (ofKind removed) diff)))
    + length (concat (map text (filter (ofKind unchanged) diff))).
Proof.
  unfold firstSide, inFirst, ofKind. induction diff as [|s diff IH]; [reflexivity|].
  simpl. destruct (type s); simpl; rewrite ?length_app; lia.
Qed.

Lemma chars_secondSide (diff : list DiffSegment) :
  length (concat (secondSide diff))
  = length (concat (map text (filter (ofKind added) diff)))
    + length (concat (map text (filter (ofKind unchanged) diff))).
Proof.
  unfold secondSide, inSecond, ofKind. induction diff as [|s diff IH]; [reflexivity|].
  simpl. destruct (type s); simpl; rewrite ?length_app; lia.
Qed.

(** The characters of a text are the characters of its lines and one line
    feed between two lines. *)
Lemma length_split_lines (text : JSString) (sep : N) :
  length (concat (split text sep)) + (length (split text sep) - 1) = length text.
Proof.
  induction text as [|c rest IH]; simpl; [reflexivity|].
  pose proof (length_split_pos rest sep) as Hp.
  destruct (N.eqb c sep); simpl.
  - lia.
  - destruct (split rest sep) as [|p ps]; simpl in *; lia.
Qed.

Lemma split_no_sep (text : JSString) (sep : N) :
  forall piece, In piece (split text sep) -> ~ In sep piece.
Proof.
  induction text as [|c rest IH]; simpl; intros piece H.
  - destruct H as [<-|[]]. auto.
  - destruct (N.eqb_spec c sep) as [->|Hne].
    + destruct H as [<-|H]; [auto | now apply IH].
    + destruct (split rest sep) as [|p ps] eqn:E.
      * destruct H as [<-|[]]. intros [H|[]]. congruence.
      * destruct H as [<-|H].
        -- intros [H|H]; [congruence|]. apply (IH p); [now left | assumption].
        -- apply IH. now right.
Qed.

(** X1. The line counters account for every line: removed and unchanged
    lines are the lines of the first text, added and unchanged lines those
    of the second. *)
Theorem X1_line_counters (text1 text2 : JSString) :
  exists stats,
    getDiffStats text1 text2 = Some stats
    /\ (linesRemoved stats + linesUnchanged stats
        = Z.of_nat (length (split text1 LF)))%Z
    /\ (linesAdded stats + linesUnchanged stats
        = Z.of_nat (length (split text2 LF)))%Z.
Proof.
  destruct (diffLines_sides (split text1 LF) (split text2 LF)) as (diff & Hd & H1 & H2).
  eexists. split; [apply getDiffStats_eq; exact Hd|].
  simpl. unfold countKind.
  apply (f_equal (@length _)) in H1, H2. unfold firstSide, secondSide in H1, H2.
  rewrite length_map in H1, H2.
  rewrite length_filter_inFirst in H1. rewrite length_filter_inSecond in H2.
  lia.
Qed.

(** X2. The character counters account for every character: a text is its
    removed (added) characters, the characters of its unchanged lines, and
    one line feed between two lines. *)
Theorem X2_character_counters (text1 text2 : JSString) :
  exists diff stats,
    computeDiff text1 text2 = Some diff
    /\ getDiffStats text1 text2 = Some stats
    /\ (charactersRemoved stats + charsKind unchanged diff
        + (Z.of_nat (length (split text1 LF)) - 1)
        = Z.of_nat (length text1))%Z
    /\ (charactersAdded stats + charsKind unchanged diff
        + (Z.of_nat (length (split text2 LF)) - 1)
        = Z.of_nat (length text2))%Z.
Proof.
  destruct (diffLines_sides (split text1 LF) (split text2 LF)) as (diff & Hd & H1 & H2).
  exists diff. eexists. split; [exact Hd|]. split; [apply getDiffStats_eq; exact Hd|].
  simpl. unfold charsKind.
  pose proof (chars_firstSide diff) as C1. pose proof (chars_secondSide diff) as C2.
  rewrite H1 in C1. rewrite H2 in C2.
  pose proof (length_split_lines text1 LF). pose proof (length_split_lines text2 LF).
  pose proof (length_split_pos text1 LF). pose proof (length_split_pos text2 LF).
  lia.
Qed.

(** X3. Every segment of the line diff is one line of the first or of the
    second text: its text has no line feed; and there are at least as many
    segments as lines in either text, and at most as many as in both. *)
Theorem X3_segments_are_lines (text1 text2 : JSString) :
  exists diff,
    computeDiff text1 text2 = Some diff
    /\ (forall s, In s diff ->
        ~ In LF (text s)
        /\ (In (text s) (split text1 LF) \/ In (text s) (split text2 LF)))
    /\ length (split text1 LF) <= length diff
    /\ length (split text2 LF) <= length diff
    /\ length diff <= length (split text1 LF) + length (split text2 LF).
Proof.
  destruct (diffLines_sides (split text1 LF) (split text2 LF)) as (diff & Hd & H1 & H2).
  exists diff. split; [exact Hd|].
  assert (Hin : forall s, In s diff ->
            In (text s) (split text1 LF) \/ In (text s) (split text2 LF)).
  { intros s Hs. rewrite <- H1, <- H2. unfold firstSide, secondSide.
    destruct (inFirst s) eqn:E.
    - left. apply in_map, filter_In. auto.
    - right. apply in_map, filter_In. split; [assumption|].
      unfold inFirst, inSecond in *. destruct (type s); congruence. }
  split; [|].
  - intros s Hs. split; [|auto].
    destruct (Hin s Hs) as [H|H]; eapply split_no_sep; eauto.
  - apply (f_equal (@length _)) in H1, H2. unfold firstSide, secondSide in H1, H2.
    rewrite length_map in H1, H2.
    pose proof (filter_length_le inFirst diff).
    pose proof (filter_length_le inSecond diff).
    rewrite length_filter_inFirst in *. rewrite length_filter_inSecond in *.
    assert (length diff
            = length (filter (ofKind added) diff) + length (filter (ofKind removed) diff)
              + length (filter (ofKind unchanged) diff)) as E.
    { clear. unfold ofKind. induction diff as [|s diff IH]; [reflexivity|].
      simpl. destruct (type s); simpl; lia. }
    lia.
Qed.


Lemma unchangedTexts_app (a b : list DiffSegment) :
  unchangedTexts (a ++ b) = unchangedTexts a ++ unchangedTexts b.
Proof. unfold unchangedTexts. now rewrite filter_app, map_app. Qed.

Lemma str_eqb_sym (a b : JSString) : str_eqb a b = str_eqb b a.
Proof.
  destruct (str_eqb a b) eqn:E.
  - apply str_eqb_eq in E. subst. symmetry. apply str_eqb_refl.
  - symmetry. apply str_eqb_neq. apply str_eqb_neq in E. congruence.
Qed.

(** With the texts exchanged, a deletion is an insertion. *)
Lemma resolve_swap (n1 n2 : Z) :
  resolve n2 n1
  = match resolve n1 n2 with
    | Deletion => Insertion
    | Insertion => Deletion
    | Substitution => Substitution
    end.
Proof.
  unfold resolve.
  repeat match goal with
    | |- context [(?a <=? ?b)%Z] => destruct (Z.leb_spec a b)
    | |- context [(?a <? ?b)%Z] => destruct (Z.ltb_spec a b)
    end; simpl; try reflexivity; lia.
Qed.

(** One iteration on [(text1, text2)] and one on [(text2, text1)] move the
    cursors alike and push the same unchanged lines. *)
Lemma computeDiff_body_swap (lines1 lines2 : list JSString) (i j : nat)
    (segments segments' : list DiffSegment) :
  computeDiff_cond lines1 lines2 (i, j, segments) = true ->
  unchangedTexts segments = unchangedTexts segments' ->
  exists i' j' s s',
    computeDiff_body lines1 lines2 (i, j, segments) = (i', j', s)
    /\ computeDiff_body lines2 lines1 (j, i, segments') = (j', i', s')
    /\ unchangedTexts s = unchangedTexts s'.
Proof.
  intros Hc Hu. unfold computeDiff_cond in Hc. unfold computeDiff_body.
  unfold nextMatchInText1, nextMatchInText2.
  destruct (length lines1 <=? i) eqn:E1;
    [apply Nat.leb_le in E1 | apply Nat.leb_gt in E1].
  { assert (j < length lines2) as Hj.
    { apply orb_true_iff in Hc. destruct Hc as [Hc|Hc]; apply Nat.ltb_lt in Hc; lia. }
    rewrite (proj2 (Nat.leb_gt _ _) Hj).
    do 4 eexists. split; [reflexivity|]. split; [reflexivity|].
    rewrite !unchangedTexts_app, Hu. reflexivity. }
  destruct (length lines2 <=? j) eqn:E2;
    [apply Nat.leb_le in E2 | apply Nat.leb_gt in E2].
  { do 4 eexists. split; [reflexivity|]. split; [reflexivity|].
    rewrite !unchangedTexts_app, Hu. reflexivity. }
  rewrite (str_eqb_sym (nth j lines2 []) (nth i lines1 [])).
  destruct (str_eqb (nth i lines1 []) (nth j lines2 [])) eqn:E3.
  { apply str_eqb_eq in E3. do 4 eexists. split; [reflexivity|]. split; [reflexivity|].
    rewrite !unchangedTexts_app, Hu, E3. reflexivity. }
  rewrite (resolve_swap (indexOf str_eqb (skipn (i + 1) lines1) (nth j lines2 []))
                        (indexOf str_eqb (skipn (j + 1) lines2) (nth i lines1 []))).
  destruct (resolve _ _); do 4 eexists;
    (split; [reflexivity|]); (split; [reflexivity|]);
    rewrite !unchangedTexts_app, Hu; reflexivity.
Qed.

Lemma computeDiff_cond_swap (lines1 lines2 : list JSString) (i j : nat)
    (segments segments' : list DiffSegment) :
  computeDiff_cond lines2 lines1 (j, i, segments')
  = computeDiff_cond lines1 lines2 (i, j, segments).
Proof. unfold computeDiff_cond. apply orb_comm. Qed.

Lemma while_0 {S : Type} (cond : S -> bool) (body : S -> option (ctl S)) (s : S) :
  while 0 cond body s = if cond s then None else Some s.
Proof. reflexivity. Qed.

(** The two loops run in step. *)
Lemma computeDiff_loop_swap (lines1 lines2 : list JSString) (fuel : nat) :
  forall i j segments segments',
  unchangedTexts segments = unchangedTexts segments' ->
  match while fuel (computeDiff_cond lines1 lines2)
              (fun st => Some (Next (computeDiff_body lines1 lines2 st)))
              (i, j, segments),
        while fuel (computeDiff_cond lines2 lines1)
              (fun st => Some (Next (computeDiff_body lines2 lines1 st)))
              (j, i, segments') with
  | Some (_, _, s), Some (_, _, s') => unchangedTexts s = unchangedTexts s'
  | None, None => True
  | _, _ => False
  end.
Proof.
  induction fuel as [|fuel IH]; intros i j segments segments' Hu.
  - rewrite !while_0. rewrite (computeDiff_cond_swap lines1 lines2 i j segments segments').
    destruct (computeDiff_cond lines1 lines2 (i, j, segments)); [trivial | exact Hu].
  - rewrite !while_S.
    rewrite (computeDiff_cond_swap lines1 lines2 i j segments segments').
    destruct (computeDiff_cond lines1 lines2 (i, j, segments)) eqn:Hc; [|exact Hu].
    destruct (computeDiff_body_swap lines1 lines2 i j segments segments' Hc Hu)
      as (i' & j' & s & s' & -> & -> & Hu').
    apply IH, Hu'.
Qed.

Lemma diffLines_swap (lines1 lines2 : list JSString) (d12 d21 : list DiffSegment) :
  diffLines lines1 lines2 = Some d12 -> diffLines lines2 lines1 = Some d21 ->
  unchangedTexts d12 = unchangedTexts d21.
Proof.
  unfold diffLines. intros H12 H21.
  pose proof (@computeDiff_loop_swap lines1 lines2 (length lines1 + length lines2)
                0 0 [] [] eq_refl) as H.
  rewrite (Nat.add_comm (length lines2)) in H21.
  destruct (while _ (computeDiff_cond lines1 lines2) _ _) as [[[? ?] s]|];
    destruct (while _ (computeDiff_cond lines2 lines1) _ _) as [[[? ?] s']|];
    try discriminate; try contradiction.
  congruence.
Qed.

(** X4. Exchanging the two texts exchanges what is added and what is
    removed, and changes neither the unchanged lines nor the similarity. *)
Theorem X4_stats_of_exchanged_texts (text1 text2 : JSString) :
  exists s12 s21,
    getDiffStats text1 text2 = Some s12
    /\ getDiffStats text2 text1 = Some s21
    /\ linesAdded s21 = linesRemoved s12
    /\ linesRemoved s21 = linesAdded s12
    /\ linesUnchanged s21 = linesUnchanged s12
    /\ charactersAdded s21 = charactersRemoved s12
    /\ charactersRemoved s21 = charactersAdded s12
    /\ similarity s21 = similarity s12.
Proof.
  destruct (diffLines_sides (split text1 LF) (split text2 LF)) as (d12 & Hd12 & A1 & A2).
  destruct (diffLines_sides (split text2 LF) (split text1 LF)) as (d21 & Hd21 & B1 & B2).
  pose proof (diffLines_swap _ _ Hd12 Hd21) as Hu.
  assert (countKind unchanged d21 = countKind unchanged d12) as Ecnt.
  { unfold countKind. apply (f_equal (@length _)) in Hu. unfold unchangedTexts in Hu.
    rewrite !length_map in Hu. lia. }
  assert (charsKind unchanged d21 = charsKind unchanged d12) as Echr.
  { unfold charsKind. unfold unchangedTexts in Hu. now rewrite Hu. }
  do 2 eexists. split; [apply getDiffStats_eq; exact Hd12|].
  split; [apply getDiffStats_eq; exact Hd21|]. simpl.
  pose proof (f_equal (@length _) A1) as LA1. pose proof (f_equal (@length _) A2) as LA2.
  pose proof (f_equal (@length _) B1) as LB1. pose proof (f_equal (@length _) B2) as LB2.
  unfold firstSide, secondSide in LA1, LA2, LB1, LB2. rewrite length_map in *.
  rewrite length_filter_inFirst in LA1, LB1. rewrite length_filter_inSecond in LA2, LB2.
  pose proof (chars_firstSide d12) as CA1. pose proof (chars_secondSide d12) as CA2.
  pose proof (chars_firstSide d21) as CB1. pose proof (chars_secondSide d21) as CB2.
  rewrite A1 in CA1. rewrite A2 in CA2. rewrite B1 in CB1. rewrite B2 in CB2.
  unfold countKind, charsKind in *.
  repeat split; try lia.
  rewrite (Z.add_comm (Z.of_nat (length text2))). f_equal.
  destruct (0 <? _)%Z; [|reflexivity]. do 3 f_equal. lia.
Qed.


Lemma noAdjacentUnchanged_snoc (segments : list DiffSegment) (s : DiffSegment) :
  noAdjacentUnchanged segments ->
  (type s = unchanged -> ~ endsUnchanged segments) ->
  noAdjacentUnchanged (segments ++ [s]).
Proof.
  induction segments as [|s1 rest IH]; intros Hn Hs; simpl; [auto|].
  destruct Hn as [H1 H2]. split.
  - destruct rest as [|s2 rest']; simpl.
    + intros [E1 E2]. apply (Hs E2). exists [], (text s1).
      destruct s1 as [ty t]. simpl in *. now subst.
    + exact H1.
  - apply IH; [exact H2|]. intros E (front & t & Hf). apply (Hs E).
    exists (s1 :: front), t. simpl. now rewrite Hf.
Qed.

Lemma endsUnchanged_snoc (segments : list DiffSegment) (s : DiffSegment) :
  endsUnchanged (segments ++ [s]) -> type s = unchanged.
Proof.
  intros (front & t & H). apply app_inj_tail in H. destruct H as [_ ->]. reflexivity.
Qed.

Section InlineShape.
Variables text1 text2 : JSString.

Lemma computeInlineDiff_body_shape (st : state) :
  shape_inv text1 text2 st -> computeInlineDiff_cond text1 text2 st = true ->
  match computeInlineDiff_body text1 text2 st with
  | Some (Next st') =>
      shape_inv text1 text2 st'
      /\ remainingInline text1 text2 st' < remainingInline text1 text2 st
  | Some (Break st') => shape_post st' /\ 0 < remainingInline text1 text2 st
  | None => False
  end.
Proof.
  destruct st as [[i j] segments]. unfold shape_inv, shape_post, remainingInline.
  intros (Hi & Hj & Hne & Hna & Hend) Hc.
  destruct (le_lt_dec (length text1) i) as [Hi1|Hi1].
  { unfold computeInlineDiff_cond in Hc.
    assert (j < length text2) as Hj1.
    { apply orb_true_iff in Hc. destruct Hc as [Hc|Hc]; apply Nat.ltb_lt in Hc; lia. }
    unfold computeInlineDiff_body. rewrite (proj2 (Nat.leb_le _ _) Hi1).
    split; [|lia]. split.
    - apply Forall_app. split; [assumption|]. constructor; [|constructor].
      simpl. rewrite (skipn_nth_cons text2 0%N Hj1). discriminate.
    - apply noAdjacentUnchanged_snoc; [assumption | discriminate]. }
  destruct (le_lt_dec (length text2) j) as [Hj1|Hj1].
  { unfold computeInlineDiff_body.
    rewrite (proj2 (Nat.leb_gt _ _) Hi1), (proj2 (Nat.leb_le _ _) Hj1).
    split; [|lia]. split.
    - apply Forall_app. split; [assumption|]. constructor; [|constructor].
      simpl. rewrite (skipn_nth_cons text1 0%N Hi1). discriminate.
    - apply noAdjacentUnchanged_snoc; [assumption | discriminate]. }
  destruct (N.eqb (nth i text1 0%N) (nth j text2 0%N)) eqn:E.
  { rewrite (inline_body_equal text1 text2 segments Hi1 Hj1 E).
    pose proof (commonPrefix_pos text1 text2 Hi1 Hj1 E) as Hpos.
    pose proof (commonPrefix_le_l (skipn i text1) (skipn j text2)) as Hl.
    pose proof (commonPrefix_le_r (skipn i text1) (skipn j text2)) as Hr.
    pose proof (commonPrefix_maximal (skipn i text1) (skipn j text2)) as Hmax.
    cbv zeta in Hmax. rewrite !length_skipn in Hl, Hr.
    set (k := commonPrefix (skipn i text1) (skipn j text2)) in *.
    split; [|lia]. repeat split; try lia.
    - apply Forall_app. split; [assumption|]. constructor; [|constructor].
      simpl. rewrite (skipn_nth_cons text1 0%N Hi1).
      destruct k; [lia | discriminate].
    - apply noAdjacentUnchanged_snoc; [assumption|]. intros _ He.
      apply (Hend He). auto.
    - intros _ (H1 & H2 & H3). apply N.eqb_eq in H3.
      apply Hmax; rewrite ?length_skipn, ?nth_skipn; [lia | lia | exact H3]. }
  rewrite (inline_body_differ text1 text2 segments Hi1 Hj1 E).
  assert (Hsnoc : forall segs ty t, ty <> unchanged -> t <> [] ->
            Forall (fun s => text s <> []) segs -> noAdjacentUnchanged segs ->
            Forall (fun s => text s <> []) (segs ++ [mkSegment ty t])
            /\ noAdjacentUnchanged (segs ++ [mkSegment ty t])
            /\ ~ endsUnchanged (segs ++ [mkSegment ty t])).
  { intros segs ty t Hty Ht Hf Hn. repeat split.
    - apply Forall_app. split; [assumption|]. constructor; [exact Ht | constructor].
    - apply noAdjacentUnchanged_snoc; [assumption|]. simpl. congruence.
    - intros He. apply endsUnchanged_snoc in He. simpl in He. congruence. }
  destruct (charResolution text1 text2 i j); simpl; (split; [|lia]).
  - destruct (Hsnoc segments removed [nth i text1 0%N]) as (F & A & Z);
      try assumption; try discriminate.
    repeat split; try lia; try assumption. intros He. contradiction.
  - destruct (Hsnoc segments added [nth j text2 0%N]) as (F & A & Z);
      try assumption; try discriminate.
    repeat split; try lia; try assumption. intros He. contradiction.
  - destruct (Hsnoc segments removed [nth i text1 0%N]) as (F & A & _);
      try assumption; try discriminate.
    destruct (Hsnoc (segments ++ [mkSegment removed [nth i text1 0%N]])
                added [nth j text2 0%N]) as (F' & A' & Z');
      try assumption; try discriminate.
    rewrite <- app_assoc in F', A', Z'. simpl in F', A', Z'.
    repeat split; try lia; try assumption. intros He. contradiction.
Qed.

Lemma computeInlineDiff_loop_shape :
  exists st,
    while (length text1 + length text2) (computeInlineDiff_cond text1 text2)
          (computeInlineDiff_body text1 text2) (0, 0, []) = Some st
    /\ shape_post st.
Proof.
  apply (while_total (computeInlineDiff_cond text1 text2)
           (computeInlineDiff_body text1 text2) (shape_inv text1 text2) shape_post
           (remainingInline text1 text2)).
  - intros [[i j] segments] (Hi & Hj & Hne & Hna & _) _. split; assumption.
  - apply computeInlineDiff_body_shape.
  - unfold shape_inv. split; [lia|]. split; [lia|]. split; [constructor|].
    split; [exact I|]. intros (front & t & H). destruct front; discriminate.
  - simpl. lia.
Qed.
End InlineShape.

(** X5. The character diff returns no segment with an empty text and no
    two unchanged segments next to each other. *)
Theorem X5_inline_segments_shape (text1 text2 : JSString) :
  exists segments,
    computeInlineDiff text1 text2 = Some segments
    /\ Forall (fun s => text s <> []) segments
    /\ noAdjacentUnchanged segments.
Proof.
  destruct (computeInlineDiff_loop_shape text1 text2) as ([[i j] segments] & Hw & H1 & H2).
  exists segments. unfold computeInlineDiff. rewrite Hw. auto.
Qed.





(** ** Roman numerals *)

Example toRoman_1994 : toRoman 1994 = Returned (lit "MCMXCIV").
Proof. reflexivity. Qed.

Example fromRoman_noncanonical :
  fromRoman_upper (lit "IIII") = Returned 4%Z
  /\ fromRoman_upper (lit "IM") = Returned 1001%Z
  /\ fromRoman_upper [] = Returned 0%Z
  /\ fromRoman_upper (lit "ABC") = Thrown "Invalid Roman numeral".
Proof. repeat split. Qed.

Lemma toRoman_ok_all :
  forallb toRoman_ok (map Z.of_nat (seq 1 3999)) = true.
Proof. vm_compute. reflexivity. Qed.

Lemma toRoman_ok_in_range (num : Z) :
  (1 <= num <= 3999)%Z -> toRoman_ok num = true.
Proof.
  intros H. pose proof toRoman_ok_all as Hall.
  rewrite forallb_forall in Hall. apply Hall.
  apply in_map_iff. exists (Z.to_nat num). split; [lia|].
  apply in_seq. lia.
Qed.

Lemma toRoman_out_of_range (num : Z) :
  (num <= 0 \/ 3999 < num)%Z ->
  toRoman num = Thrown "Number must be between 1 and 3999".
Proof.
  intros H. unfold toRoman.
  destruct (Z.leb_spec num 0); destruct (Z.ltb_spec 3999 num); simpl; try reflexivity; lia.
Qed.

(** X7. toRoman throws on a number below 1 or above 3999, and on any other
    number returns a numeral that is not empty, has at most 15 letters, all
    among I, V, X, L, C, D, M, and never the same letter four times in a
    row. *)
Theorem X7_toRoman_outcome (num : Z) :
  match toRoman num with
  | Returned s =>
      (1 <= num <= 3999)%Z /\ s <> []
      /\ Forall (fun c => isRomanLetter c = true) s
      /\ length s <= 15 /\ noFourInARow s = true
  | Thrown message =>
      (num <= 0 \/ 3999 < num)%Z
      /\ message = "Number must be between 1 and 3999"%string
  | Unfinished => False
  end.
Proof.
  destruct (Z_le_gt_dec num 0) as [H0|H0];
    [rewrite toRoman_out_of_range by lia; split; [lia | reflexivity]|].
  destruct (Z_lt_ge_dec 3999 num) as [H1|H1];
    [rewrite toRoman_out_of_range by lia; split; [lia | reflexivity]|].
  pose proof (@toRoman_ok_in_range num ltac:(lia)) as Hok. unfold toRoman_ok in Hok.
  destruct (toRoman num) as [s|m|]; try discriminate.
  rewrite !andb_true_iff in Hok. destruct Hok as ((((_ & Hne) & Hl) & Hlen) & Hfour).
  split; [lia|]. split.
  - intros ->. discriminate.
  - split; [now apply Forall_forall, forallb_forall|].
    split; [now apply Nat.leb_le | assumption].
Qed.

(** X8. fromRoman reads back what toRoman writes: for a numeral [roman]
    that toRoman returns on [num], and that [toUpperCase] leaves as it is,
    fromRoman returns [num]. *)
Theorem X8_roman_round_trip (toUpperCase : JSString -> JSString) (num : Z)
    (roman : JSString) :
  toRoman num = Returned roman ->
  toUpperCase roman = roman ->
  fromRoman toUpperCase roman = Returned num.
Proof.
  intros Ht Hu. unfold fromRoman. rewrite Hu.
  assert (1 <= num <= 3999)%Z as Hr.
  { destruct (Z_le_gt_dec num 0) as [H0|H0];
      [rewrite toRoman_out_of_range in Ht by lia; discriminate|].
    destruct (Z_lt_ge_dec 3999 num) as [H1|H1];
      [rewrite toRoman_out_of_range in Ht by lia; discriminate|].
    lia. }
  pose proof (toRoman_ok_in_range Hr) as Hok. unfold toRoman_ok in Hok.
  rewrite Ht in Hok. rewrite !andb_true_iff in Hok.
  destruct Hok as ((((Hf & _) & _) & _) & _).
  destruct (fromRoman_upper roman) as [n|m|]; try discriminate.
  apply Z.eqb_eq in Hf. now subst.
Qed.

Lemma X8_roman_round_trip_witness :
  toRoman 1994 = Returned (lit "MCMXCIV")
  /\ upperASCII (lit "MCMXCIV") = lit "MCMXCIV"
  /\ fromRoman upperASCII (lit "MCMXCIV") = Returned 1994%Z.
Proof.
  assert (H1 : toRoman 1994 = Returned (lit "MCMXCIV")) by reflexivity.
  assert (H2 : upperASCII (lit "MCMXCIV") = lit "MCMXCIV") by reflexivity.
  split; [exact H1|]. split; [exact H2|].
  exact (@X8_roman_round_trip upperASCII 1994%Z (lit "MCMXCIV") H1 H2).
Defined.

(** What [find] answers on the table. *)
Lemma findSymbol_Some (text : JSString) (found : Z * JSString) :
  findSymbol text = Some found ->
  (1 <= fst found)%Z /\ text <> []
  /\ Forall (fun c => isRomanLetter c = true) text.
Proof.
  unfold findSymbol. intros H. apply find_some in H. destruct H as [Hin Heq].
  apply str_eqb_eq in Heq. subst text.
  simpl in Hin.
  repeat (destruct Hin as [<-|Hin];
          [simpl; split; [lia|]; split; [discriminate|]; repeat constructor|]).
  contradiction.
Qed.

Lemma findSymbol_letter (c : N) :
  findSymbol [c] = None -> isRomanLetter c = false.
Proof.
  unfold findSymbol, isRomanLetter. simpl.
  repeat match goal with
    | |- context [N.eqb ?a ?b] => destruct (N.eqb_spec a b); subst; simpl
    end; try reflexivity; try discriminate; try lia.
Qed.

Section FromRomanLoop.
Variable upper : JSString.

Lemma fromRoman_body_inv (st : fromRoman_state) :
  fromRoman_inv upper st -> (let '(_, i, _) := st in i <? length upper) = true ->
  match fromRoman_body upper st with
  | Some (Next st') =>
      fromRoman_inv upper st'
      /\ (let '(_, i', _) := st' in length upper - i')
         < (let '(_, i, _) := st in length upper - i)
  | Some (Break st') =>
      fromRoman_post upper st' /\ 0 < (let '(_, i, _) := st in length upper - i)
  | None => False
  end.
Proof.
  destruct st as [[result i] thrown]. intros (-> & Hr & Hf) Hi.
  apply Nat.ltb_lt in Hi. unfold fromRoman_body.
  destruct (findSymbol (firstn 2 (skipn i upper))) as [found|] eqn:E2.
  { apply findSymbol_Some in E2. destruct E2 as (Hv & _ & Hl).
    split; [|lia]. repeat split; [lia|].
    rewrite firstn_plus. apply Forall_app. auto. }
  destruct (findSymbol [nth i upper 0%N]) as [found|] eqn:E1.
  { apply findSymbol_Some in E1. destruct E1 as (Hv & _ & Hl).
    split; [|lia]. repeat split; [lia|].
    rewrite (firstn_succ_nth upper 0%N Hi). apply Forall_app. auto. }
  apply findSymbol_letter in E1. split; [|lia]. split; [reflexivity|].
  apply Exists_exists. exists (nth i upper 0%N). split; [|assumption].
  now apply nth_In.
Qed.

Lemma fromRoman_loop :
  exists st,
    while (length upper)
          (fun st : fromRoman_state => let '(_, i, _) := st in i <? length upper)
          (fromRoman_body upper) (0%Z, 0, None) = Some st
    /\ fromRoman_post upper st.
Proof.
  apply (while_total
           (fun st : fromRoman_state => let '(_, i, _) := st in i <? length upper)
           (fromRoman_body upper) (fromRoman_inv upper) (fromRoman_post upper)
           (fun st : fromRoman_state => let '(_, i, _) := st in length upper - i)).
  - intros [[result i] thrown] (-> & Hr & Hf) Hc. apply Nat.ltb_ge in Hc.
    simpl. rewrite firstn_all2 in Hf by lia. auto.
  - apply fromRoman_body_inv.
  - simpl. repeat split; [lia | constructor].
  - lia.
Qed.
End FromRomanLoop.

(** X9. fromRoman returns exactly on the texts whose upper case holds only
    the letters I, V, X, L, C, D, M (the empty text among them), with a
    result that is not negative; on any other text it throws "Invalid Roman
    numeral". *)
Theorem X9_fromRoman_outcome (toUpperCase : JSString -> JSString)
    (roman : JSString) :
  match fromRoman toUpperCase roman with
  | Returned result =>
      (0 <= result)%Z
      /\ Forall (fun c => isRomanLetter c = true) (toUpperCase roman)
  | Thrown message =>
      message = "Invalid Roman numeral"%string
      /\ Exists (fun c => isRomanLetter c = false) (toUpperCase roman)
  | Unfinished => False
  end.
Proof.
  unfold fromRoman, fromRoman_upper.
  destruct (fromRoman_loop (toUpperCase roman)) as ([[result i] thrown] & -> & Hp).
  unfold fromRoman_post in Hp. destruct thrown; exact Hp.
Qed.


(** ** The options of a dropdown or of a list, edited as text *)

Lemma trimStart_nil_iff (s : JSString) :
  trimStart s = [] <-> forallb isWhiteSpace s = true.
Proof.
  induction s as [|c rest IH]; simpl; [tauto|].
  destruct (isWhiteSpace c); simpl; [exact IH|]. split; discriminate.
Qed.

Lemma trimStart_forallb (s : JSString) :
  forallb isWhiteSpace (trimStart s) = true -> trimStart s = [].
Proof.
  induction s as [|c rest IH]; simpl; [reflexivity|].
  destruct (isWhiteSpace c) eqn:E; [exact IH|]. simpl. rewrite E. discriminate.
Qed.

Lemma forallb_rev {A : Type} (f : A -> bool) (l : list A) :
  forallb f (rev l) = forallb f l.
Proof.
  induction l as [|x l IH]; [reflexivity|].
  simpl. rewrite forallb_app, IH. simpl. rewrite andb_true_r. apply andb_comm.
Qed.

(** A text trims to the empty text exactly when it is all white space. *)
Lemma trim_nil_iff (s : JSString) :
  trim s = [] <-> forallb isWhiteSpace s = true.
Proof.
  unfold trim. split.
  - intros H. apply (f_equal (@rev _)) in H. rewrite rev_involutive in H. simpl in H.
    apply trimStart_nil_iff in H. rewrite forallb_rev in H.
    apply trimStart_forallb in H. now apply trimStart_nil_iff.
  - intros H. apply trimStart_nil_iff in H. rewrite H. reflexivity.
Qed.

Lemma not_blank_iff (s : JSString) :
  negb (str_eqb (trim s) []) = true
  <-> exists c, In c s /\ isWhiteSpace c = false.
Proof.
  rewrite negb_true_iff, str_eqb_neq, trim_nil_iff. split.
  - intros H. induction s as [|c rest IH]; simpl in H; [congruence|].
    destruct (isWhiteSpace c) eqn:E.
    + destruct IH as (c' & Hin & Hc'); [exact H|]. exists c'. split; [now right | assumption].
    + exists c. split; [now left | assumption].
  - intros (c & Hin & Hc) Hall. rewrite forallb_forall in Hall.
    rewrite (Hall c Hin) in Hc. discriminate.
Qed.

Lemma split_no_sep_one (l : JSString) (sep : N) :
  ~ In sep l -> split l sep = [l].
Proof.
  induction l as [|c rest IH]; simpl; intros H; [reflexivity|].
  destruct (N.eqb_spec c sep) as [->|Hne]; [tauto|].
  rewrite IH by tauto. reflexivity.
Qed.

Lemma split_app_sep (l rest : JSString) (sep : N) :
  ~ In sep l -> split (l ++ sep :: rest) sep = l :: split rest sep.
Proof.
  induction l as [|c l IH]; simpl; intros H.
  - now rewrite N.eqb_refl.
  - destruct (N.eqb_spec c sep) as [->|Hne]; [tauto|].
    rewrite IH by tauto. reflexivity.
Qed.

(** Splitting what was joined gives the lines back. *)
Lemma split_join (lines : list JSString) (sep : N) :
  lines <> [] -> Forall (fun l => ~ In sep l) lines ->
  split (join lines [sep]) sep = lines.
Proof.
  induction lines as [|l rest IH]; intros Hne Hf; [congruence|].
  inversion Hf as [|? ? Hl Hrest]; subst.
  destruct rest as [|l' rest'].
  - simpl. now apply split_no_sep_one.
  - change (join (l :: l' :: rest') [sep]) with (l ++ sep :: join (l' :: rest') [sep]).
    rewrite split_app_sep by assumption.
    rewrite IH by (congruence || assumption). reflexivity.
Qed.

Lemma optionsFromText_lines (value : JSString) (fallback : list JSString) :
  Forall isOptionLine fallback -> fallback <> [] ->
  optionsFromText value fallback <> []
  /\ Forall isOptionLine (optionsFromText value fallback).
Proof.
  intros Hf Hne. unfold optionsFromText.
  set (lines := filter _ (split value LF)).
  destruct (Nat.ltb_spec 0 (length lines)) as [Hl|Hl].
  - split; [destruct lines; simpl in Hl; [lia | discriminate]|].
    apply Forall_forall. intros o Ho. apply filter_In in Ho. destruct Ho as [Hin Hb].
    split; [eapply split_no_sep; eauto | now apply not_blank_iff].
  - auto.
Qed.

(** X10. Whatever text is typed, the options that the editor of a dropdown
    or of a list hands over are never empty, and each of them is one line
    (no line feed) that is not blank. *)
Theorem X10_options_from_text (value : JSString) :
  (dropdownOptionsOnBlur value <> []
   /\ Forall isOptionLine (dropdownOptionsOnBlur value))
  /\ (listItemsOnBlur value <> []
      /\ Forall isOptionLine (listItemsOnBlur value)).
Proof.
  split; apply optionsFromText_lines; try discriminate;
    repeat constructor; try (simpl; intuition discriminate);
    try (exists 79%N; split; [simpl; tauto | reflexivity]);
    try (exists 73%N; split; [simpl; tauto | reflexivity]).
Qed.

(** X11. On the text that the editor starts with for the options of a
    field, left as it is, the handler of the editor gives the same options
    back, when there is at least one option and each is one line that is not
    blank. *)
Theorem X11_options_round_trip (options : list JSString) :
  options <> [] -> Forall isOptionLine options ->
  dropdownOptionsOnBlur (optionsDefaultValue (Some options)) = options
  /\ listItemsOnBlur (optionsDefaultValue (Some options)) = options.
Proof.
  intros Hne Hf.
  assert (forall fallback, optionsFromText (join options [LF]) fallback = options) as H.
  { intros fallback. unfold optionsFromText.
    rewrite split_join; [|assumption|].
    2:{ eapply Forall_impl; [|exact Hf]. intros o [H _]. exact H. }
    assert (filter (fun line => negb (str_eqb (trim line) [])) options = options) as ->.
    { apply forallb_filter_id. apply forallb_forall. intros o Ho.
      rewrite Forall_forall in Hf. apply not_blank_iff. now apply Hf. }
    destruct options; [congruence | reflexivity]. }
  split; apply H.
Qed.

Lemma X11_options_round_trip_witness :
  [lit "Red"; lit "Dark blue"] <> []
  /\ Forall isOptionLine [lit "Red"; lit "Dark blue"]
  /\ dropdownOptionsOnBlur (optionsDefaultValue (Some [lit "Red"; lit "Dark blue"]))
     = [lit "Red"; lit "Dark blue"]
  /\ listItemsOnBlur (optionsDefaultValue (Some [lit "Red"; lit "Dark blue"]))
     = [lit "Red"; lit "Dark blue"].
Proof.
  assert (H1 : [lit "Red"; lit "Dark blue"] <> []) by discriminate.
  assert (H2 : Forall isOptionLine [lit "Red"; lit "Dark blue"]).
  { repeat constructor; try (simpl; intuition discriminate).
    - exists 82%N. split; [simpl; tauto | reflexivity].
    - exists 68%N. split; [simpl; tauto | reflexivity]. }
  split; [exact H1|]. split; [exact H2|].
  exact (@X11_options_round_trip [lit "Red"; lit "Dark blue"] H1 H2).
Defined.


(** ** The page selection of the PDF editor *)

Lemma insertSorted_In compare x sorted q :
  In q (insertSorted compare x sorted) <-> q = x \/ In q sorted.
Proof.
  induction sorted as [|y rest IH]; simpl.
  - intuition.
  - destruct (compare x y <? 0)%Z; simpl; rewrite ?IH; intuition.
Qed.

Lemma insertSorted_length compare x sorted :
  length (insertSorted compare x sorted) = S (length sorted).
Proof.
  induction sorted as [|y rest IH]; simpl; [reflexivity|].
  destruct (compare x y <? 0)%Z; simpl; congruence.
Qed.

Lemma insertSorted_le x sorted :
  StronglySorted Z.le sorted ->
  StronglySorted Z.le (insertSorted (fun a b => (a - b)%Z) x sorted).
Proof.
  induction 1 as [|y rest Hs IH Hy]; simpl.
  - repeat constructor.
  - destruct (x - y <? 0)%Z eqn:E.
    + apply Z.ltb_lt in E. constructor; [constructor; assumption|].
      constructor; [lia|]. rewrite Forall_forall in *. intros q Hq.
      specialize (Hy q Hq). lia.
    + apply Z.ltb_ge in E. constructor; [exact IH|].
      rewrite Forall_forall in *. intros q Hq.
      apply insertSorted_In in Hq. destruct Hq as [->|Hq]; [lia|auto].
Qed.

Lemma Array_sort_loop_In compare arr acc q :
  In q (fold_left (fun sorted x => insertSorted compare x sorted) arr acc)
  <-> In q acc \/ In q arr.
Proof.
  revert acc. induction arr as [|x arr IH]; intros acc; simpl.
  - intuition.
  - rewrite IH, insertSorted_In. intuition.
Qed.

Lemma Array_sort_loop_length compare arr acc :
  length (fold_left (fun sorted x => insertSorted compare x sorted) arr acc)
  = length acc + length arr.
Proof.
  revert acc. induction arr as [|x arr IH]; intros acc; simpl; [lia|].
  rewrite IH, insertSorted_length. lia.
Qed.

Lemma Array_sort_loop_le arr acc :
  StronglySorted Z.le acc ->
  StronglySorted Z.le
    (fold_left (fun sorted x => insertSorted (fun a b => (a - b)%Z) x sorted) arr acc).
Proof.
  revert acc. induction arr as [|x arr IH]; intros acc H; simpl; [exact H|].
  apply IH, insertSorted_le, H.
Qed.

Lemma Array_sort_In compare arr q : In q (Array_sort compare arr) <-> In q arr.
Proof. unfold Array_sort. rewrite Array_sort_loop_In. simpl. intuition. Qed.

Lemma Array_sort_length compare arr : length (Array_sort compare arr) = length arr.
Proof. unfold Array_sort. rewrite Array_sort_loop_length. reflexivity. Qed.

Lemma Array_sort_le arr : StronglySorted Z.le (Array_sort (fun a b => (a - b)%Z) arr).
Proof. apply Array_sort_loop_le. constructor. Qed.

(** Ascending lists are determined by their elements. *)
Lemma ascending_ext (l1 l2 : list Z) :
  StronglySorted Z.lt l1 -> StronglySorted Z.lt l2 ->
  (forall q, In q l1 <-> In q l2) -> l1 = l2.
Proof.
  intros H1. revert l2. induction H1 as [|x l1 Hs IH Hx]; intros l2 H2 Hext.
  - destruct l2 as [|y l2]; [reflexivity|]. exfalso. apply (Hext y). left. reflexivity.
  - destruct H2 as [|y l2 Hs2 Hy].
    + exfalso. apply (Hext x). left. reflexivity.
    + rewrite Forall_forall in Hx, Hy.
      assert (x = y) as ->.
      { assert (In x (y :: l2)) as Hxy by (apply Hext; left; reflexivity).
        assert (In y (x :: l1)) as Hyx by (apply Hext; left; reflexivity).
        destruct Hxy as [Hxy|Hxy]; [congruence|].
        destruct Hyx as [Hyx|Hyx]; [congruence|].
        specialize (Hx _ Hyx). specialize (Hy _ Hxy). lia. }
      f_equal. apply IH; [exact Hs2|]. intros q. split; intros Hq.
      * assert (In q (y :: l2)) as [E|E] by (apply Hext; right; exact Hq);
          [|exact E]. specialize (Hx _ Hq). lia.
      * assert (In q (y :: l1)) as [E|E] by (apply Hext; right; exact Hq);
          [|exact E]. specialize (Hy _ Hq). lia.
Qed.

Lemma ascending_filter (keep : Z -> bool) (l : list Z) :
  StronglySorted Z.lt l -> StronglySorted Z.lt (filter keep l).
Proof.
  induction 1 as [|x l Hs IH Hx]; simpl; [constructor|].
  destruct (keep x); [|exact IH]. constructor; [exact IH|].
  rewrite Forall_forall in *. intros q Hq. apply filter_In in Hq. apply Hx, Hq.
Qed.

(** A sorted list without a page twice is ascending. *)
Lemma le_NoDup_ascending (l : list Z) :
  StronglySorted Z.le l -> NoDup l -> StronglySorted Z.lt l.
Proof.
  induction 1 as [|x l Hs IH Hx]; intros Hnd; [constructor|].
  inversion Hnd as [|? ? Hnotin Hnd']; subst. constructor; [auto|].
  rewrite Forall_forall in *. intros q Hq. specialize (Hx q Hq).
  assert (q <> x) by (intros ->; contradiction). lia.
Qed.

Lemma ascending_NoDup (l : list Z) : StronglySorted Z.lt l -> NoDup l.
Proof.
  induction 1 as [|x l Hs IH Hx]; constructor; [|exact IH].
  rewrite Forall_forall in Hx. intros Hin. specialize (Hx _ Hin). lia.
Qed.

Lemma NoDup_of_length (l1 l2 : list Z) :
  NoDup l1 -> length l2 = length l1 -> (forall q, In q l1 -> In q l2) -> NoDup l2.
Proof.
  intros Hnd Hlen Hincl.
  apply NoDup_incl_NoDup with (l := l1); [exact Hnd|lia|exact Hincl].
Qed.

Lemma includes_In (arr : list Z) pageNum :
  PDFEditor.includes arr pageNum = true <-> In pageNum arr.
Proof.
  unfold PDFEditor.includes. rewrite existsb_exists. split.
  - intros [p [Hin Hp]]. apply Z.eqb_eq in Hp. subst. exact Hin.
  - intros Hin. exists pageNum. split; [exact Hin|apply Z.eqb_refl].
Qed.

Lemma includes_false (arr : list Z) pageNum :
  PDFEditor.includes arr pageNum = false <-> ~ In pageNum arr.
Proof.
  rewrite <- includes_In. destruct (PDFEditor.includes arr pageNum); split;
    congruence.
Qed.

Lemma filter_other_In (arr : list Z) pageNum q :
  In q (filter (fun p => negb (p =? pageNum)%Z) arr) <-> q <> pageNum /\ In q arr.
Proof.
  rewrite filter_In, negb_true_iff, Z.eqb_neq. tauto.
Qed.

Lemma sort_appended_ascending (sel : list Z) pageNum :
  StronglySorted Z.lt sel -> ~ In pageNum sel ->
  StronglySorted Z.lt (Array_sort (fun a b => (a - b)%Z) (sel ++ [pageNum])).
Proof.
  intros Hs Hnotin. apply le_NoDup_ascending; [apply Array_sort_le|].
  apply NoDup_of_length with (l1 := sel ++ [pageNum]).
  - apply NoDup_app; [apply ascending_NoDup, Hs|repeat constructor; simpl; tauto|].
    intros q Hq [<-|[]]. contradiction.
  - apply Array_sort_length.
  - intros q. apply Array_sort_In.
Qed.

Lemma allPages_In pageCount q :
  In q (PDFEditor.allPages pageCount) <-> (1 <= q <= pageCount)%Z.
Proof.
  unfold PDFEditor.allPages. rewrite in_map_iff. split.
  - intros [i [<- Hi]]. apply in_seq in Hi. lia.
  - intros Hq. exists (Z.to_nat (q - 1)). split; [lia|]. apply in_seq. lia.
Qed.

Lemma allPages_ascending pageCount : StronglySorted Z.lt (PDFEditor.allPages pageCount).
Proof.
  unfold PDFEditor.allPages. generalize (Z.to_nat pageCount) as n.
  generalize 0%nat as start. intros start n. revert start.
  induction n as [|n IH]; intros start; simpl; constructor; [apply IH|].
  rewrite Forall_forall. intros q Hq. apply in_map_iff in Hq.
  destruct Hq as [i [<- Hi]]. apply in_seq in Hi. lia.
Qed.


Lemma withSelectedPages_same (File TextAnnotation : Type)
    (f : PDFEditor.PDFFile File TextAnnotation) :
  PDFEditor.withSelectedPages f (PDFEditor.selectedPages f) = f.
Proof. destruct f. reflexivity. Qed.

(** X12. togglePageSelection changes the selection of the files with the
    given id and nothing else: the page is selected afterwards exactly if it
    was not selected before, and every other page is selected as before. *)
Theorem X12_toggle_one_page (File TextAnnotation : Type)
    (pdfFiles : list (PDFEditor.PDFFile File TextAnnotation))
    (fileId : JSString) (pageNum : Z) :
  let after := PDFEditor.togglePageSelection pdfFiles fileId pageNum in
  length after = length pdfFiles /\
  forall i f, nth_error pdfFiles i = Some f ->
    exists f', nth_error after i = Some f' /\
      PDFEditor.file f' = PDFEditor.file f /\
      PDFEditor.id f' = PDFEditor.id f /\
      PDFEditor.pageCount f' = PDFEditor.pageCount f /\
      PDFEditor.textAnnotations f' = PDFEditor.textAnnotations f /\
      (PDFEditor.id f <> fileId -> f' = f) /\
      (PDFEditor.id f = fileId ->
         (In pageNum (PDFEditor.selectedPages f') <->
          ~ In pageNum (PDFEditor.selectedPages f)) /\
         (forall q, q <> pageNum ->
            (In q (PDFEditor.selectedPages f') <-> In q (PDFEditor.selectedPages f)))).
Proof.
  intros after. split; [apply length_map|].
  intros i f Hi. unfold after, PDFEditor.togglePageSelection.
  rewrite nth_error_map, Hi. simpl.
  eexists. split; [reflexivity|].
  destruct (str_eqb (PDFEditor.id f) fileId) eqn:E.
  - apply str_eqb_eq in E. simpl.
    split; [reflexivity|]. split; [reflexivity|]. split; [reflexivity|].
    split; [reflexivity|]. split; [intros Hne; contradiction|]. intros _.
    destruct (PDFEditor.includes _ _) eqn:Hinc.
    + apply includes_In in Hinc. split.
      * rewrite filter_other_In. tauto.
      * intros q Hq. rewrite filter_other_In. tauto.
    + apply includes_false in Hinc. split.
      * rewrite Array_sort_In, in_app_iff. simpl. tauto.
      * intros q Hq. rewrite Array_sort_In, in_app_iff. simpl.
        intuition congruence.
  - apply str_eqb_neq in E.
    split; [reflexivity|]. split; [reflexivity|]. split; [reflexivity|].
    split; [reflexivity|]. split; [reflexivity|]. intros Heq. contradiction.
Qed.

Lemma toggle_selection_ascending (sel : list Z) pageNum :
  StronglySorted Z.lt sel ->
  StronglySorted Z.lt
    (if PDFEditor.includes sel pageNum
     then filter (fun p => negb (p =? pageNum)%Z) sel
     else Array_sort (fun a b => (a - b)%Z) (sel ++ [pageNum])).
Proof.
  intros Hs. destruct (PDFEditor.includes sel pageNum) eqn:Hinc.
  - apply ascending_filter, Hs.
  - apply sort_appended_ascending; [exact Hs|apply includes_false, Hinc].
Qed.

(** X13. Selections that are in ascending order, no page twice, stay so
    under togglePageSelection, selectAllPages and clearSelection. *)
Theorem X13_selections_stay_ascending (File TextAnnotation : Type)
    (pdfFiles : list (PDFEditor.PDFFile File TextAnnotation))
    (fileId : JSString) (pageNum : Z) :
  PDFEditor.selectionsAscending pdfFiles ->
  PDFEditor.selectionsAscending (PDFEditor.togglePageSelection pdfFiles fileId pageNum) /\
  PDFEditor.selectionsAscending (PDFEditor.selectAllPages pdfFiles fileId) /\
  PDFEditor.selectionsAscending (PDFEditor.clearSelection pdfFiles fileId).
Proof.
  unfold PDFEditor.selectionsAscending, PDFEditor.ascending,
    PDFEditor.togglePageSelection, PDFEditor.selectAllPages, PDFEditor.clearSelection.
  intros H. repeat split; apply Forall_map; rewrite Forall_forall in *;
    intros f Hf; specialize (H f Hf); destruct (str_eqb (PDFEditor.id f) fileId);
    simpl; try exact H.
  - apply toggle_selection_ascending, H.
  - apply allPages_ascending.
  - constructor.
Qed.

(** X14. On selections in ascending order, toggling the same page of the
    same file twice gives back the files as they were. *)
Theorem X14_toggle_twice (File TextAnnotation : Type)
    (pdfFiles : list (PDFEditor.PDFFile File TextAnnotation))
    (fileId : JSString) (pageNum : Z) :
  PDFEditor.selectionsAscending pdfFiles ->
  PDFEditor.togglePageSelection
    (PDFEditor.togglePageSelection pdfFiles fileId pageNum) fileId pageNum
  = pdfFiles.
Proof.
  unfold PDFEditor.selectionsAscending, PDFEditor.ascending,
    PDFEditor.togglePageSelection.
  intros H. rewrite map_map. rewrite <- (map_id pdfFiles) at 2.
  apply map_ext_in. intros f Hf. rewrite Forall_forall in H.
  specialize (H f Hf).
  destruct (str_eqb (PDFEditor.id f) fileId) eqn:E; [|rewrite E; reflexivity].
  simpl. rewrite E.
  destruct f as [file id pageCount sel annotations].
  unfold PDFEditor.withSelectedPages. simpl in *. f_equal.
  pose proof (toggle_selection_ascending pageNum H) as Hmid.
  destruct (PDFEditor.includes sel pageNum) eqn:Hinc.
  - apply includes_In in Hinc.
    assert (PDFEditor.includes (filter (fun p => negb (p =? pageNum)%Z) sel) pageNum
            = false) as ->.
    { apply includes_false. rewrite filter_other_In. tauto. }
    apply ascending_ext; [|exact H|].
    + apply sort_appended_ascending; [exact Hmid|]. rewrite filter_other_In. tauto.
    + intros q. rewrite Array_sort_In, in_app_iff, filter_other_In. simpl.
      destruct (Z.eq_dec q pageNum) as [->|Hne]; intuition congruence.
  - apply includes_false in Hinc.
    assert (PDFEditor.includes
              (Array_sort (fun a b => (a - b)%Z) (sel ++ [pageNum])) pageNum
            = true) as ->.
    { apply includes_In, Array_sort_In, in_or_app. right. left. reflexivity. }
    apply ascending_ext; [apply ascending_filter, Hmid|exact H|].
    intros q. rewrite filter_other_In, Array_sort_In, in_app_iff. simpl.
    destruct (Z.eq_dec q pageNum) as [->|Hne]; intuition congruence.
Qed.

(** X15. selectAllPages selects, in the files with the given id, the pages
    from 1 to the page count and no other, in a selection as long as the
    page count; it changes nothing else. *)
Theorem X15_select_all_pages (File TextAnnotation : Type)
    (pdfFiles : list (PDFEditor.PDFFile File TextAnnotation))
    (fileId : JSString) :
  let after := PDFEditor.selectAllPages pdfFiles fileId in
  length after = length pdfFiles /\
  forall i f, nth_error pdfFiles i = Some f ->
    exists f', nth_error after i = Some f' /\
      (PDFEditor.id f <> fileId -> f' = f) /\
      (PDFEditor.id f = fileId ->
         PDFEditor.file f' = PDFEditor.file f /\
         PDFEditor.id f' = PDFEditor.id f /\
         PDFEditor.pageCount f' = PDFEditor.pageCount f /\
         PDFEditor.textAnnotations f' = PDFEditor.textAnnotations f /\
         length (PDFEditor.selectedPages f') = Z.to_nat (PDFEditor.pageCount f) /\
         (forall q, In q (PDFEditor.selectedPages f')
                    <-> (1 <= q <= PDFEditor.pageCount f)%Z)).
Proof.
  intros after. split; [apply length_map|].
  intros i f Hi. unfold after, PDFEditor.selectAllPages.
  rewrite nth_error_map, Hi. simpl.
  eexists. split; [reflexivity|].
  destruct (str_eqb (PDFEditor.id f) fileId) eqn:E.
  - apply str_eqb_eq in E. split; [intros Hne; contradiction|]. intros _. simpl.
    split; [reflexivity|]. split; [reflexivity|]. split; [reflexivity|].
    split; [reflexivity|]. split.
    + unfold PDFEditor.allPages. rewrite length_map, length_seq. reflexivity.
    + intros q. apply allPages_In.
  - apply str_eqb_neq in E. split; [reflexivity|]. intros Heq. contradiction.
Qed.

Lemma X13_selections_stay_ascending_witness :
  PDFEditor.selectionsAscending
    (PDFEditor.togglePageSelection
       [PDFEditor.mkPDFFile tt (lit "a") 9 [2; 5]%Z (@None (list unit))] (lit "a") 3%Z) /\
  PDFEditor.selectionsAscending
    (PDFEditor.selectAllPages
       [PDFEditor.mkPDFFile tt (lit "a") 9 [2; 5]%Z (@None (list unit))] (lit "a")) /\
  PDFEditor.selectionsAscending
    (PDFEditor.clearSelection
       [PDFEditor.mkPDFFile tt (lit "a") 9 [2; 5]%Z (@None (list unit))] (lit "a")).
Proof.
  apply X13_selections_stay_ascending.
  repeat constructor; simpl; lia.
Defined.

Lemma X14_toggle_twice_witness :
  PDFEditor.togglePageSelection
    (PDFEditor.togglePageSelection
       [PDFEditor.mkPDFFile tt (lit "a") 9 [2; 5]%Z (@None (list unit))] (lit "a") 3%Z)
    (lit "a") 3%Z
  = [PDFEditor.mkPDFFile tt (lit "a") 9 [2; 5]%Z (@None (list unit))].
Proof.
  apply X14_toggle_twice.
  repeat constructor; simpl; lia.
Defined.

(** ** The fields of the form builder *)

Lemma extent_loop (fields : list FormBuilder.FormField) (maxBottom rightmostRight : Z) :
  let result :=
    fold_left
      (fun acc field =>
         let '(maxBottom, rightmostRight) := acc in
         let bottom := (FormBuilder.y field + FormBuilder.height field)%Z in
         let right := (FormBuilder.x field + FormBuilder.width field)%Z in
         (if (maxBottom <? bottom)%Z then bottom else maxBottom,
          if (rightmostRight <? right)%Z then right else rightmostRight))
      fields (maxBottom, rightmostRight) in
  (maxBottom <= fst result)%Z /\ (rightmostRight <= snd result)%Z /\
  forall field, In field fields ->
    (FormBuilder.y field + FormBuilder.height field <= fst result)%Z /\
    (FormBuilder.x field + FormBuilder.width field <= snd result)%Z.
Proof.
  revert maxBottom rightmostRight.
  induction fields as [|f fields IH]; intros maxBottom rightmostRight; simpl.
  - repeat split; try lia; intros field [].
  - match goal with |- context [fold_left _ fields (?a, ?b)] =>
      specialize (IH a b); simpl in IH; destruct IH as [Hb [Hr Hall]];
      assert (maxBottom <= a /\ FormBuilder.y f + FormBuilder.height f <= a)%Z
        as [Ha1 Ha2] by (destruct (Z.ltb_spec maxBottom
                           (FormBuilder.y f + FormBuilder.height f)); lia);
      assert (rightmostRight <= b /\ FormBuilder.x f + FormBuilder.width f <= b)%Z
        as [Hb1 Hb2] by (destruct (Z.ltb_spec rightmostRight
                           (FormBuilder.x f + FormBuilder.width f)); lia)
    end.
    split; [lia|]. split; [lia|].
    intros field [<-|Hin]; [lia|]. apply Hall, Hin.
Qed.

Lemma extent_bounds (fields : list FormBuilder.FormField) :
  (0 <= fst (FormBuilder.extent fields))%Z /\
  (0 <= snd (FormBuilder.extent fields))%Z /\
  forall field, In field fields ->
    (FormBuilder.y field + FormBuilder.height field <= fst (FormBuilder.extent fields))%Z /\
    (FormBuilder.x field + FormBuilder.width field <= snd (FormBuilder.extent fields))%Z.
Proof. apply (extent_loop fields 0 0). Qed.

Lemma hasOverlap_false (fields : list FormBuilder.FormField) width height position :
  FormBuilder.hasOverlap fields width height position = false <->
  forall field, In field fields ->
    FormBuilder.overlaps (fst position) (snd position) width height field = false.
Proof.
  unfold FormBuilder.hasOverlap. split.
  - intros H field Hin. destruct (FormBuilder.overlaps _ _ _ _ field) eqn:E;
      [|reflexivity].
    rewrite <- H. symmetry. apply existsb_exists. eauto.
  - intros H. destruct (existsb _ fields) eqn:E; [|reflexivity].
    apply existsb_exists in E. destruct E as [field [Hin E]].
    rewrite (H field Hin) in E. discriminate.
Qed.

Section Search.
Variables (fields : list FormBuilder.FormField) (width height : Z).
Hypothesis Hwidth : (0 <= width <= FormBuilder.pageWidth - 2 * FormBuilder.padding)%Z.
Hypothesis Hheight : (0 <= height <= FormBuilder.pageHeight - 2 * FormBuilder.padding)%Z.

Lemma nextPosition_within (position : Z * Z) :
  (FormBuilder.padding <= fst position)%Z -> (FormBuilder.padding <= snd position)%Z ->
  FormBuilder.withinMargins width height position ->
  let next := FormBuilder.nextPosition width height position in
  (FormBuilder.padding <= fst next)%Z /\ (FormBuilder.padding <= snd next)%Z /\
  FormBuilder.withinMargins width height next.
Proof.
  destruct position as [newX newY].
  unfold FormBuilder.nextPosition, FormBuilder.withinMargins,
    FormBuilder.pageWidth, FormBuilder.pageHeight, FormBuilder.padding,
    FormBuilder.spacing in *.
  cbn [fst snd]. intros HX HY [HinX HinY].
  repeat match goal with
         | |- context [(?a <? ?b)%Z] => destruct (Z.ltb_spec a b)
         end; cbn [fst snd]; lia.
Qed.

Lemma scanned_S (k : nat) :
  FormBuilder.scanned width height (S k)
  = FormBuilder.nextPosition width height (FormBuilder.scanned width height k).
Proof. reflexivity. Qed.

Lemma takenBefore_S (k : nat) :
  FormBuilder.takenBefore fields width height k ->
  FormBuilder.hasOverlap fields width height (FormBuilder.scanned width height k) = true ->
  FormBuilder.takenBefore fields width height (S k).
Proof.
  intros H Hk j Hj. destruct (Nat.eq_dec j k) as [->|Hne]; [exact Hk|].
  apply H. lia.
Qed.

Lemma search_body_inv (st : FormBuilder.search) :
  FormBuilder.search_inv fields width height st ->
  FormBuilder.search_cond st = true ->
  match FormBuilder.search_body fields width height st with
  | Some (Next st') =>
      FormBuilder.search_inv fields width height st' /\
      (Z.to_nat (FormBuilder.maxAttempts - snd st')
       < Z.to_nat (FormBuilder.maxAttempts - snd st))%nat
  | Some (Break st') =>
      FormBuilder.search_post fields width height st' /\
      (0 < Z.to_nat (FormBuilder.maxAttempts - snd st))%nat
  | None => False
  end.
Proof.
  destruct st as [[[newX newY] foundPosition] attempts].
  unfold FormBuilder.search_inv, FormBuilder.search_cond, FormBuilder.search_body.
  intros [Ha [HX [HY [Hin Hfound]]]] Hcond.
  apply andb_true_iff in Hcond. destruct Hcond as [Hf Hlt].
  apply negb_true_iff in Hf. subst foundPosition. apply Z.ltb_lt in Hlt.
  destruct Hfound as [Hpos Htaken].
  pose proof Hin as [HinX HinY]. cbn [fst snd] in HinX, HinY, HX, HY.
  unfold FormBuilder.maxAttempts in *. cbn [snd].
  destruct (FormBuilder.hasOverlap fields width height (newX, newY)) eqn:Hov;
    cbn [negb andb]; cbv beta iota; cbn [fst snd].
  - split; [|lia]. split; [lia|].
    pose proof (@nextPosition_within (newX, newY) HX HY (conj HinX HinY)) as Hnext.
    cbn [fst snd] in Hnext. destruct Hnext as [HX' [HY' Hin']].
    split; [exact HX'|]. split; [exact HY'|]. split; [exact Hin'|].
    replace (Z.to_nat (attempts + 1)) with (S (Z.to_nat attempts)) by lia.
    split.
    + rewrite scanned_S, <- Hpos. reflexivity.
    + apply takenBefore_S; [exact Htaken|]. rewrite <- Hpos. exact Hov.
  - rewrite (proj2 (Z.leb_le _ _) HinX), (proj2 (Z.leb_le _ _) HinY).
    cbn [negb andb]; cbv beta iota; cbn [fst snd].
    split; [|lia]. split; [lia|]. split; [exact HX|]. split; [exact HY|].
    split; [split; assumption|].
    exists (Z.to_nat attempts). split; [lia|]. split; [exact Hpos|].
    split; [exact Hov|exact Htaken].
Qed.

Lemma search_exit (st : FormBuilder.search) :
  FormBuilder.search_inv fields width height st ->
  FormBuilder.search_cond st = false ->
  FormBuilder.search_post fields width height st.
Proof.
  destruct st as [[position foundPosition] attempts].
  unfold FormBuilder.search_inv, FormBuilder.search_cond, FormBuilder.search_post.
  intros [Ha [HX [HY [Hin Hfound]]]] Hcond.
  split; [exact HX|]. split; [exact HY|]. split; [exact Hin|].
  unfold FormBuilder.maxAttempts in *.
  destruct foundPosition.
  - destruct Hfound as [k [Hk [Hpos [Hov Htaken]]]].
    exists k. split; [lia|]. split; [exact Hpos|]. split; [exact Htaken|].
    intros _. exact Hov.
  - simpl in Hcond. apply Z.ltb_ge in Hcond. destruct Hfound as [Hpos Htaken].
    assert (attempts = 50%Z) as -> by lia.
    exists (Z.to_nat 50). split; [lia|]. split; [exact Hpos|].
    split; [exact Htaken|]. lia.
Qed.

Lemma search_loop :
  exists st,
    while (Z.to_nat FormBuilder.maxAttempts) FormBuilder.search_cond
          (FormBuilder.search_body fields width height)
          ((FormBuilder.padding, FormBuilder.padding), false, 0%Z) = Some st /\
    FormBuilder.search_post fields width height st.
Proof.
  apply while_total with
    (Inv := FormBuilder.search_inv fields width height)
    (mu := fun st => Z.to_nat (FormBuilder.maxAttempts - snd st)).
  - exact search_exit.
  - exact search_body_inv.
  - unfold FormBuilder.search_inv, FormBuilder.withinMargins,
      FormBuilder.maxAttempts, FormBuilder.pageWidth, FormBuilder.pageHeight,
      FormBuilder.padding in *. cbn [fst snd].
    split; [lia|]. split; [lia|]. split; [lia|]. split; [lia|].
    split; [reflexivity|]. intros j Hj. change (Z.to_nat 0) with 0%nat in Hj. lia.
  - cbn [snd]. unfold FormBuilder.maxAttempts. lia.
Qed.

(** Where the new field goes. *)
Lemma newPosition_spec :
  exists position,
    FormBuilder.newPosition fields width height = Some position /\
    (FormBuilder.spacing <= fst position)%Z /\
    (FormBuilder.spacing <= snd position)%Z /\
    FormBuilder.withinMargins width height position /\
    (fields = [] -> position = (FormBuilder.padding, FormBuilder.padding)) /\
    (FormBuilder.hasOverlap fields width height position = false \/
     (FormBuilder.pageHeight - FormBuilder.padding
      < fst (FormBuilder.extent fields) + FormBuilder.spacing + height)%Z /\
     (FormBuilder.pageWidth - FormBuilder.padding
      < snd (FormBuilder.extent fields) + FormBuilder.spacing + width)%Z /\
     FormBuilder.takenBefore fields width height (Z.to_nat FormBuilder.maxAttempts) /\
     position = FormBuilder.scanned width height (Z.to_nat FormBuilder.maxAttempts)).
Proof.
  unfold FormBuilder.newPosition.
  destruct fields as [|f0 rest] eqn:Ef.
  - cbn [length Nat.ltb Nat.leb]. eexists. split; [reflexivity|].
    split; [unfold FormBuilder.spacing, FormBuilder.padding; cbn [fst snd]; lia|].
    split; [unfold FormBuilder.spacing, FormBuilder.padding; cbn [fst snd]; lia|].
    split; [unfold FormBuilder.withinMargins, FormBuilder.padding,
              FormBuilder.pageWidth, FormBuilder.pageHeight in *;
            cbn [fst snd]; lia|].
    split; [reflexivity|]. left. reflexivity.
  - rewrite <- Ef. replace (0 <? length fields)%nat with true
      by (subst fields; reflexivity).
    pose proof (extent_bounds fields) as [Hb [Hr Hall]].
    destruct (FormBuilder.extent fields) as [maxBottom rightmostRight] eqn:Eext.
    cbn [fst snd] in Hb, Hr, Hall. cbn [fst snd].
    assert (fields = [] -> False) as Hne by (subst fields; discriminate).
    destruct (Z.ltb_spec (FormBuilder.pageHeight - FormBuilder.padding)
                (maxBottom + FormBuilder.spacing + height)) as [Hbelow|Hbelow].
    + destruct (Z.ltb_spec (FormBuilder.pageWidth - FormBuilder.padding)
                  (rightmostRight + FormBuilder.spacing + width)) as [Hright|Hright].
      * destruct search_loop as [[[position foundPosition] attempts] [-> Hpost]].
        exists position. split; [reflexivity|].
        destruct Hpost as [HX [HY [Hin [k [Hk [Hpos [Htaken Hfree]]]]]]].
        unfold FormBuilder.spacing, FormBuilder.padding in *.
        split; [lia|]. split; [lia|]. split; [exact Hin|].
        split; [intros E; destruct (Hne E)|].
        destruct (Nat.eq_dec k (Z.to_nat FormBuilder.maxAttempts)) as [->|Hlt].
        -- right. repeat split; assumption.
        -- left. apply Hfree. lia.
      * eexists. split; [reflexivity|]. cbn [fst snd].
        split; [unfold FormBuilder.spacing; lia|].
        split; [unfold FormBuilder.spacing, FormBuilder.padding; lia|].
        split; [unfold FormBuilder.withinMargins, FormBuilder.padding,
                  FormBuilder.pageWidth, FormBuilder.pageHeight in *;
                cbn [fst snd]; lia|].
        split; [intros E; destruct (Hne E)|].
        left. apply hasOverlap_false. intros field Hin. cbn [fst snd].
        destruct (Hall field Hin) as [_ Hfr].
        unfold FormBuilder.overlaps, FormBuilder.spacing.
        replace (FormBuilder.x field + FormBuilder.width field + 16
                 <=? rightmostRight + 16)%Z with true
          by (symmetry; apply Z.leb_le; lia).
        rewrite orb_true_r. reflexivity.
    + eexists. split; [reflexivity|]. cbn [fst snd].
      split; [unfold FormBuilder.spacing, FormBuilder.padding; lia|].
      split; [unfold FormBuilder.spacing; lia|].
      split; [unfold FormBuilder.withinMargins, FormBuilder.padding,
                FormBuilder.pageWidth, FormBuilder.pageHeight in *;
              cbn [fst snd]; lia|].
      split; [intros E; destruct (Hne E)|].
      left. apply hasOverlap_false. intros field Hin. cbn [fst snd].
      destruct (Hall field Hin) as [Hfb _].
      unfold FormBuilder.overlaps, FormBuilder.spacing.
      replace (FormBuilder.y field + FormBuilder.height field + 16
               <=? maxBottom + 16)%Z with true
        by (symmetry; apply Z.leb_le; lia).
      rewrite orb_true_r, andb_false_r. reflexivity.
Qed.
End Search.

Lemma initialSize_bounds (type : FormBuilder.FieldType) :
  let '(width, height, _) := FormBuilder.initialSize type in
  (0 <= width <= FormBuilder.pageWidth - 2 * FormBuilder.padding)%Z /\
  (0 <= height <= FormBuilder.pageHeight - 2 * FormBuilder.padding)%Z.
Proof.
  unfold FormBuilder.pageWidth, FormBuilder.pageHeight, FormBuilder.padding.
  destruct type; cbn [FormBuilder.initialSize]; lia.
Qed.

Lemma overlaps_false (newX newY width height : Z) (field : FormBuilder.FormField) :
  FormBuilder.overlaps newX newY width height field = false <->
  (newX + width + FormBuilder.spacing <= FormBuilder.x field \/
   FormBuilder.x field + FormBuilder.width field + FormBuilder.spacing <= newX \/
   newY + height + FormBuilder.spacing <= FormBuilder.y field \/
   FormBuilder.y field + FormBuilder.height field + FormBuilder.spacing <= newY)%Z.
Proof.
  unfold FormBuilder.overlaps.
  rewrite andb_false_iff, !negb_false_iff, !orb_true_iff, !Z.leb_le. tauto.
Qed.

(** The field that [addField] appends. *)
Lemma addField_spec (fields : list FormBuilder.FormField)
    (type : FormBuilder.FieldType) (fieldId : JSString) :
  exists newX newY,
    FormBuilder.newPosition fields (fst (fst (FormBuilder.initialSize type)))
                            (snd (fst (FormBuilder.initialSize type)))
    = Some (newX, newY) /\
    FormBuilder.addField fields type fieldId
    = Some (fields ++
            [FormBuilder.mkFormField fieldId type
               (snd (FormBuilder.initialSize type)) newX newY
               (fst (fst (FormBuilder.initialSize type)))
               (snd (fst (FormBuilder.initialSize type)))
               (FormBuilder.initialOptions type)]).
Proof.
  unfold FormBuilder.addField.
  pose proof (initialSize_bounds type) as Hb.
  destruct (FormBuilder.initialSize type) as [[width height] label].
  destruct Hb as [Hw Hh]. cbn [fst snd].
  destruct (newPosition_spec fields Hw Hh) as [[newX newY] [-> _]].
  exists newX, newY. split; reflexivity.
Qed.

(** X16. addField appends one field, with the given id and type, and always
    returns; the new field ends within the right and the bottom margin of the
    page and starts no nearer than the spacing to its left and top edge, and
    the first field of a form goes to the top left corner of the margins. *)
Theorem X16_new_field_within_margins (fields : list FormBuilder.FormField)
    (type : FormBuilder.FieldType) (fieldId : JSString) :
  exists newField,
    FormBuilder.addField fields type fieldId = Some (fields ++ [newField]) /\
    FormBuilder.id newField = fieldId /\
    FormBuilder.type newField = type /\
    (FormBuilder.spacing <= FormBuilder.x newField)%Z /\
    (FormBuilder.spacing <= FormBuilder.y newField)%Z /\
    (FormBuilder.x newField + FormBuilder.width newField
     <= FormBuilder.pageWidth - FormBuilder.padding)%Z /\
    (FormBuilder.y newField + FormBuilder.height newField
     <= FormBuilder.pageHeight - FormBuilder.padding)%Z /\
    (fields = [] ->
     FormBuilder.x newField = FormBuilder.padding /\
     FormBuilder.y newField = FormBuilder.padding).
Proof.
  destruct (addField_spec fields type fieldId) as [newX [newY [Hpos Hadd]]].
  eexists. split; [exact Hadd|]. cbn.
  split; [reflexivity|]. split; [reflexivity|].
  pose proof (initialSize_bounds type) as Hb.
  destruct (FormBuilder.initialSize type) as [[width height] label].
  destruct Hb as [Hw Hh]. cbn [fst snd] in *.
  destruct (newPosition_spec fields Hw Hh)
    as [position [Hpos' [HX [HY [[HinX HinY] [Hempty _]]]]]].
  rewrite Hpos in Hpos'. injection Hpos' as <-. cbn [fst snd] in *.
  split; [exact HX|]. split; [exact HY|]. split; [exact HinX|].
  split; [exact HinY|]. intros E. specialize (Hempty E).
  injection Hempty as -> ->. split; reflexivity.
Qed.

(** X17. The new field keeps the spacing to every field of the form, to
    the left, to the right, above or below it, unless it fits neither below
    nor to the right of the form and all of the positions that the search
    looks at, as many as it has attempts, are taken; the field then goes to
    the position that the search would have looked at next. *)
Theorem X17_new_field_keeps_clear (fields : list FormBuilder.FormField)
    (type : FormBuilder.FieldType) (fieldId : JSString) :
  exists newField,
    FormBuilder.addField fields type fieldId = Some (fields ++ [newField]) /\
    ((forall field, In field fields ->
        (FormBuilder.x newField + FormBuilder.width newField + FormBuilder.spacing
         <= FormBuilder.x field \/
         FormBuilder.x field + FormBuilder.width field + FormBuilder.spacing
         <= FormBuilder.x newField \/
         FormBuilder.y newField + FormBuilder.height newField + FormBuilder.spacing
         <= FormBuilder.y field \/
         FormBuilder.y field + FormBuilder.height field + FormBuilder.spacing
         <= FormBuilder.y newField)%Z)
     \/
     (FormBuilder.pageHeight - FormBuilder.padding
      < fst (FormBuilder.extent fields) + FormBuilder.spacing
        + FormBuilder.height newField)%Z /\
     (FormBuilder.pageWidth - FormBuilder.padding
      < snd (FormBuilder.extent fields) + FormBuilder.spacing
        + FormBuilder.width newField)%Z /\
     FormBuilder.takenBefore fields (FormBuilder.width newField)
       (FormBuilder.height newField) (Z.to_nat FormBuilder.maxAttempts) /\
     (FormBuilder.x newField, FormBuilder.y newField)
     = FormBuilder.scanned (FormBuilder.width newField) (FormBuilder.height newField)
         (Z.to_nat FormBuilder.maxAttempts)).
Proof.
  destruct (addField_spec fields type fieldId) as [newX [newY [Hpos Hadd]]].
  eexists. split; [exact Hadd|]. cbn [FormBuilder.x FormBuilder.y FormBuilder.width
                                       FormBuilder.height].
  pose proof (initialSize_bounds type) as Hb.
  destruct (FormBuilder.initialSize type) as [[width height] label].
  destruct Hb as [Hw Hh]. cbn [fst snd] in *.
  destruct (newPosition_spec fields Hw Hh)
    as [position [Hpos' [_ [_ [_ [_ [Hclear|Htaken]]]]]]];
    rewrite Hpos in Hpos'; injection Hpos' as <-.
  - left. intros field Hin.
    apply (proj1 (hasOverlap_false _ _ _ _) Hclear) in Hin.
    apply overlaps_false in Hin. exact Hin.
  - right. exact Htaken.
Qed.

(** The search can fail: on a page that one field covers, the new field is
    put on top of it. *)
Example addField_on_covered_page :
  FormBuilder.addField
    [FormBuilder.mkFormField (lit "field_1") FormBuilder.Label (lit "Cover")
       0 0 595 842 None] FormBuilder.Checkbox (lit "field_2")
  = Some
      [FormBuilder.mkFormField (lit "field_1") FormBuilder.Label (lit "Cover")
         0 0 595 842 None;
       FormBuilder.mkFormField (lit "field_2") FormBuilder.Checkbox (lit "Checkbox")
         480 160 24 24 None].
Proof. vm_compute. reflexivity. Qed.

Lemma removeField_fresh (fields : list FormBuilder.FormField) (fieldId : JSString) :
  Forall (fun f => FormBuilder.id f <> fieldId) fields ->
  FormBuilder.removeField fields fieldId = fields.
Proof.
  unfold FormBuilder.removeField. induction 1 as [|f fields Hf _ IH]; simpl.
  - reflexivity.
  - rewrite (proj2 (str_eqb_neq _ _) Hf). simpl. now rewrite IH.
Qed.

(** X18. Removing the id of a field just added removes the new field, along
    with the older fields of that id; when no older field has the id, the
    fields are as they were before the field was added. *)
Theorem X18_remove_added_field (fields : list FormBuilder.FormField)
    (type : FormBuilder.FieldType) (fieldId : JSString) :
  exists fields',
    FormBuilder.addField fields type fieldId = Some fields' /\
    FormBuilder.removeField fields' fieldId = FormBuilder.removeField fields fieldId /\
    (Forall (fun f => FormBuilder.id f <> fieldId) fields ->
     FormBuilder.removeField fields' fieldId = fields).
Proof.
  destruct (addField_spec fields type fieldId) as [newX [newY [_ Hadd]]].
  eexists. split; [exact Hadd|].
  assert (forall newField, FormBuilder.id newField = fieldId ->
            FormBuilder.removeField (fields ++ [newField]) fieldId
            = FormBuilder.removeField fields fieldId) as Hrem.
  { intros newField Hid. unfold FormBuilder.removeField.
    rewrite filter_app. simpl. rewrite Hid, str_eqb_refl. simpl.
    apply app_nil_r. }
  split.
  - apply Hrem. reflexivity.
  - intros Hfresh. rewrite Hrem by reflexivity. apply removeField_fresh, Hfresh.
Qed.

(** X19. A move of the mouse during a resize changes only the sizes of the
    fields with the id of the resized one: no side becomes shorter than 20,
    nor shorter than the dragged length, and a checkbox or radio button
    stays a square. *)
Theorem X19_resize (fields : list FormBuilder.FormField)
    (field : FormBuilder.FormField) (deltaX deltaY : Z) :
  let after := FormBuilder.handleMouseMove fields field deltaX deltaY in
  length after = length fields /\
  forall i f, nth_error fields i = Some f ->
    exists f', nth_error after i = Some f' /\
      FormBuilder.id f' = FormBuilder.id f /\
      FormBuilder.type f' = FormBuilder.type f /\
      FormBuilder.label f' = FormBuilder.label f /\
      FormBuilder.x f' = FormBuilder.x f /\
      FormBuilder.y f' = FormBuilder.y f /\
      FormBuilder.options f' = FormBuilder.options f /\
      (FormBuilder.id f <> FormBuilder.id field -> f' = f) /\
      (FormBuilder.id f = FormBuilder.id field ->
         (20 <= FormBuilder.width f')%Z /\ (20 <= FormBuilder.height f')%Z /\
         (FormBuilder.width field + deltaX <= FormBuilder.width f')%Z /\
         (FormBuilder.height field + deltaY <= FormBuilder.height f')%Z /\
         (FormBuilder.type field = FormBuilder.Checkbox \/
          FormBuilder.type field = FormBuilder.Radio ->
          FormBuilder.width f' = FormBuilder.height f') /\
         (FormBuilder.type field <> FormBuilder.Checkbox ->
          FormBuilder.type field <> FormBuilder.Radio ->
          FormBuilder.width f' = Z.max 20 (FormBuilder.width field + deltaX) /\
          FormBuilder.height f' = Z.max 20 (FormBuilder.height field + deltaY))).
Proof.
  intros after. unfold after, FormBuilder.handleMouseMove.
  destruct (FormBuilder.resized field deltaX deltaY) as [newWidth newHeight] eqn:Er.
  assert ((20 <= newWidth)%Z /\ (20 <= newHeight)%Z /\
          (FormBuilder.width field + deltaX <= newWidth)%Z /\
          (FormBuilder.height field + deltaY <= newHeight)%Z /\
          (FormBuilder.type field = FormBuilder.Checkbox \/
           FormBuilder.type field = FormBuilder.Radio -> newWidth = newHeight) /\
          (FormBuilder.type field <> FormBuilder.Checkbox ->
           FormBuilder.type field <> FormBuilder.Radio ->
           newWidth = Z.max 20 (FormBuilder.width field + deltaX) /\
           newHeight = Z.max 20 (FormBuilder.height field + deltaY))) as Hsize.
  { unfold FormBuilder.resized in Er.
    destruct (FormBuilder.type field); injection Er as <- <-;
      (split; [lia|]); (split; [lia|]); (split; [lia|]); (split; [lia|]);
      (split; [intros [E|E]; (discriminate || reflexivity)
              |intros H1 H2; (congruence || (split; reflexivity))]). }
  unfold FormBuilder.onResize. split; [apply length_map|].
  intros i f Hi. rewrite nth_error_map, Hi. cbn [option_map].
  eexists. split; [reflexivity|].
  destruct (str_eqb (FormBuilder.id f) (FormBuilder.id field)) eqn:E.
  - apply str_eqb_eq in E. cbn.
    do 6 (split; [reflexivity|]). split; [intros Hne; contradiction|].
    intros _. exact Hsize.
  - apply str_eqb_neq in E.
    do 7 (split; [reflexivity|]). intros Heq. contradiction.
Qed.
